(** * ArgCLITool command language: lexer, parser and error reporter

    A shallow embedding of [lib/ArgCLITool/CLILexer.hpp] and of the parser
    header that includes it ([CLIInputStreamHook], [ErrorReporter],
    [CLIParser]), followed by the properties of the command-language front
    end: tokenization, vector promotion, the errors of the grammar, the
    recorded buffer and the highlighted snippet.  The [RGB] colour
    structure that shares the lexer's file is embedded as well, with its
    colour codes.

    Conventions.
    - [std::string] is [string]; [std::vector<char>] and the characters
      still to be read are [list ascii].
    - [int64_t] counters (stream offsets, line numbers) are [Z]; they only
      ever count characters read, so signed overflow is out of reach and is
      not modelled.  [int64_t] payloads are range-checked where the C++
      library does it.
    - [double] is the kernel's binary64 [float]; [float] (binary32) is a
      [spec_float] rounded to 24 bits.
    - Stateful code is written in a state-and-exception monad over the
      parser object.  Every [while] loop takes a fuel argument, spends one
      unit per turn, hands what is left to the loops it calls, and yields
      [OutOfFuel] when it is used up.  The lexer's fuel is [lf] throughout;
      the parser's loops have a fuel of their own.
    - A thrown exception keeps the state it was thrown in, because the
      stream hook outlives the call. *)

From Stdlib Require Import Floats.PrimFloat Floats.SpecFloat Floats.FloatOps.
From Stdlib Require Import ZArith List String Ascii Bool Lia.
From Stdlib Require Import Numbers.DecimalString Numbers.DecimalZ.
Import ListNotations.

Open Scope string_scope.
Open Scope Z_scope.

(* ================================================================= *)
(** ** Characters *)

Definition LF : ascii := "010"%char.
Definition CR : ascii := "013"%char.
Definition TAB : ascii := "009"%char.
Definition NUL : ascii := "000"%char.
Definition ESC : ascii := "027"%char.

(** [std::char_traits<char>::eof()] narrowed to [char], which is what
    [char peek()] hands back at end of input. *)
Definition EOF_char : ascii := "255"%char.

Definition isDigit (c : ascii) : bool := (("0" <=? c) && (c <=? "9"))%char.

Definition isAlpha (c : ascii) : bool :=
  ((("a" <=? c) && (c <=? "z")) || (("A" <=? c) && (c <=? "Z")))%char.

Definition isWhitespace (c : ascii) : bool :=
  Ascii.eqb c " " || Ascii.eqb c TAB || Ascii.eqb c LF || Ascii.eqb c CR.

(** [value += c]. *)
Definition push_char (value : string) (c : ascii) : string :=
  value ++ String c "".

Fixpoint back (s : string) : option ascii :=
  match s with
  | "" => None
  | String c "" => Some c
  | String _ r => back r
  end.

Fixpoint pop_back (s : string) : string :=
  match s with
  | "" => ""
  | String _ "" => ""
  | String c r => String c (pop_back r)
  end.

(* ================================================================= *)
(** ** The C++ standard library's number conversions

    The lexer and the parser lean on [operator>>] of [std::istringstream],
    [std::to_string], [std::stoll], [std::stod] and two [static_cast]s.
    They are modelled here as the GNU implementation (the one the
    repository's Makefile builds with) behaves in the "C" locale. *)

Module StdNum.

Definition int64_min : Z := - 2 ^ 63.
Definition int64_max : Z := 2 ^ 63 - 1.

Definition digit_value (c : ascii) : Z := Z.of_nat (nat_of_ascii c) - 48.

(** Reads the leading decimal digits of [s]: accumulated value, number of
    digits read, rest. *)
Fixpoint read_digits (s : string) (acc : Z) (n : nat) : Z * nat * string :=
  match s with
  | String c r =>
      if isDigit c then read_digits r (10 * acc + digit_value c) (S n)
      else (acc, n, s)
  | "" => (acc, n, s)
  end.

Definition read_sign (s : string) : bool * string :=
  match s with
  | String c r =>
      if Ascii.eqb c "-" then (true, r)
      else if Ascii.eqb c "+" then (false, r)
      else (false, s)
  | "" => (false, s)
  end.

Definition signed (neg : bool) (v : Z) : Z := if neg then - v else v.

(** [int64_t i; std::istringstream iss(s); iss >> i;] followed by the
    test [iss.eof() && !iss.fail()]: [Some i] when the test holds.  The
    extraction takes a sign and decimal digits; it fails without a digit
    or on overflow, and end-of-file is only reached when nothing is left
    over. *)
Definition extract_int64 (s : string) : option Z :=
  let (neg, r) := read_sign s in
  let '(v, n, rest) := read_digits r 0 0 in
  match n, rest with
  | O, _ => None
  | _, String _ _ => None
  | _, "" =>
      let i := signed neg v in
      if (int64_min <=? i) && (i <=? int64_max) then Some i else None
  end.

(** A complete decimal floating literal: sign, mantissa digits with an
    optional point, optional exponent.  The result [(neg, m, e)] stands
    for [(-1)^neg * m * 10^e]. *)
Definition parse_decimal (s : string) : option (bool * Z * Z) :=
  let (neg, r) := read_sign s in
  let '(ip, n1, r1) := read_digits r 0 0 in
  let '(m, n2, r2) :=
    match r1 with
    | String c r' =>
        if Ascii.eqb c "." then read_digits r' ip 0 else (ip, O, r1)
    | "" => (ip, O, r1)
    end in
  match (n1 + n2)%nat with
  | O => None
  | _ =>
      match r2 with
      | "" => Some (neg, m, - Z.of_nat n2)
      | String c r3 =>
          if Ascii.eqb c "e" || Ascii.eqb c "E" then
            let (eneg, r4) := read_sign r3 in
            let '(ev, n3, r5) := read_digits r4 0 0 in
            match n3, r5 with
            | O, _ => None
            | _, String _ _ => None
            | _, "" => Some (neg, m, signed eneg ev - Z.of_nat n2)
            end
          else None
      end
  end.

(** Correct rounding (to nearest, ties to even) of the rational [n / d],
    [0 <= n], [0 < d], to the binary format of precision [prec] and
    exponent bound [emax].  The quotient is taken with two bits more than
    the format holds and one sticky bit below them. *)
Definition round_ratio (prec emax : Z) (neg : bool) (n d : Z) : spec_float :=
  if n =? 0 then S754_zero neg
  else
    let s := Z.max 0 (prec + 2 + Z.log2 d - Z.log2 n) in
    let q := (n * 2 ^ s) / d in
    let sticky := if (n * 2 ^ s) mod d =? 0 then 0 else 1 in
    let f := binary_normalize prec emax (2 * q + sticky) (- s - 1) false in
    if neg then SFopp f else f.

Definition round_decimal (prec emax : Z) (l : bool * Z * Z) : spec_float :=
  let '(neg, m, e) := l in
  if 0 <=? e then round_ratio prec emax neg (m * 10 ^ e) 1
  else round_ratio prec emax neg m (10 ^ (- e)).

Definition is_finite_SF (f : spec_float) : bool :=
  match f with
  | S754_zero _ | S754_finite _ _ _ => true
  | _ => false
  end.

(** [float f; std::istringstream iss(s); iss >> f;] followed by
    [iss.eof() && !iss.fail()].  The extraction fails when [s] is not a
    complete decimal literal and when the value overflows binary32. *)
Definition extract_float (s : string) : option spec_float :=
  match parse_decimal s with
  | None => None
  | Some l =>
      let f := round_decimal 24 128 l in
      if is_finite_SF f then Some f else None
  end.

(** [std::to_string(int64_t)]. *)
Definition to_string_int64 (i : Z) : string :=
  NilZero.string_of_int (Z.to_int i).

Definition round_half_even (num den : Z) : Z :=
  let q := num / den in
  let r := num mod den in
  match 2 * r ?= den with
  | Lt => q
  | Gt => q + 1
  | Eq => if Z.even q then q else q + 1
  end.

Fixpoint zeros (n : nat) : string :=
  match n with
  | O => ""
  | S k => String "0" (zeros k)
  end.

Definition pad6 (v : Z) : string :=
  let s := NilZero.string_of_int (Z.to_int v) in
  zeros (6 - String.length s) ++ s.

Definition sign_text (neg : bool) : string := if neg then "-" else "".

(** [std::to_string(float)], that is [printf("%f")]: the exact value
    rounded to six decimals. *)
Definition to_string_float (f : spec_float) : string :=
  match f with
  | S754_zero s => sign_text s ++ "0.000000"
  | S754_finite s m e =>
      let micro :=
        if 0 <=? e then Z.pos m * 2 ^ e * 1000000
        else round_half_even (Z.pos m * 1000000) (2 ^ (- e)) in
      sign_text s ++ NilZero.string_of_int (Z.to_int (micro / 1000000))
                  ++ "." ++ pad6 (micro mod 1000000)
  | S754_infinity s => sign_text s ++ "inf"
  | S754_nan => "nan"
  end.

(** [std::stoll(s)]: [None] stands for the [std::invalid_argument] (no
    digits) or [std::out_of_range] it throws.  Conversion stops at the
    first character that is not a digit. *)
Definition stoll (s : string) : option Z :=
  let (neg, r) := read_sign s in
  let '(v, n, _) := read_digits r 0 0 in
  match n with
  | O => None
  | _ =>
      let i := signed neg v in
      if (int64_min <=? i) && (i <=? int64_max) then Some i else None
  end.

(** [std::stod(s)] on a complete decimal literal (the only texts the
    parser passes are those [to_string_float] printed): correctly rounded
    to binary64; [None] stands for the exception thrown when the text is
    not a number or the value overflows. *)
Definition stod (s : string) : option float :=
  match parse_decimal s with
  | None => None
  | Some l =>
      let f := round_decimal 53 1024 l in
      if is_finite_SF f then Some (SF2Prim f) else None
  end.

(** [static_cast<double>(int64_t)]. *)
Definition double_of_int64 (i : Z) : float :=
  SF2Prim (binary_normalize 53 1024 i 0 false).

(** [static_cast<int64_t>(double)]: truncation towards zero (undefined in
    C++ when the value does not fit; the mathematical value is kept). *)
Definition int64_of_double (d : float) : Z :=
  match Prim2SF d with
  | S754_finite s m e =>
      let a := if 0 <=? e then Z.pos m * 2 ^ e else Z.pos m / 2 ^ (- e) in
      signed s a
  | _ => 0
  end.

End StdNum.

(* ================================================================= *)
(** ** Input streams *)

(** [CLIStdInputStream] over a [std::istream]: the characters already
    extracted (latest first), those still to come, and whether the stream
    has failed.  A failed stream peeks end-of-file and refuses every
    operation; [eofbit] alone is not tracked because nothing here can tell
    it from reaching the end of [ahead]. *)
Record CLIStdInputStream := mkStd {
  behind : list ascii;
  ahead : list ascii;
  failed : bool
}.

Module Std.

Definition peek (r : CLIStdInputStream) : ascii :=
  if failed r then EOF_char
  else match ahead r with
       | c :: _ => c
       | [] => EOF_char
       end.

Definition get (r : CLIStdInputStream) : option ascii * CLIStdInputStream :=
  if failed r then (None, r)
  else match ahead r with
       | c :: rest => (Some c, mkStd (c :: behind r) rest false)
       | [] => (None, mkStd (behind r) [] true)
       end.

Definition unget (r : CLIStdInputStream) : CLIStdInputStream :=
  if failed r then r
  else match behind r with
       | c :: rest => mkStd rest (c :: ahead r) false
       | [] => mkStd [] (ahead r) true
       end.

End Std.

(** [CLIInputStreamHook]: forwards to the wrapped stream and records every
    character consumed since the last checkpoint. *)
Record CLIInputStreamHook := mkHook {
  stream_ : CLIStdInputStream;
  stream_position_ : Z;
  consumed_chars_ : list ascii;
  position_ : Z;
  line_number_ : Z;
  current_line_number_ : Z
}.

Module Hook.

Definition init (r : CLIStdInputStream) : CLIInputStreamHook :=
  mkHook r 0 [] 0 1 1.

Definition peek (h : CLIInputStreamHook) : ascii := Std.peek (stream_ h).

Definition get (h : CLIInputStreamHook) : option ascii * CLIInputStreamHook :=
  match Std.get (stream_ h) with
  | (Some c, r) =>
      (Some c,
       mkHook r (stream_position_ h + 1) (consumed_chars_ h ++ [c])
              (position_ h) (line_number_ h)
              (if Ascii.eqb c LF then current_line_number_ h + 1
               else current_line_number_ h))
  | (None, r) =>
      (None,
       mkHook r (stream_position_ h) (consumed_chars_ h)
              (position_ h) (line_number_ h) (current_line_number_ h))
  end.

(** [None] is the [std::runtime_error("Cannot unget ...")]. *)
Definition unget (h : CLIInputStreamHook) : option CLIInputStreamHook :=
  match consumed_chars_ h with
  | [] => None
  | _ =>
      Some (mkHook (Std.unget (stream_ h)) (stream_position_ h - 1)
                   (removelast (consumed_chars_ h))
                   (position_ h) (line_number_ h)
                   (if Ascii.eqb (last (consumed_chars_ h) NUL) LF
                    then current_line_number_ h - 1
                    else current_line_number_ h))
  end.

Definition tellg (h : CLIInputStreamHook) : Z := stream_position_ h.

Definition clearConsumedTokens (h : CLIInputStreamHook) : CLIInputStreamHook :=
  mkHook (stream_ h) (stream_position_ h) []
         (stream_position_ h) (current_line_number_ h) (current_line_number_ h).

Definition getConsumedTokens (h : CLIInputStreamHook) : string :=
  string_of_list_ascii (consumed_chars_ h).

Definition getPosition (h : CLIInputStreamHook) : Z := position_ h.

Definition getLineNumber (h : CLIInputStreamHook) : Z := line_number_ h.

End Hook.

(* ================================================================= *)
(** ** Tokens *)

Module CLIToken.

Inductive Type' :=
| Identifier | String | Integer | Float
| LeftParen | RightParen | LeftBracket | RightBracket
| LeftCurly | RightCurly | Comma | EndOfLine | Comment | EndOfFile
| Unknown.

Definition toString (type : Type') : string :=
  match type with
  | Identifier => "identifier"
  | String => "string"
  | Integer => "integer"
  | Float => "float"
  | LeftParen => "left paren"
  | RightParen => "right paren"
  | LeftBracket => "left bracket"
  | RightBracket => "right bracket"
  | LeftCurly => "left curly"
  | RightCurly => "right curly"
  | Comma => "comma"
  | EndOfLine => "end of line"
  | Comment => "comment"
  | EndOfFile => "end of file"
  | Unknown => "unknown"
  end.

Definition Type_eqb (a b : Type') : bool :=
  match a, b with
  | Identifier, Identifier | String, String | Integer, Integer
  | Float, Float | LeftParen, LeftParen | RightParen, RightParen
  | LeftBracket, LeftBracket | RightBracket, RightBracket
  | LeftCurly, LeftCurly | RightCurly, RightCurly | Comma, Comma
  | EndOfLine, EndOfLine | Comment, Comment | EndOfFile, EndOfFile
  | Unknown, Unknown => true
  | _, _ => false
  end.

Record t := mk {
  type : Type';
  value : string;
  begin : Z;
  end_ : Z
}.

End CLIToken.

(* ================================================================= *)
(** ** Arguments and commands *)

Module Argument.

Inductive Type' :=
| Identifier | String | Integer | Float | IntegerVector | FloatVector.

(** The [std::variant] of the payload; [IdentifierData] is [StringData]. *)
Inductive Data :=
| StringData (value : string)
| IntegerData (value : Z)
| FloatData (value : float)
| IntegerVectorData (value : list Z)
| FloatVectorData (value : list float).

Record t := mk {
  type : Type';
  data : Data
}.

End Argument.

Record Command := mkCommand {
  name : string;
  arguments : list Argument.t
}.

(* ================================================================= *)
(** ** Exceptions and the parser monad *)

(** Which factory of [ErrorReporter] built a diagnostic, with its
    arguments. *)
Inductive Diagnostic :=
| UnexpectedToken (expected : CLIToken.Type') (actual : CLIToken.t)
| UnexpectedTokenText (expected : string) (actual : CLIToken.t)
| UnexpectedTokenNoExpected (unexpected : CLIToken.t)
| MismatchedToken (unexpected : CLIToken.t)
| UnknownToken (unknown : CLIToken.t).

Definition offending (d : Diagnostic) : CLIToken.t :=
  match d with
  | UnexpectedToken _ t | UnexpectedTokenText _ t
  | UnexpectedTokenNoExpected t | MismatchedToken t | UnknownToken t => t
  end.

Inductive exn :=
| ParseError (d : Diagnostic) (what : string)
    (* the std::runtime_error an ErrorReporter factory returned *)
| InternalError (what : string)
    (* "Cannot unget ...", "No way to reach here ..." *)
| AssertionFailure
    (* a failed assert() *)
| LibraryError (what : string).
    (* an exception of the standard library *)

(** The parser object: the stream hook it owns and the lexer's one-token
    lookahead (the lexer and the error reporter only hold references to the
    hook). *)
Record CLIParser := mkParser {
  stream_hook_ : CLIInputStreamHook;
  peeked_token_ : option CLIToken.t
}.

Inductive outcome (A : Type) :=
| Ok (a : A) (s : CLIParser)
| Throw (e : exn) (s : CLIParser)
| OutOfFuel.
Arguments Ok {A} a s.
Arguments Throw {A} e s.
Arguments OutOfFuel {A}.

Definition M (A : Type) : Type := CLIParser -> outcome A.

Definition ret {A} (a : A) : M A := fun s => Ok a s.

Definition bind {A B} (m : M A) (k : A -> M B) : M B :=
  fun s =>
    match m s with
    | Ok a s' => k a s'
    | Throw e s' => Throw e s'
    | OutOfFuel => OutOfFuel
    end.

Definition throw {A} (e : exn) : M A := fun s => Throw e s.

Definition out_of_fuel {A} : M A := fun _ => OutOfFuel.

Notation "x <- m ;; k" := (bind m (fun x => k))
  (at level 61, m at next level, right associativity).
Notation "m ;;; k" := (bind m (fun _ => k))
  (at level 61, right associativity).

(** The stream operations as the lexer sees them (its [stream_] is the
    parser's hook). *)
Definition peek : M ascii :=
  fun s => Ok (Hook.peek (stream_hook_ s)) s.

Definition get : M (option ascii) :=
  fun s =>
    let (c, h) := Hook.get (stream_hook_ s) in
    Ok c (mkParser h (peeked_token_ s)).

Definition unget : M unit :=
  fun s =>
    match Hook.unget (stream_hook_ s) with
    | Some h => Ok tt (mkParser h (peeked_token_ s))
    | None => Throw (InternalError "Cannot unget") s
    end.

Definition tellg : M Z :=
  fun s => Ok (Hook.tellg (stream_hook_ s)) s.

Definition clearConsumedTokens : M unit :=
  fun s =>
    Ok tt (mkParser (Hook.clearConsumedTokens (stream_hook_ s)) (peeked_token_ s)).

(* ================================================================= *)
(** ** CLILexer *)

Definition DQUOTE : ascii := "034"%char.
Definition BACKSLASH : ascii := "\"%char.

(** The case labels of [readNextToken]'s [switch] and the tests of the
    readers' loops. *)
Definition isIdentifierStart (c : ascii) : bool :=
  isAlpha c || Ascii.eqb c "_".

Definition isNumberStart (c : ascii) : bool :=
  Ascii.eqb c "-" || Ascii.eqb c "+" || Ascii.eqb c "." || isDigit c.

Definition isIdentifierChar (c : ascii) : bool :=
  isAlpha c || isDigit c || Ascii.eqb c "_".

Definition isNumberChar (c : ascii) : bool :=
  isDigit c || isAlpha c || Ascii.eqb c "_" || Ascii.eqb c "."
  || Ascii.eqb c "-" || Ascii.eqb c "+".

(** The variable [c] after [stream_.get(c)]: left as it was when the
    extraction fails. *)
Definition assigned (r : option ascii) (c : ascii) : ascii :=
  match r with
  | Some c' => c'
  | None => c
  end.

Fixpoint readIdentifier_loop (fuel : nat) (value : string) (end_ : Z)
  : M (string * Z) :=
  match fuel with
  | O => out_of_fuel
  | S fuel' =>
      c <- peek ;;
      if isIdentifierChar c then
        r <- get ;;
        readIdentifier_loop fuel' (push_char value (assigned r c)) (end_ + 1)
      else ret (value, end_)
  end.

Definition readIdentifier (fuel : nat) : M CLIToken.t :=
  begin <- tellg ;;
  ve <- readIdentifier_loop fuel "" begin ;;
  ret (CLIToken.mk CLIToken.Identifier (fst ve) begin (snd ve)).

Fixpoint readString_loop (fuel : nat) (escape : bool) (value : string) (end_ : Z)
  : M (string * Z) :=
  match fuel with
  | O => out_of_fuel
  | S fuel' =>
      r <- get ;;
      match r with
      | None => ret (value, end_)
      | Some c =>
          if escape then
            if Ascii.eqb c CR then
              readString_loop fuel' true value (end_ + 1)
            else if Ascii.eqb c LF then
              readString_loop fuel' false value (end_ + 1)
            else
              readString_loop fuel' false (push_char value c) (end_ + 1)
          else if Ascii.eqb c BACKSLASH then
            readString_loop fuel' true value (end_ + 1)
          else if Ascii.eqb c DQUOTE then
            ret (value, end_ + 1)
          else
            readString_loop fuel' false (push_char value c) (end_ + 1)
      end
  end.

Definition readString (fuel : nat) : M CLIToken.t :=
  begin <- tellg ;;
  ve <- readString_loop fuel false "" begin ;;
  ret (CLIToken.mk CLIToken.String (fst ve) (begin - 1) (snd ve)).

Fixpoint readNumber_loop (fuel : nat) (value : string) (end_ : Z)
  : M (string * Z) :=
  match fuel with
  | O => out_of_fuel
  | S fuel' =>
      c <- peek ;;
      if Ascii.eqb c NUL then ret (value, end_)
      else if isNumberChar c then
        r <- get ;;
        readNumber_loop fuel' (push_char value (assigned r c)) (end_ + 1)
      else ret (value, end_)
  end.

Definition has_suffix (value : string) : bool :=
  match back value with
  | Some c => Ascii.eqb c "f" || Ascii.eqb c "F"
  | None => false
  end.

(** The text both extractions are run on. *)
Definition candidate (value : string) : string :=
  if has_suffix value then pop_back value else value.

Definition classifyNumber (value : string) (begin end_ : Z) : CLIToken.t :=
  match StdNum.extract_int64 (candidate value) with
  | Some integer =>
      if has_suffix value
      then CLIToken.mk CLIToken.Unknown value begin end_
      else CLIToken.mk CLIToken.Integer (StdNum.to_string_int64 integer) begin end_
  | None =>
      match StdNum.extract_float (candidate value) with
      | Some floating =>
          CLIToken.mk CLIToken.Float (StdNum.to_string_float floating) begin end_
      | None => CLIToken.mk CLIToken.Unknown value begin end_
      end
  end.

Definition readNumber (fuel : nat) : M CLIToken.t :=
  begin <- tellg ;;
  ve <- readNumber_loop fuel "" begin ;;
  ret (classifyNumber (fst ve) begin (snd ve)).

Fixpoint readComment_loop (fuel : nat) (value : string) (end_ : Z)
  : M (string * Z) :=
  match fuel with
  | O => out_of_fuel
  | S fuel' =>
      c <- peek ;;
      if Ascii.eqb c LF then ret (value, end_)
      else
        r <- get ;;
        readComment_loop fuel' (push_char value (assigned r c)) (end_ + 1)
  end.

Definition readComment (fuel : nat) : M CLIToken.t :=
  begin <- tellg ;;
  ve <- readComment_loop fuel "" begin ;;
  ret (CLIToken.mk CLIToken.Comment (fst ve) begin (snd ve)).

Definition punctuation (c : ascii) : option CLIToken.Type' :=
  if Ascii.eqb c "(" then Some CLIToken.LeftParen
  else if Ascii.eqb c ")" then Some CLIToken.RightParen
  else if Ascii.eqb c "[" then Some CLIToken.LeftBracket
  else if Ascii.eqb c "]" then Some CLIToken.RightBracket
  else if Ascii.eqb c "{" then Some CLIToken.LeftCurly
  else if Ascii.eqb c "}" then Some CLIToken.RightCurly
  else if Ascii.eqb c "," then Some CLIToken.Comma
  else if Ascii.eqb c LF then Some CLIToken.EndOfLine
  else None.

Definition isSkipped (c : ascii) : bool :=
  Ascii.eqb c " " || Ascii.eqb c TAB || Ascii.eqb c CR.

Fixpoint readNextToken (fuel : nat) : M CLIToken.t :=
  match fuel with
  | O => out_of_fuel
  | S fuel' =>
      r <- get ;;
      match r with
      | None =>
          position <- tellg ;;
          ret (CLIToken.mk CLIToken.EndOfFile "" position position)
      | Some c =>
          p <- tellg ;;
          let begin := p - 1 in
          if isIdentifierStart c then unget ;;; readIdentifier fuel'
          else if Ascii.eqb c DQUOTE then readString fuel'
          else if isNumberStart c then unget ;;; readNumber fuel'
          else
            match punctuation c with
            | Some type => ret (CLIToken.mk type (String c "") begin (begin + 1))
            | None =>
                if Ascii.eqb c "#" then unget ;;; readComment fuel'
                else if isSkipped c then readNextToken fuel'
                else ret (CLIToken.mk CLIToken.Unknown (String c "") begin (begin + 1))
            end
      end
  end.

(** [stream_.peek() != eof()], with [char] signed as on the platforms the
    Makefile targets: the narrowed end-of-file value compares equal to
    [eof()] again. *)
Definition hasMoreTokens : M bool :=
  c <- peek ;; ret (negb (Ascii.eqb c EOF_char)).

Definition nextToken (fuel : nat) : M CLIToken.t :=
  fun s =>
    match peeked_token_ s with
    | Some token => Ok token (mkParser (stream_hook_ s) None)
    | None => readNextToken fuel s
    end.

Definition peekToken (fuel : nat) : M CLIToken.t :=
  fun s =>
    match peeked_token_ s with
    | Some token => Ok token s
    | None =>
        match readNextToken fuel s with
        | Ok token s' => Ok token (mkParser (stream_hook_ s') (Some token))
        | Throw e s' => Throw e s'
        | OutOfFuel => OutOfFuel
        end
    end.

(** A parser over the text [input], as [CLIParser(stream)] constructs it. *)
Definition parser_on (input : string) : CLIParser :=
  mkParser (Hook.init (mkStd [] (list_ascii_of_string input) false)) None.

(* ================================================================= *)
(** ** ErrorReporter *)

Record ErrorReporter := mkReporter {
  color_output_ : bool;
  show_source_ : bool
}.

Module Report.

Definition RED : string := String ESC "[31m".
Definition RESET : string := String ESC "[0m".
Definition NL : string := String LF "".

(** [colorString]: every line of [str] wrapped in [color] ... [RESET].
    [line] is the part of the current line already scanned; a line break
    closes it, and a last line is only emitted when it is not empty (the
    loop test [pos < str.size()]). *)
Fixpoint colorString_from (line : string) (str : string) (color : string)
  : string :=
  match str with
  | "" =>
      match line with
      | "" => ""
      | _ => color ++ line ++ RESET
      end
  | String c rest =>
      if Ascii.eqb c LF
      then color ++ line ++ RESET ++ NL ++ colorString_from "" rest color
      else colorString_from (push_char line c) rest color
  end.

Definition colorString (str : string) (color : string) : string :=
  colorString_from "" str color.

Fixpoint addPrefix (prefix : string) (str : string) : string :=
  match str with
  | "" => ""
  | String c rest =>
      if Ascii.eqb c LF then NL ++ prefix ++ addPrefix prefix rest
      else String c (addPrefix prefix rest)
  end.

Definition size (s : string) : Z := Z.of_nat (String.length s).

(** [s.substr(pos, len)] with [size_t] arguments: [None] is the
    [std::out_of_range] thrown when [pos] lies beyond the end (a negative
    [int64_t] converts to a huge [size_t]). *)
Definition substr (s : string) (pos len : Z) : option string :=
  if (pos <? 0) || (size s <? pos) then None
  else Some (substring (Z.to_nat pos) (Z.to_nat len) s).

(** [s.substr(pos)]. *)
Definition substr_from (s : string) (pos : Z) : option string :=
  substr s pos (size s).

Fixpoint spaces (n : nat) : string :=
  match n with
  | O => ""
  | S k => String " " (spaces k)
  end.

(** The two bounds [getSourceSnippetReport] computes. *)
Definition highlight_begin (h : CLIInputStreamHook) (begin : Z) : Z :=
  Z.max (begin - Hook.getPosition h) 0.

Definition highlight_end (h : CLIInputStreamHook) (end_ : Z) : Z :=
  Z.min (end_ - Hook.getPosition h + 1) (size (Hook.getConsumedTokens h)).

(** The text built once the range is known. *)
Definition render (h : CLIInputStreamHook) (hb he : Z) : option string :=
  let source := Hook.getConsumedTokens h in
  match substr source 0 hb, substr source hb (he - hb), substr_from source he with
  | Some before, Some inside, Some after =>
      let report := before ++ colorString inside RED ++ after in
      let line_number_str :=
        "  " ++ StdNum.to_string_int64 (Hook.getLineNumber h) ++ " " in
      let prefix := spaces (String.length line_number_str) in
      Some (line_number_str ++ "| " ++ addPrefix (prefix ++ "| ") report)
  | _, _, _ => None
  end.

Definition getSourceSnippetReport (h : CLIInputStreamHook) (begin end_ : Z)
  : option string :=
  let hb := highlight_begin h begin in
  let he := highlight_end h end_ in
  if he <? hb then Some "" else render h hb he.

Definition quoted (t : CLIToken.t) : string :=
  match CLIToken.type t with
  | CLIToken.EndOfLine => ""
  | _ => " '" ++ CLIToken.value t ++ "'"
  end.

Definition position_text (t : CLIToken.t) : string :=
  " at position " ++ StdNum.to_string_int64 (CLIToken.begin t).

(** The message line of each factory. *)
Definition headline (d : Diagnostic) : string :=
  colorString "Error: " RED ++
  match d with
  | UnexpectedToken expected actual =>
      "expected " ++ CLIToken.toString expected ++ position_text actual
      ++ " but got " ++ CLIToken.toString (CLIToken.type actual) ++ quoted actual
  | UnexpectedTokenText expected actual =>
      "expected " ++ expected ++ position_text actual
      ++ " but got " ++ CLIToken.toString (CLIToken.type actual) ++ quoted actual
  | UnexpectedTokenNoExpected unexpected =>
      "unexpected " ++ CLIToken.toString (CLIToken.type unexpected)
      ++ position_text unexpected ++ quoted unexpected
  | MismatchedToken unexpected =>
      "mismatched " ++ CLIToken.toString (CLIToken.type unexpected)
      ++ position_text unexpected ++ quoted unexpected
  | UnknownToken unknown =>
      "unknown token" ++ position_text unknown
      ++ " '" ++ CLIToken.value unknown ++ "'"
  end.

(** What a factory returns: the message line, then the snippet when
    [show_source_] is set. *)
Definition error (r : ErrorReporter) (h : CLIInputStreamHook) (d : Diagnostic)
  : exn :=
  if show_source_ r then
    match getSourceSnippetReport h (CLIToken.begin (offending d))
                                 (CLIToken.end_ (offending d)) with
    | Some snippet => ParseError d (headline d ++ NL ++ snippet)
    | None => LibraryError "basic_string::substr"
    end
  else ParseError d (headline d).

End Report.

(* ================================================================= *)
(** ** CLIParser *)

(** [error_reporter_(stream_hook_)]: both options at their defaults. *)
Definition error_reporter_ : ErrorReporter := mkReporter true true.

(** [throw error_reporter_.<factory>(...)]. *)
Definition raise {A} (d : Diagnostic) : M A :=
  fun s => Throw (Report.error error_reporter_ (stream_hook_ s) d) s.

Definition no_way_to_reach_here {A} : M A :=
  throw (InternalError "No way to reach here").

(** A library call that may throw. *)
Definition library {A} (what : string) (r : option A) : M A :=
  match r with
  | Some a => ret a
  | None => throw (LibraryError what)
  end.

Definition stoll (s : string) : M Z := library "stoll" (StdNum.stoll s).
Definition stod (s : string) : M float := library "stod" (StdNum.stod s).

(** The loop of the lambda [parseIntegerVector]. *)
Fixpoint integerVectorData (tokens : list CLIToken.t) : M (list Z) :=
  match tokens with
  | [] => ret []
  | token :: rest =>
      v <- match CLIToken.type token with
           | CLIToken.Integer => stoll (CLIToken.value token)
           | CLIToken.Float =>
               d <- stod (CLIToken.value token) ;; ret (StdNum.int64_of_double d)
           | _ => throw AssertionFailure
           end ;;
      vs <- integerVectorData rest ;;
      ret (v :: vs)
  end.

(** The loop of the lambda [parseFloatVector]. *)
Fixpoint floatVectorData (tokens : list CLIToken.t) : M (list float) :=
  match tokens with
  | [] => ret []
  | token :: rest =>
      v <- match CLIToken.type token with
           | CLIToken.Integer =>
               i <- stoll (CLIToken.value token) ;; ret (StdNum.double_of_int64 i)
           | CLIToken.Float => stod (CLIToken.value token)
           | _ => throw AssertionFailure
           end ;;
      vs <- floatVectorData rest ;;
      ret (v :: vs)
  end.

(** [if (integer_vector) parseIntegerVector(); else parseFloatVector();
    return arg;] *)
Definition returnVector (integer_vector : bool) (tokens : list CLIToken.t)
  : M Argument.t :=
  if integer_vector then
    v <- integerVectorData tokens ;;
    ret (Argument.mk Argument.IntegerVector (Argument.IntegerVectorData v))
  else
    v <- floatVectorData tokens ;;
    ret (Argument.mk Argument.FloatVector (Argument.FloatVectorData v)).

Definition size_is_1 (tokens : list CLIToken.t) : bool :=
  Nat.eqb (List.length tokens) 1.

Fixpoint parseNumberList_loop (lf fuel : nat) (comma first_number : bool)
  (tokens : list CLIToken.t) (integer_vector : bool) : M Argument.t :=
  match fuel with
  | O => out_of_fuel
  | S fuel' =>
      peeked <- peekToken lf ;;
      match CLIToken.type peeked with
      | CLIToken.Integer =>
          if negb comma then
            if size_is_1 tokens then
              token <- nextToken lf ;;
              raise (UnexpectedToken CLIToken.Comma token)
            else returnVector integer_vector tokens
          else
            token <- nextToken lf ;;
            parseNumberList_loop lf fuel' false false (tokens ++ [token])
                                 integer_vector
      | CLIToken.Float =>
          if negb comma then
            if size_is_1 tokens then
              token <- nextToken lf ;;
              raise (UnexpectedToken CLIToken.Comma token)
            else returnVector integer_vector tokens
          else
            token <- nextToken lf ;;
            parseNumberList_loop lf fuel' false false (tokens ++ [token]) false
      | CLIToken.Comma =>
          if comma then
            token <- nextToken lf ;;
            raise (UnexpectedTokenText "number" token)
          else
            nextToken lf ;;;
            parseNumberList_loop lf fuel' true first_number tokens integer_vector
      | _ =>
          if first_number then
            token <- nextToken lf ;;
            raise (UnexpectedTokenText "number" token)
          else if comma then
            token <- nextToken lf ;;
            raise (UnexpectedTokenText "number" token)
          else returnVector integer_vector tokens
      end
  end.

Definition parseNumberList (lf fuel : nat) : M Argument.t :=
  parseNumberList_loop lf fuel true true [] true.

Definition parseVector (lf fuel : nat) : M Argument.t :=
  peeked <- peekToken lf ;;
  match CLIToken.type peeked with
  | CLIToken.Integer | CLIToken.Float => parseNumberList lf fuel
  | CLIToken.LeftParen =>
      nextToken lf ;;;
      arg <- parseNumberList lf fuel ;;
      token <- nextToken lf ;;
      if CLIToken.Type_eqb (CLIToken.type token) CLIToken.RightParen
      then ret arg
      else raise (UnexpectedToken CLIToken.RightParen token)
  | CLIToken.LeftBracket =>
      nextToken lf ;;;
      arg <- parseNumberList lf fuel ;;
      token <- nextToken lf ;;
      if CLIToken.Type_eqb (CLIToken.type token) CLIToken.RightBracket
      then ret arg
      else raise (UnexpectedToken CLIToken.RightBracket token)
  | _ => no_way_to_reach_here
  end.

Definition bad_variant_access {A} : M A :=
  throw (LibraryError "bad_variant_access").

Definition parseArgument (lf fuel : nat) : M Argument.t :=
  peeked <- peekToken lf ;;
  match CLIToken.type peeked with
  | CLIToken.Identifier =>
      token <- nextToken lf ;;
      ret (Argument.mk Argument.Identifier (Argument.StringData (CLIToken.value token)))
  | CLIToken.String =>
      token <- nextToken lf ;;
      ret (Argument.mk Argument.String (Argument.StringData (CLIToken.value token)))
  | CLIToken.Integer =>
      token <- nextToken lf ;;
      following <- peekToken lf ;;
      if CLIToken.Type_eqb (CLIToken.type following) CLIToken.Comma then
        nextToken lf ;;;
        arg <- parseNumberList lf fuel ;;
        match Argument.type arg with
        | Argument.IntegerVector =>
            match Argument.data arg with
            | Argument.IntegerVectorData value =>
                first <- stoll (CLIToken.value token) ;;
                ret (Argument.mk (Argument.type arg)
                                 (Argument.IntegerVectorData (first :: value)))
            | _ => bad_variant_access
            end
        | _ =>
            match Argument.data arg with
            | Argument.FloatVectorData value =>
                first <- stoll (CLIToken.value token) ;;
                ret (Argument.mk (Argument.type arg)
                       (Argument.FloatVectorData (StdNum.double_of_int64 first :: value)))
            | _ => bad_variant_access
            end
        end
      else
        i <- stoll (CLIToken.value token) ;;
        ret (Argument.mk Argument.Integer (Argument.IntegerData i))
  | CLIToken.Float =>
      token <- nextToken lf ;;
      following <- peekToken lf ;;
      if CLIToken.Type_eqb (CLIToken.type following) CLIToken.Comma then
        nextToken lf ;;;
        arg <- parseNumberList lf fuel ;;
        match Argument.type arg with
        | Argument.FloatVector =>
            match Argument.data arg with
            | Argument.FloatVectorData value =>
                first <- stod (CLIToken.value token) ;;
                ret (Argument.mk (Argument.type arg)
                                 (Argument.FloatVectorData (first :: value)))
            | _ => bad_variant_access
            end
        | _ =>
            match Argument.data arg with
            | Argument.IntegerVectorData value =>
                first <- stod (CLIToken.value token) ;;
                ret (Argument.mk Argument.FloatVector
                       (Argument.FloatVectorData
                          (first :: List.map StdNum.double_of_int64 value)))
            | _ => bad_variant_access
            end
        end
      else
        d <- stod (CLIToken.value token) ;;
        ret (Argument.mk Argument.Float (Argument.FloatData d))
  | CLIToken.LeftParen | CLIToken.LeftBracket => parseVector lf fuel
  | CLIToken.RightParen | CLIToken.RightBracket =>
      token <- nextToken lf ;;
      raise (UnexpectedTokenNoExpected token)
  | _ => no_way_to_reach_here
  end.

Fixpoint parseArgumentList_loop (lf fuel : nat) (multiline : bool)
  (arguments : list Argument.t) : M (list Argument.t) :=
  match fuel with
  | O => out_of_fuel
  | S fuel' =>
      peeked <- peekToken lf ;;
      match CLIToken.type peeked with
      | CLIToken.Identifier | CLIToken.String | CLIToken.Integer
      | CLIToken.Float | CLIToken.LeftParen | CLIToken.RightParen
      | CLIToken.LeftBracket | CLIToken.RightBracket =>
          arg <- parseArgument lf fuel' ;;
          parseArgumentList_loop lf fuel' multiline (arguments ++ [arg])
      | CLIToken.LeftCurly =>
          if multiline then
            token <- nextToken lf ;;
            raise (MismatchedToken token)
          else
            nextToken lf ;;;
            parseArgumentList_loop lf fuel' true arguments
      | CLIToken.RightCurly =>
          if negb multiline then
            token <- nextToken lf ;;
            raise (MismatchedToken token)
          else
            nextToken lf ;;;
            parseArgumentList_loop lf fuel' false arguments
      | CLIToken.Comma =>
          token <- nextToken lf ;;
          raise (UnexpectedTokenNoExpected token)
      | CLIToken.EndOfLine =>
          nextToken lf ;;;
          if negb multiline then ret arguments
          else parseArgumentList_loop lf fuel' multiline arguments
      | CLIToken.Comment =>
          nextToken lf ;;;
          parseArgumentList_loop lf fuel' multiline arguments
      | CLIToken.EndOfFile =>
          if multiline then
            token <- nextToken lf ;;
            raise (UnexpectedToken CLIToken.RightCurly token)
          else ret arguments
      | CLIToken.Unknown =>
          token <- nextToken lf ;;
          raise (UnknownToken token)
      end
  end.

Definition parseArgumentList (lf fuel : nat) : M (list Argument.t) :=
  parseArgumentList_loop lf fuel false [].

Definition empty (s : string) : bool :=
  match s with
  | "" => true
  | _ => false
  end.

(** [command.arguments = parseArgumentList();
    stream_hook_.clearConsumedTokens(); return command;] *)
Definition finishCommand (lf fuel : nat) (command : Command) : M Command :=
  args <- parseArgumentList lf fuel ;;
  clearConsumedTokens ;;;
  ret (mkCommand (name command) args).

Fixpoint parseCommand_loop (lf fuel : nat) (command : Command) : M Command :=
  match fuel with
  | O => out_of_fuel
  | S fuel' =>
      peeked <- peekToken lf ;;
      match CLIToken.type peeked with
      | CLIToken.Identifier =>
          if empty (name command) then
            token <- nextToken lf ;;
            parseCommand_loop lf fuel'
              (mkCommand (CLIToken.value token) (arguments command))
          else finishCommand lf fuel' command
      | CLIToken.String | CLIToken.Integer | CLIToken.Float
      | CLIToken.LeftParen | CLIToken.RightParen | CLIToken.LeftBracket
      | CLIToken.RightBracket | CLIToken.LeftCurly | CLIToken.RightCurly
      | CLIToken.Comma =>
          if empty (name command) then
            token <- nextToken lf ;;
            raise (UnexpectedToken CLIToken.Identifier token)
          else finishCommand lf fuel' command
      | CLIToken.EndOfLine =>
          if empty (name command) then
            nextToken lf ;;;
            clearConsumedTokens ;;;
            parseCommand_loop lf fuel' command
          else finishCommand lf fuel' command
      | CLIToken.Comment =>
          nextToken lf ;;;
          parseCommand_loop lf fuel' command
      | CLIToken.EndOfFile =>
          clearConsumedTokens ;;;
          ret command
      | CLIToken.Unknown =>
          token <- nextToken lf ;;
          raise (UnknownToken token)
      end
  end.

Definition parseCommand (lf fuel : nat) : M Command :=
  parseCommand_loop lf fuel (mkCommand "" []).

Definition hasMoreCommands : M bool := hasMoreTokens.

(* ================================================================= *)
(** ** Specification vocabulary *)

(** [wp o Q E]: if the run [o] returned, [Q] holds of its result; if it
    threw, [E] holds of the exception.  Nothing is said of a run that used
    up its fuel. *)
Definition wp {A} (o : outcome A) (Q : A -> CLIParser -> Prop)
  (E : exn -> CLIParser -> Prop) : Prop :=
  match o with
  | Ok a s => Q a s
  | Throw e s => E e s
  | OutOfFuel => True
  end.

(** The stream position, the checkpoint and the recorded buffer of the
    parser's hook. *)
Definition sp (s : CLIParser) : Z := stream_position_ (stream_hook_ s).
Definition cp (s : CLIParser) : Z := position_ (stream_hook_ s).
Definition buffer (s : CLIParser) : list ascii := consumed_chars_ (stream_hook_ s).

(** The characters the lexer can still read. *)
Definition visible (s : CLIParser) : list ascii :=
  if failed (stream_ (stream_hook_ s)) then [] else ahead (stream_ (stream_hook_ s)).

(** The parser after one successful [get] of [c]. *)
Definition step (s : CLIParser) (c : ascii) : CLIParser :=
  let h := stream_hook_ s in
  mkParser
    (mkHook (mkStd (c :: behind (stream_ h)) (tl (ahead (stream_ h))) false)
            (stream_position_ h + 1) (consumed_chars_ h ++ [c])
            (position_ h) (line_number_ h)
            (if Ascii.eqb c LF then current_line_number_ h + 1
             else current_line_number_ h))
    (peeked_token_ s).

(** The parser after a [get] that found nothing. *)
Definition at_eof (s : CLIParser) : CLIParser :=
  let h := stream_hook_ s in
  mkParser
    (mkHook (mkStd (behind (stream_ h)) (ahead (stream_ h)) true)
            (stream_position_ h) (consumed_chars_ h)
            (position_ h) (line_number_ h) (current_line_number_ h))
    (peeked_token_ s).

(** The parser after the characters [cs] have been read one by one. *)
Definition consume (s : CLIParser) (cs : list ascii) : CLIParser :=
  fold_left step cs s.

Fixpoint take_while (p : ascii -> bool) (l : list ascii) : list ascii :=
  match l with
  | c :: r => if p c then c :: take_while p r else []
  | [] => []
  end.

Fixpoint drop_while (p : ascii -> bool) (l : list ascii) : list ascii :=
  match l with
  | c :: r => if p c then drop_while p r else l
  | [] => []
  end.

(** What a string literal's body denotes, read off the characters after
    the opening quote: the value, the number of characters taken (the
    closing quote included) and whether a closing quote was found.  After a
    backslash, carriage returns are passed over with the escape still
    pending; the character that follows is dropped when it is a line feed
    and taken literally otherwise. *)
Fixpoint scan_string (escape : bool) (cs : list ascii) : list ascii * nat * bool :=
  match cs with
  | [] => ([], O, false)
  | c :: r =>
      if escape then
        if Ascii.eqb c CR then
          let '(v, n, closed) := scan_string true r in (v, S n, closed)
        else if Ascii.eqb c LF then
          let '(v, n, closed) := scan_string false r in (v, S n, closed)
        else
          let '(v, n, closed) := scan_string false r in (c :: v, S n, closed)
      else if Ascii.eqb c BACKSLASH then
        let '(v, n, closed) := scan_string true r in (v, S n, closed)
      else if Ascii.eqb c DQUOTE then ([], 1%nat, true)
      else
        let '(v, n, closed) := scan_string false r in (c :: v, S n, closed)
  end.

(** The parser after a string body: stopped behind the closing quote, or
    at the end of the input when there is none. *)
Definition after_string (s : CLIParser) (cs : list ascii) (n : nat) (closed : bool)
  : CLIParser :=
  if closed then consume s (firstn n cs) else at_eof (consume s cs).

(** The reading of string escapes in which a backslash only ever affects
    the one character after it: an escaped carriage return is dropped and
    the escape is over. *)
Fixpoint one_character_escapes (escape : bool) (cs : list ascii)
  : list ascii * nat * bool :=
  match cs with
  | [] => ([], O, false)
  | c :: r =>
      if escape then
        if Ascii.eqb c CR || Ascii.eqb c LF then
          let '(v, n, closed) := one_character_escapes false r in (v, S n, closed)
        else
          let '(v, n, closed) := one_character_escapes false r in (c :: v, S n, closed)
      else if Ascii.eqb c BACKSLASH then
        let '(v, n, closed) := one_character_escapes true r in (v, S n, closed)
      else if Ascii.eqb c DQUOTE then ([], 1%nat, true)
      else
        let '(v, n, closed) := one_character_escapes false r in (c :: v, S n, closed)
  end.

(** A text between double quotes. *)
Definition quote (body : string) : string :=
  String DQUOTE (body ++ String DQUOTE "").

(** The parser once the token it had peeked has been taken. *)
Definition unpeek (s : CLIParser) : CLIParser :=
  mkParser (stream_hook_ s) None.

(** A token [number := INTEGER | FLOAT] of the grammar. *)
Definition isNumber (t : CLIToken.t) : bool :=
  match CLIToken.type t with
  | CLIToken.Integer | CLIToken.Float => true
  | _ => false
  end.

(** Blank characters: those the lexer skips, and the line feed. *)
Definition isBlank (c : ascii) : bool := isSkipped c || Ascii.eqb c LF.

(** Nothing but blank lines is left to read, or the end of the input has
    already been peeked. *)
Definition exhausted (s : CLIParser) : Prop :=
  match peeked_token_ s with
  | Some t => CLIToken.type t = CLIToken.EndOfFile
  | None => Forall (fun c => isBlank c = true) (visible s)
  end.

(** The recorded buffer holds exactly the characters between the
    checkpoint and the current position. *)
Definition wf (s : CLIParser) : Prop :=
  Z.of_nat (List.length (buffer s)) = sp s - cp s.

(** [s'] is [s] after the lexer has read [n] characters more: the
    checkpoint and the lookahead are untouched. *)
Definition moved (s s' : CLIParser) (n : Z) : Prop :=
  cp s' = cp s
  /\ line_number_ (stream_hook_ s') = line_number_ (stream_hook_ s)
  /\ peeked_token_ s' = peeked_token_ s
  /\ sp s' = sp s + n
  /\ Z.of_nat (List.length (buffer s')) = Z.of_nat (List.length (buffer s)) + n.

(** An exception that is not one of the reporter's diagnostics. *)
Definition internal (e : exn) : Prop :=
  match e with
  | ParseError _ _ => False
  | _ => True
  end.

(** A token as the lexer has just delivered it in state [s]: it lies after
    the checkpoint, ends at the current position, and is empty exactly
    when it is the end-of-file token. *)
Definition tok_ok (t : CLIToken.t) (s : CLIParser) : Prop :=
  cp s <= CLIToken.begin t
  /\ CLIToken.end_ t = sp s
  /\ (CLIToken.type t = CLIToken.EndOfFile -> CLIToken.begin t = CLIToken.end_ t)
  /\ (CLIToken.type t <> CLIToken.EndOfFile -> CLIToken.begin t < CLIToken.end_ t).

(** The states a parsing session goes through between two operations. *)
Definition Inv (s : CLIParser) : Prop :=
  wf s /\ forall t, peeked_token_ s = Some t -> tok_ok t s.

(** How an exception left the parser in state [s]: as a diagnostic of the
    reporter on the token just delivered, with the statement's text still
    in the buffer, or as an internal error. *)
Definition raised (e : exn) (s : CLIParser) : Prop :=
  (exists d,
      e = Report.error error_reporter_ (stream_hook_ s) d
      /\ Inv s /\ cp s < sp s /\ tok_ok (offending d) s)
  \/ internal e.

(** [s'] comes later than [s] in the same statement: no checkpoint was
    taken in between. *)
Definition later (s s' : CLIParser) : Prop :=
  Inv s' /\ cp s' = cp s /\ sp s <= sp s'.

(** The state [parseCommand] returns in: the buffer has just been cleared
    and the checkpoint stands at the current position and line. *)
Definition cleared (s : CLIParser) : Prop :=
  buffer s = []
  /\ position_ (stream_hook_ s) = stream_position_ (stream_hook_ s)
  /\ line_number_ (stream_hook_ s) = current_line_number_ (stream_hook_ s).

(** The snippet with the highlight taken as the token's span moved to
    buffer coordinates, [begin - checkpoint, end - checkpoint), and clamped
    to the buffer. *)
Definition span_snippet (h : CLIInputStreamHook) (t : CLIToken.t) : option string :=
  let hb := Z.max (CLIToken.begin t - Hook.getPosition h) 0 in
  let he := Z.min (CLIToken.end_ t - Hook.getPosition h)
                  (Report.size (Hook.getConsumedTokens h)) in
  if he <? hb then Some "" else Report.render h hb he.

(** A token freshly read lies at or after the position reading started
    from, ends where reading stopped, and is empty only at the end of the
    input. *)
Definition delivered (s : CLIParser) (t : CLIToken.t) (s' : CLIParser) : Prop :=
  exists n,
    0 <= n /\ moved s s' n
    /\ sp s <= CLIToken.begin t
    /\ CLIToken.end_ t = sp s'
    /\ (CLIToken.type t = CLIToken.EndOfFile -> CLIToken.begin t = CLIToken.end_ t)
    /\ (CLIToken.type t <> CLIToken.EndOfFile -> CLIToken.begin t < CLIToken.end_ t).

(** *** Vectors, as the promotion rule describes them *)

Definition isInteger (t : CLIToken.t) : bool :=
  CLIToken.Type_eqb (CLIToken.type t) CLIToken.Integer.

(** The integer an Integer token stands for. *)
Definition integer_of (t : CLIToken.t) : option Z :=
  match CLIToken.type t with
  | CLIToken.Integer => StdNum.stoll (CLIToken.value t)
  | _ => None
  end.

(** The floating-point value a number token stands for: an Integer token
    is converted. *)
Definition double_of (t : CLIToken.t) : option float :=
  match CLIToken.type t with
  | CLIToken.Integer =>
      option_map StdNum.double_of_int64 (StdNum.stoll (CLIToken.value t))
  | CLIToken.Float => StdNum.stod (CLIToken.value t)
  | _ => None
  end.

Fixpoint all_some {A B} (f : A -> option B) (l : list A) : option (list B) :=
  match l with
  | [] => Some []
  | a :: r =>
      match f a, all_some f r with
      | Some b, Some bs => Some (b :: bs)
      | _, _ => None
      end
  end.

(** The vector a list of number tokens denotes: an IntegerVector unless
    one of them is a Float, and then a FloatVector. *)
Definition promoted (numbers : list CLIToken.t) : option Argument.t :=
  if forallb isInteger numbers then
    option_map (fun v => Argument.mk Argument.IntegerVector (Argument.IntegerVectorData v))
               (all_some integer_of numbers)
  else
    option_map (fun v => Argument.mk Argument.FloatVector (Argument.FloatVectorData v))
               (all_some double_of numbers).

(** [comma_separated ts numbers]: the tokens [ts] are the number tokens
    [numbers] with one comma between each two. *)
Inductive comma_separated : list CLIToken.t -> list CLIToken.t -> Prop :=
| cs_one n :
    isNumber n = true -> comma_separated [n] [n]
| cs_more n c ts numbers :
    isNumber n = true ->
    CLIToken.type c = CLIToken.Comma ->
    comma_separated ts numbers ->
    comma_separated (n :: c :: ts) (n :: numbers).

(** [upcoming lf ts s s']: the lexer in state [s] delivers the tokens [ts]
    one after the other and is then in state [s']. *)
Fixpoint upcoming (lf : nat) (ts : list CLIToken.t) (s s' : CLIParser) : Prop :=
  match ts with
  | [] => s = s'
  | t :: r => exists s1, nextToken lf s = Ok t s1 /\ upcoming lf r s1 s'
  end.

(** The three ways a vector is written. *)
Inductive VectorForm := Bare | InParens | InBrackets.

(** What ends the number list of each form: the matching closer, or for a
    bare vector any token that is not a comma (a number only when the list
    passed to [parseNumberList], which lacks the leading number, already
    holds two). *)
Definition ends_vector (form : VectorForm) (numbers : list CLIToken.t)
  (t : CLIToken.t) : Prop :=
  match form with
  | Bare =>
      CLIToken.type t <> CLIToken.Comma
      /\ (isNumber t = true -> (3 <= List.length numbers)%nat)
  | InParens => CLIToken.type t = CLIToken.RightParen
  | InBrackets => CLIToken.type t = CLIToken.RightBracket
  end.

(** The tokens in front of the number list. *)
Definition opens_vector (form : VectorForm) (ts : list CLIToken.t) : Prop :=
  match form with
  | Bare => ts = []
  | InParens => exists t, ts = [t] /\ CLIToken.type t = CLIToken.LeftParen
  | InBrackets => exists t, ts = [t] /\ CLIToken.type t = CLIToken.LeftBracket
  end.

(** The state the argument is returned in: a bare vector leaves the token
    after it peeked, a delimited one has taken its closer. *)
Definition after_vector (form : VectorForm) (t : CLIToken.t) (s : CLIParser)
  : CLIParser :=
  match form with
  | Bare => mkParser (stream_hook_ s) (Some t)
  | _ => s
  end.

(** The states of a parsing session: a parser is constructed over some
    input and [parseCommand] is called again and again, whether the call
    before returned a command or raised a diagnostic. *)
Inductive in_session : CLIParser -> Prop :=
| session_start input :
    in_session (parser_on input)
| session_returned lf fuel s cmd s' :
    in_session s -> parseCommand lf fuel s = Ok cmd s' -> in_session s'
| session_raised lf fuel s d what s' :
    in_session s -> parseCommand lf fuel s = Throw (ParseError d what) s' ->
    in_session s'.

(* ================================================================= *)
(** ** Further vocabulary *)

(** The number of line feeds among the characters [l]. *)
Definition count_LF (l : list ascii) : Z :=
  Z.of_nat (count_occ ascii_dec l LF).

(** The states of a stream hook: constructed over a stream, then driven by
    any sequence of [get], [unget] (when it does not throw) and
    [clearConsumedTokens]. *)
Inductive hook_reachable : CLIInputStreamHook -> Prop :=
| reach_init r :
    hook_reachable (Hook.init r)
| reach_get h :
    hook_reachable h -> hook_reachable (snd (Hook.get h))
| reach_unget h h' :
    hook_reachable h -> Hook.unget h = Some h' -> hook_reachable h'
| reach_clear h :
    hook_reachable h -> hook_reachable (Hook.clearConsumedTokens h).

(** [s'] is [s] after the lexer has read on: it has taken the characters
    [cs] off the front of the input, and may have run into its end. *)
Definition advanced (s s' : CLIParser) : Prop :=
  exists cs rest,
    visible s = (cs ++ rest)%list
    /\ (s' = consume s cs \/ (rest = [] /\ s' = at_eof (consume s cs))).

(** A computation that does not throw, whatever state it is run in. *)
Definition no_throw {A} (m : M A) : Prop :=
  forall s e s', m s <> Throw e s'.

(** Every [#] of the text [cs] has a line feed somewhere after it, so that
    no comment runs into the end of the input. *)
Definition comments_closed (cs : list ascii) : Prop :=
  forall a b, cs = (a ++ "#"%char :: b)%list -> In LF b.

(** [comments_closed], decided. *)
Fixpoint comments_closedb (cs : list ascii) : bool :=
  match cs with
  | [] => true
  | c :: r =>
      (if Ascii.eqb c "#" then existsb (Ascii.eqb LF) r else true)
      && comments_closedb r
  end.

(** The parser with its buffer cleared: what [clearConsumedTokens] leaves. *)
Definition checkpointed (s : CLIParser) : CLIParser :=
  mkParser (Hook.clearConsumedTokens (stream_hook_ s)) (peeked_token_ s).

(** The characters between the offsets [from] and [to] of a text. *)
Definition slice (text : list ascii) (from to : Z) : list ascii :=
  firstn (Z.to_nat (to - from)) (skipn (Z.to_nat from) text).

(** The hook of [s] is in step with the stream it wraps, which holds the
    text [input]: the stream has delivered the first [stream_position_]
    characters of [input], of which the part from the checkpoint on is the
    recorded buffer, and the two line numbers count the line feeds before
    the checkpoint and before the stream position. *)
Definition in_step (input : list ascii) (s : CLIParser) : Prop :=
  let h := stream_hook_ s in
  let read := rev (behind (stream_ h)) in
  exists before,
    read = (before ++ consumed_chars_ h)%list
    /\ (read ++ ahead (stream_ h))%list = input
    /\ Z.of_nat (List.length before) = position_ h
    /\ Z.of_nat (List.length read) = stream_position_ h
    /\ line_number_ h = 1 + count_LF before
    /\ current_line_number_ h = 1 + count_LF read.

(** The states of a parsing session over the text [input]: as
    [in_session], with the text named and with any exception allowed to
    end a call. *)
Inductive session_on (input : string) : CLIParser -> Prop :=
| on_start :
    session_on input (parser_on input)
| on_returned lf fuel s cmd s' :
    session_on input s -> parseCommand lf fuel s = Ok cmd s' ->
    session_on input s'
| on_thrown lf fuel s e s' :
    session_on input s -> parseCommand lf fuel s = Throw e s' ->
    session_on input s'.

(** The argument a single identifier, string or number token stands
    for. *)
Definition simple_argument (t : CLIToken.t) : option Argument.t :=
  match CLIToken.type t with
  | CLIToken.Identifier =>
      Some (Argument.mk Argument.Identifier (Argument.StringData (CLIToken.value t)))
  | CLIToken.String =>
      Some (Argument.mk Argument.String (Argument.StringData (CLIToken.value t)))
  | CLIToken.Integer =>
      option_map (fun i => Argument.mk Argument.Integer (Argument.IntegerData i))
                 (StdNum.stoll (CLIToken.value t))
  | CLIToken.Float =>
      option_map (fun d => Argument.mk Argument.Float (Argument.FloatData d))
                 (StdNum.stod (CLIToken.value t))
  | _ => None
  end.

(** An opening delimiter of a vector with its closing one. *)
Definition delimiters (opener closer : CLIToken.t) : Prop :=
  (CLIToken.type opener = CLIToken.LeftParen
   /\ CLIToken.type closer = CLIToken.RightParen)
  \/ (CLIToken.type opener = CLIToken.LeftBracket
      /\ CLIToken.type closer = CLIToken.RightBracket).

(** [statement_body multiline ts args last]: the tokens [ts] are what
    follows the name of a well-formed statement, [multiline] telling whether
    a brace is open where they start; they denote the arguments [args], and
    [last] is the token that ends the statement, a line end outside braces
    or the end of the input.  Arguments are single tokens, delimited vectors
    and bare vectors (one that a number follows directly has to hold three
    numbers at least, or the parser asks for a comma); comments are dropped,
    and so are line ends between braces. *)
Inductive statement_body :
  bool -> list CLIToken.t -> list Argument.t -> CLIToken.t -> Prop :=
| body_end last :
    CLIToken.type last = CLIToken.EndOfLine
    \/ CLIToken.type last = CLIToken.EndOfFile ->
    statement_body false [last] [] last
| body_simple multiline t a ts args last :
    simple_argument t = Some a ->
    statement_body multiline ts args last ->
    statement_body multiline (t :: ts) (a :: args) last
| body_vector multiline opener closer ns numbers v ts args last :
    delimiters opener closer ->
    comma_separated ns numbers ->
    promoted numbers = Some v ->
    statement_body multiline ts args last ->
    statement_body multiline (opener :: ns ++ closer :: ts)%list (v :: args) last
| body_bare multiline n c ns rest v ts args last :
    isNumber n = true ->
    CLIToken.type c = CLIToken.Comma ->
    comma_separated ns rest ->
    promoted (n :: rest) = Some v ->
    (forall t r, ts = t :: r -> isNumber t = true -> (2 <= List.length rest)%nat) ->
    statement_body multiline ts args last ->
    statement_body multiline (n :: c :: ns ++ ts)%list (v :: args) last
| body_comment multiline t ts args last :
    CLIToken.type t = CLIToken.Comment ->
    statement_body multiline ts args last ->
    statement_body multiline (t :: ts) args last
| body_open t ts args last :
    CLIToken.type t = CLIToken.LeftCurly ->
    statement_body true ts args last ->
    statement_body false (t :: ts) args last
| body_close t ts args last :
    CLIToken.type t = CLIToken.RightCurly ->
    statement_body false ts args last ->
    statement_body true (t :: ts) args last
| body_newline t ts args last :
    CLIToken.type t = CLIToken.EndOfLine ->
    statement_body true ts args last ->
    statement_body true (t :: ts) args last.

(** The state a statement leaves the parser in: the line end that closed
    it has been taken, the end of the input is left in the lookahead. *)
Definition after_statement (last : CLIToken.t) (s : CLIParser) : CLIParser :=
  match CLIToken.type last with
  | CLIToken.EndOfFile => mkParser (stream_hook_ s) (Some last)
  | _ => s
  end.

(** The delimiter that closes a vector opened by a token of type
    [opener]. *)
Definition closer_of (opener : CLIToken.Type') : option CLIToken.Type' :=
  match opener with
  | CLIToken.LeftParen => Some CLIToken.RightParen
  | CLIToken.LeftBracket => Some CLIToken.RightBracket
  | _ => None
  end.

(** The number the decimal digits [d] denote after the digits already
    accumulated in [acc]. *)
Fixpoint decimal_value (d : Decimal.uint) (acc : Z) : Z :=
  match d with
  | Decimal.Nil => acc
  | Decimal.D0 l => decimal_value l (10 * acc + 0)
  | Decimal.D1 l => decimal_value l (10 * acc + 1)
  | Decimal.D2 l => decimal_value l (10 * acc + 2)
  | Decimal.D3 l => decimal_value l (10 * acc + 3)
  | Decimal.D4 l => decimal_value l (10 * acc + 4)
  | Decimal.D5 l => decimal_value l (10 * acc + 5)
  | Decimal.D6 l => decimal_value l (10 * acc + 6)
  | Decimal.D7 l => decimal_value l (10 * acc + 7)
  | Decimal.D8 l => decimal_value l (10 * acc + 8)
  | Decimal.D9 l => decimal_value l (10 * acc + 9)
  end.

(** The value of an Integer token converts back to an integer. *)
Definition convertible (t : CLIToken.t) : Prop :=
  CLIToken.type t = CLIToken.Integer ->
  exists i, StdNum.stoll (CLIToken.value t) = Some i.

(** [total o Q E]: the run [o] did not use up its fuel; it returned with
    [Q] or threw with [E]. *)
Definition total {A} (o : outcome A) (Q : A -> CLIParser -> Prop)
  (E : exn -> CLIParser -> Prop) : Prop :=
  match o with
  | Ok a s => Q a s
  | Throw e s => E e s
  | OutOfFuel => False
  end.

(** One for a token in the lookahead that is not the end of the input. *)
Definition pending (s : CLIParser) : nat :=
  match peeked_token_ s with
  | Some t => if CLIToken.Type_eqb (CLIToken.type t) CLIToken.EndOfFile then 0 else 1
  | None => 0
  end.

(** A bound on the tokens still to be taken: the characters left, and the
    token in the lookahead. *)
Definition remaining (s : CLIParser) : nat :=
  (List.length (visible s) + pending s)%nat.

(** The states the parser can work from with the lexer fuel [lf]: every
    comment ahead is closed by a line feed, the fuel covers the characters
    left, and an Integer token in the lookahead converts. *)
Definition ready (lf : nat) (s : CLIParser) : Prop :=
  comments_closed (visible s)
  /\ (List.length (visible s) + 1 < lf)%nat
  /\ forall t, peeked_token_ s = Some t -> convertible t.

(** An argument whose tag agrees with its payload, a vector holding at
    least one element. *)
Definition arg_ok (a : Argument.t) : Prop :=
  match Argument.type a, Argument.data a with
  | Argument.Identifier, Argument.StringData _
  | Argument.String, Argument.StringData _
  | Argument.Integer, Argument.IntegerData _
  | Argument.Float, Argument.FloatData _ => True
  | Argument.IntegerVector, Argument.IntegerVectorData v => v <> []
  | Argument.FloatVector, Argument.FloatVectorData v => v <> []
  | _, _ => False
  end.

(** The exceptions a call of the parser may end in: a diagnostic of the
    reporter, or the exception of [std::stod]. *)
Definition diagnostic_or_stod (e : exn) : Prop :=
  match e with
  | ParseError _ _ => True
  | LibraryError what => what = "stod"
  | _ => False
  end.

(** How a call of the parser may fail when started in a ready state: with
    a diagnostic or [std::stod]'s exception, the state being ready for the
    next call. *)
Definition fails (lf : nat) (e : exn) (s : CLIParser) : Prop :=
  diagnostic_or_stod e /\ ready lf s.

(** A number token whose value converts. *)
Definition number_ok (t : CLIToken.t) : Prop :=
  isNumber t = true /\ convertible t.

(** A vector argument, well formed. *)
Definition vector_ok (a : Argument.t) : Prop :=
  arg_ok a
  /\ (Argument.type a = Argument.IntegerVector
      \/ Argument.type a = Argument.FloatVector).

(** The token types an argument starts with, as [parseArgumentList] tells
    them. *)
Definition starts_argument (type : CLIToken.Type') : bool :=
  match type with
  | CLIToken.Identifier | CLIToken.String | CLIToken.Integer
  | CLIToken.Float | CLIToken.LeftParen | CLIToken.RightParen
  | CLIToken.LeftBracket | CLIToken.RightBracket => true
  | _ => false
  end.

(** Any exception, in any state. *)
Definition any_exception (e : exn) (s : CLIParser) : Prop := True.

(** A text without a line feed. *)
Definition one_line (s : string) : Prop := ~ In LF (list_ascii_of_string s).

(** The texts [lines] put together with [sep] between each two. *)
Fixpoint join (sep : string) (lines : list string) : string :=
  match lines with
  | [] => ""
  | [l] => l
  | l :: rest => l ++ sep ++ join sep rest
  end.

(** A line between the colour code and the reset code; an empty last line
    is not written at all. *)
Definition coloured (color : string) (line : string) : string :=
  color ++ line ++ Report.RESET.

Definition coloured_last (color : string) (line : string) : string :=
  match line with
  | "" => ""
  | _ => coloured color line
  end.

(* ================================================================= *)
(** ** RGB colours

    The [RGB] structure that follows the lexer in [CLILexer.hpp] (and, in
    namespace [cm], opens [cmap.h]): three [uint8_t] channels, kept here as
    integers below 256, the constructor from a six-digit hexadecimal colour
    code and [toString], which prints one. *)

Module RGB.

Record t := mk {
  R : Z;
  G : Z;
  B : Z
}.

(** Conversion to [uint8_t]. *)
Definition uint8 (v : Z) : Z := v mod 256.

(** [RGB(int R, int G, int B)]. *)
Definition of_ints (r g b : Z) : t := mk (uint8 r) (uint8 g) (uint8 b).

(** The characters [find_first_not_of] is given. *)
Definition hex_characters : string := "0123456789ABCDEFabcdef".

Definition isHex (c : ascii) : bool :=
  existsb (Ascii.eqb c) (list_ascii_of_string hex_characters).

Definition hex_value (c : ascii) : Z :=
  if isDigit c then Z.of_nat (nat_of_ascii c) - 48
  else if (("a" <=? c) && (c <=? "f"))%char then Z.of_nat (nat_of_ascii c) - 87
  else Z.of_nat (nat_of_ascii c) - 55.

(** [std::stoi(ccode, nullptr, 16)] on a text of hexadecimal digits: no
    blank, sign or [0x] prefix can stand in a validated code, and six digits
    cannot overflow an [int]. *)
Fixpoint stoi16 (s : string) (acc : Z) : Z :=
  match s with
  | "" => acc
  | String c r => if isHex c then stoi16 r (16 * acc + hex_value c) else acc
  end.

(** [RGB(const std::string& ccode)]; [None] is the
    [std::invalid_argument] thrown for a text that is not six hexadecimal
    digits. *)
Definition of_ccode (ccode : string) : option t :=
  if Nat.eqb (String.length ccode) 6
     && forallb isHex (list_ascii_of_string ccode)
  then
    let color := stoi16 ccode 0 in
    Some (mk (uint8 (Z.shiftr (Z.land color 0xFF0000) 16))
             (uint8 (Z.shiftr (Z.land color 0x00FF00) 8))
             (uint8 (Z.land color 0x0000FF)))
  else None.

Definition hex_digit (d : Z) : ascii :=
  match String.get (Z.to_nat d) "0123456789abcdef" with
  | Some c => c
  | None => "0"%char
  end.

(** The digits [std::hex] prints for a [uint32_t]: most significant
    first, none for leading zeros, one for zero. *)
Fixpoint hex_digits (fuel : nat) (v : Z) (acc : string) : string :=
  match fuel with
  | O => acc
  | S fuel' =>
      let acc' := String (hex_digit (v mod 16)) acc in
      if v / 16 =? 0 then acc' else hex_digits fuel' (v / 16) acc'
  end.

Definition hex (v : Z) : string := hex_digits 8 v "".

(** [std::setfill('0') << std::setw(2)]. *)
Definition setw2 (s : string) : string :=
  StdNum.zeros (2 - String.length s) ++ s.

Definition toString (c : t) : string :=
  setw2 (hex (R c)) ++ setw2 (hex (G c)) ++ setw2 (hex (B c)).

End RGB.

(** A letter in lower case. *)
Definition lower (c : ascii) : ascii :=
  if (("A" <=? c) && (c <=? "Z"))%char
  then ascii_of_nat (nat_of_ascii c + 32)
  else c.

Fixpoint lowercase (s : string) : string :=
  match s with
  | "" => ""
  | String c r => String (lower c) (lowercase r)
  end.

(** A channel value: what a [uint8_t] holds. *)
Definition channel (v : Z) : Prop := 0 <= v < 256.

(** [leading lf n s s']: from state [s] the parser passes over [n] tokens,
    each a comment or a line end, and is then in state [s']; after a line
    end it clears the buffer. *)
Inductive leading (lf : nat) : nat -> CLIParser -> CLIParser -> Prop :=
| leading_none s :
    leading lf 0 s s
| leading_comment n s t s1 s' :
    nextToken lf s = Ok t s1 ->
    CLIToken.type t = CLIToken.Comment ->
    leading lf n s1 s' ->
    leading lf (S n) s s'
| leading_newline n s t s1 s' :
    nextToken lf s = Ok t s1 ->
    CLIToken.type t = CLIToken.EndOfLine ->
    leading lf n (checkpointed s1) s' ->
    leading lf (S n) s s'.

(** The token types that cannot start a statement and are reported as
    such: anything an argument list could hold. *)
Definition not_a_name (type : CLIToken.Type') : bool :=
  match type with
  | CLIToken.String | CLIToken.Integer | CLIToken.Float
  | CLIToken.LeftParen | CLIToken.RightParen | CLIToken.LeftBracket
  | CLIToken.RightBracket | CLIToken.LeftCurly | CLIToken.RightCurly
  | CLIToken.Comma => true
  | _ => false
  end.

(** The token in the lookahead, when there is one, spans a range of
    offsets that is not reversed and lies before the stream position. *)
Definition lookahead_in_range (s : CLIParser) : Prop :=
  forall t, peeked_token_ s = Some t ->
    0 <= CLIToken.begin t <= CLIToken.end_ t /\ CLIToken.end_ t <= sp s.

(* ================================================================= *)
(** * Properties *)

Lemma Type_eqb_eq (a b : CLIToken.Type') :
  CLIToken.Type_eqb a b = true <-> a = b.
Proof.
  split.
  - destruct a, b; simpl; congruence.
  - intros ->; destruct b; reflexivity.
Qed.

(** ** Outcomes *)

Lemma wp_bind {A B} (m : M A) (k : A -> M B) s Q E :
  wp (m s) (fun a s' => wp (k a s') Q E) E -> wp (bind m k s) Q E.
Proof. unfold bind, wp; destruct (m s); auto. Qed.

Lemma wp_mono {A} (o : outcome A) (Q Q' : A -> CLIParser -> Prop) (E E' : exn -> CLIParser -> Prop) :
  wp o Q E ->
  (forall a s, Q a s -> Q' a s) ->
  (forall e s, E e s -> E' e s) ->
  wp o Q' E'.
Proof. unfold wp; destruct o; auto. Qed.

Lemma wp_ret {A} (a : A) s (Q : A -> CLIParser -> Prop) E :
  Q a s -> wp (ret a s) Q E.
Proof. auto. Qed.

Lemma bind_Ok {A B} (m : M A) (k : A -> M B) s a s' :
  m s = Ok a s' -> bind m k s = k a s'.
Proof. unfold bind; intros ->; reflexivity. Qed.

Lemma bind_OutOfFuel {A B} (m : M A) (k : A -> M B) s :
  m s = OutOfFuel -> bind m k s = OutOfFuel.
Proof. unfold bind; intros ->; reflexivity. Qed.

(** ** Strings *)

Lemma append_nil_r (s : string) : s ++ "" = s.
Proof. induction s; simpl; congruence. Qed.

Lemma append_assoc (a b c : string) : (a ++ b) ++ c = a ++ (b ++ c).
Proof. induction a; simpl; congruence. Qed.

Lemma length_string_of_list_ascii (l : list ascii) :
  String.length (string_of_list_ascii l) = List.length l.
Proof. induction l; simpl; congruence. Qed.

Lemma push_char_app (v : string) (c : ascii) (l : list ascii) :
  push_char v c ++ string_of_list_ascii l = v ++ string_of_list_ascii (c :: l).
Proof. unfold push_char; rewrite append_assoc; reflexivity. Qed.

(** ** The stream seen from the lexer *)

Lemma get_cons s c cs :
  visible s = c :: cs ->
  get s = Ok (Some c) (step s c) /\ visible (step s c) = cs.
Proof.
  unfold visible, get, Hook.get, Std.get, step.
  destruct s as [[[b a f] p cc po ln cl] pk]; simpl.
  destruct f; [discriminate|]. intros ->; simpl. auto.
Qed.

Lemma get_nil s :
  visible s = [] ->
  get s = Ok None (at_eof s) /\ visible (at_eof s) = [].
Proof.
  unfold visible, get, Hook.get, Std.get, at_eof.
  destruct s as [[[b a f] p cc po ln cl] pk]; simpl.
  destruct f; simpl; [auto|]. intros ->; simpl. auto.
Qed.

Lemma peek_visible s : peek s = Ok (hd EOF_char (visible s)) s.
Proof.
  unfold peek, Hook.peek, Std.peek, visible.
  destruct (failed _); [reflexivity|]. destruct (ahead _); reflexivity.
Qed.

Lemma unget_step s c cs :
  visible s = c :: cs -> unget (step s c) = Ok tt s.
Proof.
  unfold visible, unget, Hook.unget, Std.unget, step.
  destruct s as [[[b a f] p cc po ln cl] pk]; simpl.
  destruct f; [discriminate|]. intros ->; simpl.
  destruct (cc ++ [c])%list eqn:Hcc; [destruct cc; discriminate|].
  rewrite <- Hcc, removelast_last, last_last.
  replace (p + 1 - 1) with p by lia.
  destruct (Ascii.eqb c LF); [replace (cl + 1 - 1) with cl by lia|]; reflexivity.
Qed.

Lemma visible_consume s cs rest :
  visible s = (cs ++ rest)%list -> visible (consume s cs) = rest.
Proof.
  revert s; induction cs as [|c cs IH]; simpl; intros s H; [exact H|].
  apply IH. apply (get_cons s c (cs ++ rest)%list H).
Qed.

Lemma sp_consume s cs : sp (consume s cs) = sp s + Z.of_nat (List.length cs).
Proof.
  revert s; induction cs as [|c cs IH]; simpl; intros s; [unfold sp; lia|].
  rewrite IH. unfold sp, step; simpl. lia.
Qed.

Lemma peeked_consume s cs : peeked_token_ (consume s cs) = peeked_token_ s.
Proof.
  revert s; induction cs as [|c cs IH]; simpl; intros s; [reflexivity|].
  rewrite IH. reflexivity.
Qed.

Lemma buffer_consume s cs : buffer (consume s cs) = (buffer s ++ cs)%list.
Proof.
  revert s; induction cs as [|c cs IH]; simpl; intros s.
  - rewrite app_nil_r; reflexivity.
  - rewrite IH. unfold buffer, step; simpl. rewrite <- app_assoc. reflexivity.
Qed.

Lemma cp_consume s cs : cp (consume s cs) = cp s.
Proof.
  revert s; induction cs as [|c cs IH]; simpl; intros s; [reflexivity|].
  rewrite IH. reflexivity.
Qed.

(** ** The lexer's loops on the characters ahead *)

Lemma take_drop_while p l : l = (take_while p l ++ drop_while p l)%list.
Proof. induction l as [|c r IH]; simpl; [reflexivity|]. destruct (p c); simpl; congruence. Qed.

Lemma isNumberChar_not_NUL c : isNumberChar c = true -> Ascii.eqb c NUL = false.
Proof.
  destruct c as [b0 b1 b2 b3 b4 b5 b6 b7].
  destruct b0, b1, b2, b3, b4, b5, b6, b7; intros H; try reflexivity; discriminate H.
Qed.

Lemma isIdentifierStart_char c : isIdentifierStart c = true -> isIdentifierChar c = true.
Proof.
  unfold isIdentifierStart, isIdentifierChar.
  destruct (isAlpha c); simpl; [reflexivity|]. intros ->. apply orb_true_r.
Qed.

Lemma isNumberStart_char c : isNumberStart c = true -> isNumberChar c = true.
Proof.
  unfold isNumberStart, isNumberChar.
  destruct (isDigit c), (isAlpha c), (Ascii.eqb c "_"), (Ascii.eqb c "-"),
    (Ascii.eqb c "+"), (Ascii.eqb c "."); simpl; auto.
Qed.

(** [readNumber]'s loop reads exactly the number characters in front. *)
Lemma readNumber_loop_reads (fuel : nat) : forall s value end_,
  (List.length (take_while isNumberChar (visible s)) < fuel)%nat ->
  readNumber_loop fuel value end_ s =
    Ok (value ++ string_of_list_ascii (take_while isNumberChar (visible s)),
        end_ + Z.of_nat (List.length (take_while isNumberChar (visible s))))
       (consume s (take_while isNumberChar (visible s))).
Proof.
  induction fuel as [|fuel IH]; intros s value end_ Hlen; [lia|].
  simpl. rewrite (bind_Ok _ _ _ _ _ (peek_visible s)).
  destruct (visible s) as [|c cs] eqn:Hv; simpl.
  - rewrite append_nil_r, Z.add_0_r. reflexivity.
  - simpl in Hlen. destruct (isNumberChar c) eqn:Hc.
    + rewrite (isNumberChar_not_NUL c Hc).
      destruct (get_cons s c cs Hv) as [Hg Hv'].
      rewrite (bind_Ok _ _ _ _ _ Hg). simpl in *.
      rewrite IH by (rewrite Hv'; lia). rewrite Hv'.
      rewrite push_char_app. simpl.
      do 2 f_equal. lia.
    + destruct (Ascii.eqb c NUL); simpl; rewrite append_nil_r, Z.add_0_r; reflexivity.
Qed.

(** [readIdentifier]'s loop reads exactly the identifier characters in
    front. *)
Lemma readIdentifier_loop_reads (fuel : nat) : forall s value end_,
  (List.length (take_while isIdentifierChar (visible s)) < fuel)%nat ->
  readIdentifier_loop fuel value end_ s =
    Ok (value ++ string_of_list_ascii (take_while isIdentifierChar (visible s)),
        end_ + Z.of_nat (List.length (take_while isIdentifierChar (visible s))))
       (consume s (take_while isIdentifierChar (visible s))).
Proof.
  induction fuel as [|fuel IH]; intros s value end_ Hlen; [lia|].
  simpl. rewrite (bind_Ok _ _ _ _ _ (peek_visible s)).
  destruct (visible s) as [|c cs] eqn:Hv; simpl.
  - rewrite append_nil_r, Z.add_0_r. reflexivity.
  - simpl in Hlen. destruct (isIdentifierChar c) eqn:Hc.
    + destruct (get_cons s c cs Hv) as [Hg Hv'].
      rewrite (bind_Ok _ _ _ _ _ Hg). simpl in *.
      rewrite IH by (rewrite Hv'; lia). rewrite Hv'.
      rewrite push_char_app. simpl.
      do 2 f_equal. lia.
    + simpl; rewrite append_nil_r, Z.add_0_r; reflexivity.
Qed.

Lemma readString_loop_reads (fuel : nat) : forall s escape value end_ v n closed,
  scan_string escape (visible s) = (v, n, closed) ->
  (List.length (visible s) < fuel)%nat ->
  readString_loop fuel escape value end_ s =
    Ok (value ++ string_of_list_ascii v, end_ + Z.of_nat n)
       (after_string s (visible s) n closed).
Proof.
  induction fuel as [|fuel IH]; intros s escape value end_ v n closed Hscan Hlen; [lia|].
  simpl. destruct (visible s) as [|c cs] eqn:Hv.
  - destruct (get_nil s Hv) as [Hg _]. rewrite (bind_Ok _ _ _ _ _ Hg).
    simpl in Hscan. injection Hscan as <- <- <-.
    unfold after_string; simpl. rewrite append_nil_r, Z.add_0_r. reflexivity.
  - destruct (get_cons s c cs Hv) as [Hg Hv'].
    rewrite (bind_Ok _ _ _ _ _ Hg). simpl in Hlen, Hscan.
    assert (Hlen' : (List.length (visible (step s c)) < fuel)%nat) by (rewrite Hv'; lia).
    assert (Hafter : forall n' closed',
               after_string (step s c) (visible (step s c)) n' closed'
               = after_string s (c :: cs) (S n') closed').
    { intros n' closed'. rewrite Hv'. unfold after_string; destruct closed'; reflexivity. }
    destruct escape.
    + destruct (Ascii.eqb c CR).
      * destruct (scan_string true cs) as [[v' n'] closed'] eqn:Hs.
        injection Hscan as <- <- <-.
        rewrite (IH _ _ _ _ v' n' closed') by first [exact Hlen' | rewrite Hv'; exact Hs].
        rewrite Hafter. replace (end_ + 1 + Z.of_nat n') with (end_ + Z.of_nat (S n')) by lia. reflexivity.
      * destruct (Ascii.eqb c LF).
        -- destruct (scan_string false cs) as [[v' n'] closed'] eqn:Hs.
           injection Hscan as <- <- <-.
           rewrite (IH _ _ _ _ v' n' closed') by first [exact Hlen' | rewrite Hv'; exact Hs].
           rewrite Hafter. replace (end_ + 1 + Z.of_nat n') with (end_ + Z.of_nat (S n')) by lia. reflexivity.
        -- destruct (scan_string false cs) as [[v' n'] closed'] eqn:Hs.
           injection Hscan as <- <- <-.
           rewrite (IH _ _ _ _ v' n' closed') by first [exact Hlen' | rewrite Hv'; exact Hs].
           rewrite Hafter, push_char_app. replace (end_ + 1 + Z.of_nat n') with (end_ + Z.of_nat (S n')) by lia. reflexivity.
    + destruct (Ascii.eqb c BACKSLASH).
      * destruct (scan_string true cs) as [[v' n'] closed'] eqn:Hs.
        injection Hscan as <- <- <-.
        rewrite (IH _ _ _ _ v' n' closed') by first [exact Hlen' | rewrite Hv'; exact Hs].
        rewrite Hafter. replace (end_ + 1 + Z.of_nat n') with (end_ + Z.of_nat (S n')) by lia. reflexivity.
      * destruct (Ascii.eqb c DQUOTE).
        -- injection Hscan as <- <- <-. unfold after_string; simpl.
           rewrite append_nil_r. reflexivity.
        -- destruct (scan_string false cs) as [[v' n'] closed'] eqn:Hs.
           injection Hscan as <- <- <-.
           rewrite (IH _ _ _ _ v' n' closed') by first [exact Hlen' | rewrite Hv'; exact Hs].
           rewrite Hafter, push_char_app. replace (end_ + 1 + Z.of_nat n') with (end_ + Z.of_nat (S n')) by lia. reflexivity.
Qed.

(** [readComment]'s loop never ends once no line feed is left to read:
    at end of input [peek] keeps answering [EOF_char] and the failing [get]
    leaves [c] as it was, so the loop appends it for ever. *)
Lemma readComment_loop_diverges (fuel : nat) : forall s value end_,
  ~ In LF (visible s) ->
  readComment_loop fuel value end_ s = OutOfFuel.
Proof.
  induction fuel as [|fuel IH]; intros s value end_ Hno; [reflexivity|].
  simpl. rewrite (bind_Ok _ _ _ _ _ (peek_visible s)).
  destruct (visible s) as [|c cs] eqn:Hv; simpl.
  - destruct (get_nil s Hv) as [Hg Hv']. rewrite (bind_Ok _ _ _ _ _ Hg).
    apply IH. rewrite Hv'. auto.
  - destruct (Ascii.eqb c LF) eqn:Hc.
    + apply Ascii.eqb_eq in Hc. subst c. exfalso. apply Hno. left; reflexivity.
    + destruct (get_cons s c cs Hv) as [Hg Hv']. rewrite (bind_Ok _ _ _ _ _ Hg).
      apply IH. rewrite Hv'. intros Hin. apply Hno. right; exact Hin.
Qed.

(** With a line feed ahead it stops in front of it. *)
Lemma readComment_loop_reads (fuel : nat) : forall s value end_ cs rest,
  visible s = (cs ++ LF :: rest)%list ->
  ~ In LF cs ->
  (List.length cs < fuel)%nat ->
  readComment_loop fuel value end_ s =
    Ok (value ++ string_of_list_ascii cs, end_ + Z.of_nat (List.length cs))
       (consume s cs).
Proof.
  induction fuel as [|fuel IH]; intros s value end_ cs rest Hv Hno Hlen; [lia|].
  simpl. rewrite (bind_Ok _ _ _ _ _ (peek_visible s)). rewrite Hv.
  destruct cs as [|c cs]; simpl.
  - rewrite append_nil_r, Z.add_0_r. reflexivity.
  - destruct (Ascii.eqb c LF) eqn:Hc.
    + apply Ascii.eqb_eq in Hc. subst c. exfalso. apply Hno. left; reflexivity.
    + destruct (get_cons s c _ Hv) as [Hg Hv']. rewrite (bind_Ok _ _ _ _ _ Hg).
      simpl in Hlen.
      rewrite (IH _ _ _ cs rest Hv') by (try lia; intros Hin; apply Hno; right; exact Hin).
      simpl. rewrite push_char_app. do 2 f_equal. lia.
Qed.

(** ** Dispatch on the first character *)

Lemma isNumberStart_dispatch c :
  isNumberStart c = true ->
  isIdentifierStart c = false /\ Ascii.eqb c DQUOTE = false.
Proof.
  destruct c as [b0 b1 b2 b3 b4 b5 b6 b7].
  destruct b0, b1, b2, b3, b4, b5, b6, b7; intros H; try discriminate H; split; reflexivity.
Qed.

Lemma tellg_eq s : tellg s = Ok (sp s) s.
Proof. reflexivity. Qed.

Lemma tellg_step s c : tellg (step s c) = Ok (sp s + 1) (step s c).
Proof. reflexivity. Qed.

Lemma readNextToken_number fuel s c cs :
  visible s = c :: cs -> isNumberStart c = true ->
  readNextToken (S fuel) s = readNumber fuel s.
Proof.
  intros Hv Hc. simpl.
  destruct (get_cons s c cs Hv) as [Hg _].
  rewrite (bind_Ok _ _ _ _ _ Hg), (bind_Ok _ _ _ _ _ (tellg_step s c)).
  destruct (isNumberStart_dispatch c Hc) as [-> ->]. rewrite Hc.
  rewrite (bind_Ok _ _ _ _ _ (unget_step s c cs Hv)). reflexivity.
Qed.

Lemma readNextToken_string fuel s cs :
  visible s = DQUOTE :: cs ->
  readNextToken (S fuel) s = readString fuel (step s DQUOTE).
Proof.
  intros Hv. simpl.
  destruct (get_cons s _ cs Hv) as [Hg _].
  rewrite (bind_Ok _ _ _ _ _ Hg), (bind_Ok _ _ _ _ _ (tellg_step s _)).
  reflexivity.
Qed.

Lemma readNextToken_comment fuel s cs :
  visible s = "#"%char :: cs ->
  readNextToken (S fuel) s = readComment fuel s.
Proof.
  intros Hv. simpl.
  destruct (get_cons s _ cs Hv) as [Hg _].
  rewrite (bind_Ok _ _ _ _ _ Hg), (bind_Ok _ _ _ _ _ (tellg_step s _)).
  simpl. rewrite (bind_Ok _ _ _ _ _ (unget_step s _ cs Hv)). reflexivity.
Qed.

Lemma nextToken_fresh lf s :
  peeked_token_ s = None -> nextToken lf s = readNextToken lf s.
Proof. unfold nextToken; intros ->; reflexivity. Qed.

Lemma scan_string_open escape cs v n :
  scan_string escape cs = (v, n, false) -> n = List.length cs.
Proof.
  revert escape v n; induction cs as [|c r IH]; simpl; intros escape v n H.
  - congruence.
  - destruct escape;
      repeat match type of H with
             | (if ?b then _ else _) = _ => destruct b
             | context [scan_string ?e r] =>
                 let E := fresh "E" in
                 destruct (scan_string e r) as [[? ?] ?] eqn:E
             end;
      try discriminate H;
      injection H as <- <- ->; f_equal; eapply IH; eassumption.
Qed.

Lemma scan_string_closed escape cs v n :
  scan_string escape cs = (v, n, true) ->
  (1 <= n <= List.length cs)%nat /\ nth_error cs (n - 1) = Some DQUOTE.
Proof.
  revert escape v n; induction cs as [|c r IH]; simpl; intros escape v n H.
  - congruence.
  - destruct escape;
      repeat match type of H with
             | (if ?b then _ else _) = _ =>
                 let E := fresh "B" in destruct b eqn:E
             | context [scan_string ?e r] =>
                 let E := fresh "E" in
                 destruct (scan_string e r) as [[? ?] ?] eqn:E
             end;
      inversion H; subst; clear H;
      try (match goal with
           | E : scan_string _ r = _ |- _ =>
               destruct (IH _ _ _ E) as [[? ?] ?]
           end;
           split; [lia|];
           match goal with
           | |- nth_error _ (S ?k - 1) = _ =>
               replace (S k - 1)%nat with (S (k - 1)) by lia; simpl; assumption
           end).
    split; [simpl; lia|]. simpl. apply Ascii.eqb_eq in B0. congruence.
Qed.

(** ** Comments *)

Lemma comment_before_newline lf s cs rest :
  peeked_token_ s = None ->
  visible s = ("#"%char :: cs ++ LF :: rest)%list ->
  ~ In LF cs ->
  (List.length cs + 2 < lf)%nat ->
  nextToken lf s =
    Ok (CLIToken.mk CLIToken.Comment (string_of_list_ascii ("#"%char :: cs))
                    (sp s) (sp s + 1 + Z.of_nat (List.length cs)))
       (consume s ("#"%char :: cs)).
Proof.
  intros Hp Hv Hno Hlen. rewrite (nextToken_fresh _ _ Hp).
  destruct lf as [|fuel]; [lia|].
  rewrite (readNextToken_comment fuel s _ Hv). unfold readComment.
  assert (Hhash : ~ In LF ("#"%char :: cs)).
  { intros [H|H]; [discriminate H | exact (Hno H)]. }
  rewrite (bind_Ok _ _ _ _ _ (tellg_eq s)).
  rewrite (bind_Ok _ _ _ _ _
             (readComment_loop_reads fuel s "" (sp s) ("#"%char :: cs) rest Hv Hhash
                ltac:(simpl; lia))).
  simpl. unfold ret. do 2 f_equal. lia.
Qed.

Lemma comment_at_end_of_input lf s cs :
  peeked_token_ s = None ->
  visible s = "#"%char :: cs ->
  ~ In LF cs ->
  nextToken lf s = OutOfFuel.
Proof.
  intros Hp Hv Hno. rewrite (nextToken_fresh _ _ Hp).
  destruct lf as [|fuel]; [reflexivity|].
  rewrite (readNextToken_comment fuel s _ Hv). unfold readComment.
  rewrite (bind_Ok _ _ _ _ _ (tellg_eq s)).
  apply bind_OutOfFuel. apply readComment_loop_diverges.
  rewrite Hv. intros [H|H]; [discriminate H | exact (Hno H)].
Qed.

(** C4 (the code departs from the claim).  A comment that runs to the end
    of the input with no line feed after it is never returned as a token:
    whatever fuel the lexer is given, reading ["#x"] uses it up, because
    [readComment] has no end-of-input test. *)
Theorem comment_without_newline_never_returns :
  forall lf, nextToken lf (parser_on "#x") = OutOfFuel.
Proof.
  intros lf. apply (comment_at_end_of_input lf _ ["x"%char]).
  - reflexivity.
  - reflexivity.
  - intros [H|[]]. discriminate H.
Qed.

(** ** Numbers *)

Lemma back_push body c : back (body ++ String c "") = Some c.
Proof.
  induction body as [|a r IH]; [reflexivity|].
  simpl. rewrite IH. destruct (r ++ String c "") eqn:E; [|reflexivity].
  destruct r; discriminate E.
Qed.

Lemma pop_back_push body c : pop_back (body ++ String c "") = body.
Proof.
  induction body as [|a r IH]; [reflexivity|].
  simpl. rewrite IH. destruct (r ++ String c "") eqn:E; [|reflexivity].
  destruct r; discriminate E.
Qed.

Lemma back_pop_back s c : back s = Some c -> s = pop_back s ++ String c "".
Proof.
  induction s as [|a r IH]; [discriminate|].
  simpl. destruct r as [|b r'].
  - intros H; injection H as <-. reflexivity.
  - intros H. simpl. f_equal. exact (IH H).
Qed.

(** A text ends in the suffix exactly when [has_suffix] says so, and
    the candidate is then what stands before it. *)
Lemma has_suffix_push body c :
  c = "f"%char \/ c = "F"%char ->
  has_suffix (body ++ String c "") = true
  /\ candidate (body ++ String c "") = body.
Proof.
  intros Hc. unfold candidate, has_suffix. rewrite back_push.
  destruct Hc as [-> | ->]; simpl; rewrite pop_back_push; auto.
Qed.

Lemma has_suffix_none text :
  (forall body, text <> body ++ "f" /\ text <> body ++ "F") ->
  has_suffix text = false /\ candidate text = text.
Proof.
  intros H. unfold candidate.
  assert (E : has_suffix text = false).
  { unfold has_suffix. destruct (back text) as [c|] eqn:Hb; [|reflexivity].
    pose proof (back_pop_back text c Hb) as Ht.
    destruct (Ascii.eqb c "f") eqn:Ef.
    - apply Ascii.eqb_eq in Ef. subst c.
      exfalso. exact (proj1 (H (pop_back text)) Ht).
    - destruct (Ascii.eqb c "F") eqn:EF; [|reflexivity].
      apply Ascii.eqb_eq in EF. subst c.
      exfalso. exact (proj2 (H (pop_back text)) Ht). }
  rewrite E. auto.
Qed.

Lemma classifyNumber_span value begin end_ :
  CLIToken.begin (classifyNumber value begin end_) = begin
  /\ CLIToken.end_ (classifyNumber value begin end_) = end_.
Proof.
  unfold classifyNumber.
  destruct (StdNum.extract_int64 _); [destruct (has_suffix value)|
    destruct (StdNum.extract_float _)]; auto.
Qed.

(** C6.  A lexeme that starts with a digit, a sign or a point is read up
    to the first character that is not a digit, a letter, an underscore, a
    point or a sign.  When the text read ends in f or F, that suffix is
    taken off and what stands before it decides: a whole integer makes the
    token Unknown with the raw text (the suffix is only legal on floats),
    otherwise a whole floating literal makes it a Float carrying the value
    printed back, otherwise it is Unknown with the raw text.  When the text
    does not end in f or F, the text itself decides: a whole integer makes
    the token an Integer carrying the integer printed back in canonical
    form, otherwise a whole floating literal makes it a Float carrying the
    value printed back, otherwise it is Unknown with the raw text. *)
Theorem number_classification lf s c cs :
  peeked_token_ s = None ->
  visible s = c :: cs ->
  isNumberStart c = true ->
  (List.length (take_while isNumberChar (c :: cs)) + 1 < lf)%nat ->
  let lexeme := take_while isNumberChar (c :: cs) in
  let text := string_of_list_ascii lexeme in
  exists token,
    nextToken lf s = Ok token (consume s lexeme)
    /\ CLIToken.begin token = sp s
    /\ CLIToken.end_ token = sp s + Z.of_nat (List.length lexeme)
    /\ (forall stripped,
           text = stripped ++ "f" \/ text = stripped ++ "F" ->
           match StdNum.extract_int64 stripped with
           | Some _ =>
               CLIToken.type token = CLIToken.Unknown
               /\ CLIToken.value token = text
           | None =>
               match StdNum.extract_float stripped with
               | Some f =>
                   CLIToken.type token = CLIToken.Float
                   /\ CLIToken.value token = StdNum.to_string_float f
               | None =>
                   CLIToken.type token = CLIToken.Unknown
                   /\ CLIToken.value token = text
               end
           end)
    /\ ((forall stripped, text <> stripped ++ "f" /\ text <> stripped ++ "F") ->
        match StdNum.extract_int64 text with
        | Some i =>
            CLIToken.type token = CLIToken.Integer
            /\ CLIToken.value token = StdNum.to_string_int64 i
        | None =>
            match StdNum.extract_float text with
            | Some f =>
                CLIToken.type token = CLIToken.Float
                /\ CLIToken.value token = StdNum.to_string_float f
            | None =>
                CLIToken.type token = CLIToken.Unknown
                /\ CLIToken.value token = text
            end
        end).
Proof.
  intros Hp Hv Hc Hlen lexeme text.
  rewrite (nextToken_fresh _ _ Hp).
  destruct lf as [|fuel]; [lia|].
  rewrite (readNextToken_number fuel s c cs Hv Hc). unfold readNumber.
  rewrite (bind_Ok _ _ _ _ _ (tellg_eq s)).
  rewrite (bind_Ok _ _ _ _ _
             (readNumber_loop_reads fuel s "" (sp s) ltac:(rewrite Hv; lia))).
  rewrite Hv. fold lexeme. simpl fst; simpl snd.
  change ("" ++ string_of_list_ascii lexeme) with text.
  exists (classifyNumber text (sp s) (sp s + Z.of_nat (List.length lexeme))).
  split; [reflexivity|].
  split; [apply classifyNumber_span|]. split; [apply classifyNumber_span|].
  split.
  - intros stripped Hsuffix.
    assert (Hs : has_suffix text = true /\ candidate text = stripped).
    { destruct Hsuffix as [E|E]; rewrite E; apply has_suffix_push; auto. }
    destruct Hs as [Hs Hcand]. unfold classifyNumber. rewrite Hcand, Hs.
    destruct (StdNum.extract_int64 stripped) as [i|];
      [|destruct (StdNum.extract_float stripped) as [f|]]; simpl; auto.
  - intros Hnone. destruct (has_suffix_none text Hnone) as [Hs Hcand].
    unfold classifyNumber. rewrite Hcand, Hs.
    destruct (StdNum.extract_int64 text) as [i|];
      [|destruct (StdNum.extract_float text) as [f|]]; simpl; auto.
Qed.

Lemma number_classification_witness :
  (exists token,
      nextToken 8 (parser_on "2.5f x")
      = Ok token (consume (parser_on "2.5f x") (list_ascii_of_string "2.5f"))
      /\ CLIToken.type token = CLIToken.Float
      /\ CLIToken.value token = "2.500000")
  /\ (exists token,
        nextToken 8 (parser_on "12F")
        = Ok token (consume (parser_on "12F") (list_ascii_of_string "12F"))
        /\ CLIToken.type token = CLIToken.Unknown
        /\ CLIToken.value token = "12F")
  /\ (exists token,
        nextToken 8 (parser_on "+007,")
        = Ok token (consume (parser_on "+007,") (list_ascii_of_string "+007"))
        /\ CLIToken.type token = CLIToken.Integer
        /\ CLIToken.value token = "7").
Proof.
  split; [|split].
  - destruct (number_classification 8 (parser_on "2.5f x") "2"%char
                (list_ascii_of_string ".5f x")) as (token & Hn & _ & _ & Hk & _).
    + reflexivity.
    + reflexivity.
    + reflexivity.
    + simpl. lia.
    + exists token. split; [exact Hn|].
      exact (Hk "2.5" (or_introl eq_refl)).
  - destruct (number_classification 8 (parser_on "12F") "1"%char
                (list_ascii_of_string "2F")) as (token & Hn & _ & _ & Hk & _).
    + reflexivity.
    + reflexivity.
    + reflexivity.
    + simpl. lia.
    + exists token. split; [exact Hn|].
      exact (Hk "12" (or_intror eq_refl)).
  - destruct (number_classification 8 (parser_on "+007,") "+"%char
                (list_ascii_of_string "007,")) as (token & Hn & _ & _ & _ & Hk).
    + reflexivity.
    + reflexivity.
    + reflexivity.
    + simpl. lia.
    + exists token. split; [exact Hn|].
      apply Hk. intros stripped.
      split; intros E; apply (f_equal back) in E; rewrite back_push in E;
        discriminate E.
Defined.

Example number_tokens :
  List.map (fun text =>
              match nextToken 16 (parser_on text) with
              | Ok token _ => Some (CLIToken.type token, CLIToken.value token)
              | _ => None
              end)
           ["42"; "007"; "+5"; "-12"; "1f"; "2.5"; "2.5f"; "1e3"; ".5"; "5."; "1e"; "-"; "1.2.3"; "12ab"]
  = [Some (CLIToken.Integer, "42"); Some (CLIToken.Integer, "7");
     Some (CLIToken.Integer, "5"); Some (CLIToken.Integer, "-12");
     Some (CLIToken.Unknown, "1f"); Some (CLIToken.Float, "2.500000");
     Some (CLIToken.Float, "2.500000"); Some (CLIToken.Float, "1000.000000");
     Some (CLIToken.Float, "0.500000"); Some (CLIToken.Float, "5.000000");
     Some (CLIToken.Unknown, "1e"); Some (CLIToken.Unknown, "-");
     Some (CLIToken.Unknown, "1.2.3"); Some (CLIToken.Unknown, "12ab")].
Proof. vm_compute. reflexivity. Qed.

(** ** Strings *)

Lemma readString_reads fuel s cs v n closed :
  visible s = DQUOTE :: cs ->
  scan_string false cs = (v, n, closed) ->
  (List.length cs < fuel)%nat ->
  readNextToken (S fuel) s =
    Ok (CLIToken.mk CLIToken.String (string_of_list_ascii v)
                    (sp s) (sp s + 1 + Z.of_nat n))
       (after_string (step s DQUOTE) cs n closed).
Proof.
  intros Hv Hscan Hlen.
  rewrite (readNextToken_string fuel s cs Hv). unfold readString.
  destruct (get_cons s _ cs Hv) as [_ Hv'].
  rewrite (bind_Ok _ _ _ _ _ (tellg_step s DQUOTE)).
  rewrite <- Hv' in Hscan, Hlen.
  rewrite (bind_Ok _ _ _ _ _
             (readString_loop_reads fuel (step s DQUOTE) false "" (sp s + 1)
                v n closed Hscan Hlen)).
  rewrite Hv'. simpl. unfold ret. do 2 f_equal. lia.
Qed.

Lemma parser_eta s :
  peeked_token_ s = None -> mkParser (stream_hook_ s) None = s.
Proof. destruct s; simpl; intros ->; reflexivity. Qed.

(** C7, as amended.  A string literal is read up to the first double quote
    that is not escaped.  A backslash escapes what follows it: carriage
    returns after it contribute nothing and leave the escape pending, a
    line feed then contributes nothing (so backslash-newline, with or
    without a carriage return, is a line continuation) and any other
    character contributes itself.  The token begins at the opening quote
    and ends one past the closing quote.  The literal [hello] has the value
    [hello]; [a], backslash, line feed, [b] has the value [ab]. *)
Theorem string_literal_token :
  (forall lf s cs v n,
      peeked_token_ s = None ->
      visible s = DQUOTE :: cs ->
      scan_string false cs = (v, n, true) ->
      (List.length cs + 1 < lf)%nat ->
      nextToken lf s =
        Ok (CLIToken.mk CLIToken.String (string_of_list_ascii v)
                        (sp s) (sp s + 1 + Z.of_nat n))
           (consume s (DQUOTE :: firstn n cs))
      /\ nth_error (DQUOTE :: cs) n = Some DQUOTE)
  /\ (exists s',
        nextToken 16 (parser_on (quote "hello")) =
          Ok (CLIToken.mk CLIToken.String "hello" 0 7) s')
  /\ (exists s',
        nextToken 16 (parser_on (quote ("a\" ++ String LF "b"))) =
          Ok (CLIToken.mk CLIToken.String "ab" 0 6) s').
Proof.
  split; [|split].
  - intros lf s cs v n Hp Hv Hscan Hlen. split.
    + rewrite (nextToken_fresh _ _ Hp).
      destruct lf as [|fuel]; [lia|].
      rewrite (readString_reads fuel s cs v n true Hv Hscan) by lia.
      reflexivity.
    + destruct (scan_string_closed _ _ _ _ Hscan) as [Hn Hq].
      destruct n as [|k]; [lia|]. simpl.
      replace (S k - 1)%nat with k in Hq by lia. exact Hq.
  - eexists. vm_compute. reflexivity.
  - eexists. vm_compute. reflexivity.
Qed.

Lemma string_literal_token_witness :
  nextToken 16 (parser_on (quote "a\\b c")) =
    Ok (CLIToken.mk CLIToken.String "a\b c" 0 8)
       (consume (parser_on (quote "a\\b c")) (list_ascii_of_string (quote "a\\b c"))).
Proof.
  refine (proj1 (proj1 string_literal_token 16%nat (parser_on (quote "a\\b c"))
                  (list_ascii_of_string ("a\\b c" ++ String DQUOTE ""))
                  (list_ascii_of_string "a\b c") 7%nat _ _ _ _)).
  - reflexivity.
  - reflexivity.
  - reflexivity.
  - simpl. lia.
Defined.

(** C7, as stated, fails.  If a backslash escaped one character only, the
    literal [a], backslash, carriage return, line feed, [b] would keep the
    line feed; the lexer drops it, because the escape outlives the carriage
    return. *)
Lemma escape_outlives_carriage_return :
  let body := ["a"%char; BACKSLASH; CR; LF; "b"%char] in
  exists token s',
    nextToken 16 (parser_on (quote (string_of_list_ascii body))) = Ok token s'
    /\ CLIToken.value token = "ab"
    /\ fst (fst (one_character_escapes false (body ++ [DQUOTE])))
       = ["a"%char; LF; "b"%char]
    /\ CLIToken.value token
       <> string_of_list_ascii
            (fst (fst (one_character_escapes false (body ++ [DQUOTE])))).
Proof.
  eexists. eexists. split; [vm_compute; reflexivity|].
  split; [reflexivity|]. split; [reflexivity|]. discriminate.
Qed.

(** C10.  A string literal that the input ends in, with no closing quote,
    is returned as a String token all the same, with the value read so far
    and without an error, and [parseArgument] takes it as an ordinary
    String argument. *)
Theorem unterminated_string_accepted :
  (forall lf fuel s cs v n,
      peeked_token_ s = None ->
      visible s = DQUOTE :: cs ->
      scan_string false cs = (v, n, false) ->
      (List.length cs + 1 < lf)%nat ->
      nextToken lf s =
        Ok (CLIToken.mk CLIToken.String (string_of_list_ascii v)
                        (sp s) (sp s + 1 + Z.of_nat (List.length cs)))
           (at_eof (consume s (DQUOTE :: cs)))
      /\ parseArgument lf fuel s =
           Ok (Argument.mk Argument.String
                 (Argument.StringData (string_of_list_ascii v)))
              (at_eof (consume s (DQUOTE :: cs))))
  /\ (exists s',
        parseCommand 16 16 (parser_on ("cmd " ++ String DQUOTE "abc")) =
          Ok (mkCommand "cmd"
                [Argument.mk Argument.String (Argument.StringData "abc")]) s').
Proof.
  split.
  - intros lf fuel s cs v n Hp Hv Hscan Hlen.
    destruct lf as [|lf']; [lia|].
    pose proof (readString_reads lf' s cs v n false Hv Hscan ltac:(lia)) as Hr.
    rewrite (scan_string_open _ _ _ _ Hscan) in Hr.
    unfold after_string in Hr. change (consume (step s DQUOTE) cs)
      with (consume s (DQUOTE :: cs)) in Hr.
    split.
    + rewrite (nextToken_fresh _ _ Hp). exact Hr.
    + unfold parseArgument, bind, peekToken. rewrite Hp, Hr. simpl.
      unfold nextToken, ret. simpl. f_equal.
      apply (parser_eta (at_eof (consume s (DQUOTE :: cs)))).
      simpl. rewrite peeked_consume. exact Hp.
  - eexists. vm_compute. reflexivity.
Qed.

Lemma unterminated_string_accepted_witness :
  parseArgument 8 8 (parser_on (String DQUOTE "ab\")) =
    Ok (Argument.mk Argument.String (Argument.StringData "ab"))
       (at_eof (consume (parser_on (String DQUOTE "ab\"))
                        (list_ascii_of_string (String DQUOTE "ab\")))).
Proof.
  refine (proj2 (proj1 unterminated_string_accepted 8%nat 8%nat
                  (parser_on (String DQUOTE "ab\"))
                  (list_ascii_of_string "ab\") (list_ascii_of_string "ab") 3%nat
                  _ _ _ _)).
  - reflexivity.
  - reflexivity.
  - reflexivity.
  - simpl. lia.
Defined.

(** ** The one-token lookahead *)

Lemma peekToken_peeked lf s t s1 :
  peekToken lf s = Ok t s1 -> peeked_token_ s1 = Some t.
Proof.
  unfold peekToken. destruct (peeked_token_ s) eqn:Hp.
  - intros H; injection H as <- <-. exact Hp.
  - destruct (readNextToken lf s); intros H; try discriminate H.
    injection H as <- <-. reflexivity.
Qed.

Lemma peekToken_cached lf s t :
  peeked_token_ s = Some t -> peekToken lf s = Ok t s.
Proof. unfold peekToken; intros ->; reflexivity. Qed.

Lemma nextToken_cached lf s t :
  peeked_token_ s = Some t -> nextToken lf s = Ok t (unpeek s).
Proof. unfold nextToken; intros ->; reflexivity. Qed.

Lemma next_after_peek lf s t s1 :
  peekToken lf s = Ok t s1 -> nextToken lf s1 = Ok t (unpeek s1).
Proof. intros H. apply nextToken_cached. exact (peekToken_peeked _ _ _ _ H). Qed.

(** ** The snippet never fails *)

Lemma substr_in_range s pos len :
  0 <= pos <= Report.size s ->
  Report.substr s pos len = Some (substring (Z.to_nat pos) (Z.to_nat len) s).
Proof.
  intros H. unfold Report.substr.
  destruct (pos <? 0) eqn:H1; [apply Z.ltb_lt in H1; lia|].
  destruct (Report.size s <? pos) eqn:H2; [apply Z.ltb_lt in H2; lia|].
  reflexivity.
Qed.

Lemma render_total h hb he :
  0 <= hb <= he -> he <= Report.size (Hook.getConsumedTokens h) ->
  exists text, Report.render h hb he = Some text.
Proof.
  intros H1 H2. unfold Report.render, Report.substr_from.
  rewrite !substr_in_range by lia. eexists; reflexivity.
Qed.

Lemma getSourceSnippetReport_total h begin end_ :
  exists text, Report.getSourceSnippetReport h begin end_ = Some text.
Proof.
  unfold Report.getSourceSnippetReport.
  destruct (Report.highlight_end h end_ <? Report.highlight_begin h begin) eqn:Hlt.
  - eexists; reflexivity.
  - apply Z.ltb_ge in Hlt. apply render_total.
    + unfold Report.highlight_begin in *. lia.
    + unfold Report.highlight_end. lia.
Qed.

Lemma error_is_ParseError r h d :
  exists what, Report.error r h d = ParseError d what.
Proof.
  unfold Report.error. destruct (show_source_ r).
  - destruct (getSourceSnippetReport_total h (CLIToken.begin (offending d))
                (CLIToken.end_ (offending d))) as [text ->].
    eexists; reflexivity.
  - eexists; reflexivity.
Qed.


(** ** Curly blocks *)



(** ** End of input *)

Lemma bind_inv_Ok {A B} (m : M A) (k : A -> M B) s b s' :
  bind m k s = Ok b s' -> exists a s1, m s = Ok a s1 /\ k a s1 = Ok b s'.
Proof.
  unfold bind. destruct (m s) as [a s1| |]; intros H; try discriminate H.
  exists a, s1. auto.
Qed.

Lemma isBlank_cases c :
  isBlank c = true -> c = " "%char \/ c = TAB \/ c = CR \/ c = LF.
Proof.
  unfold isBlank, isSkipped. intros H.
  repeat (apply orb_true_iff in H; destruct H as [H|H]);
    apply Ascii.eqb_eq in H; auto.
Qed.

Lemma readNextToken_blank (fuel : nat) : forall s,
  Forall (fun c => isBlank c = true) (visible s) ->
  (List.length (visible s) < fuel)%nat ->
  (exists s',
      readNextToken fuel s = Ok (CLIToken.mk CLIToken.EndOfFile "" (sp s') (sp s')) s'
      /\ peeked_token_ s' = peeked_token_ s)
  \/ (exists b s',
         readNextToken fuel s = Ok (CLIToken.mk CLIToken.EndOfLine Report.NL b (b + 1)) s'
         /\ peeked_token_ s' = peeked_token_ s
         /\ Forall (fun c => isBlank c = true) (visible s')
         /\ (List.length (visible s') < List.length (visible s))%nat).
Proof.
  induction fuel as [|fuel IH]; intros s Hb Hlen; [lia|].
  destruct (visible s) as [|c cs] eqn:Hv.
  - left. exists (at_eof s). simpl.
    destruct (get_nil s Hv) as [Hg _]. rewrite (bind_Ok _ _ _ _ _ Hg).
    split; reflexivity.
  - destruct (get_cons s c cs Hv) as [Hg Hv'].
    inversion Hb as [|c' cs' Hc Hcs]; subst c' cs'.
    simpl in Hlen.
    assert (Hskip : readNextToken (S fuel) s = readNextToken fuel (step s c)
                    \/ c = LF).
    { destruct (isBlank_cases c Hc) as [->|[->|[->| ->]]]; auto;
        left; simpl; rewrite (bind_Ok _ _ _ _ _ Hg); reflexivity. }
    destruct Hskip as [Hskip| ->].
    + rewrite Hskip.
      destruct (IH (step s c)) as [[s' [Hr Hp]]|[b [s' [Hr [Hp [Hf Hl]]]]]].
      * rewrite Hv'; exact Hcs.
      * rewrite Hv'; lia.
      * left. exists s'. split; [exact Hr|exact Hp].
      * right. exists b, s'. rewrite Hv' in Hl. repeat split; auto.
        simpl. lia.
    + right. exists (sp s), (step s LF). simpl. rewrite (bind_Ok _ _ _ _ _ Hg).
      simpl. rewrite (bind_Ok _ _ _ _ _ (tellg_step s LF)).
      unfold ret. rewrite Hv'. replace (sp s + 1 - 1) with (sp s) by lia.
      repeat split; auto.
Qed.

Lemma peekToken_fresh lf s t s' :
  peeked_token_ s = None ->
  readNextToken lf s = Ok t s' ->
  peekToken lf s = Ok t (mkParser (stream_hook_ s') (Some t)).
Proof. intros Hp Hr. unfold peekToken. rewrite Hp, Hr. reflexivity. Qed.

Lemma parseCommand_loop_exhausted lf (fuel : nat) : forall s command,
  exhausted s ->
  empty (name command) = true ->
  (List.length (visible s) < lf)%nat ->
  (List.length (visible s) < fuel)%nat ->
  exists s', parseCommand_loop lf fuel command s = Ok command s'.
Proof.
  induction fuel as [|fuel IH]; intros s command Hex Hname Hlf Hfuel; [lia|].
  unfold exhausted in Hex. simpl.
  destruct (peeked_token_ s) as [t|] eqn:Hp.
  - rewrite (bind_Ok _ _ _ _ _ (peekToken_cached lf s t Hp)), Hex.
    eexists. reflexivity.
  - destruct (readNextToken_blank lf s Hex Hlf)
      as [[s' [Hr Hp']]|[b [s' [Hr [Hp' [Hf Hl]]]]]].
    + rewrite (bind_Ok _ _ _ _ _ (peekToken_fresh lf s _ s' Hp Hr)). simpl.
      eexists. reflexivity.
    + rewrite (bind_Ok _ _ _ _ _ (peekToken_fresh lf s _ s' Hp Hr)). simpl.
      rewrite Hname.
      unfold bind at 1. simpl. unfold bind at 1. simpl.
      apply IH;
        [ unfold exhausted; simpl; exact Hf
        | exact Hname
        | unfold visible in *; simpl; lia
        | unfold visible in *; simpl; lia ].
Qed.

Lemma finishCommand_name lf fuel command s cmd s' :
  finishCommand lf fuel command s = Ok cmd s' -> name cmd = name command.
Proof.
  unfold finishCommand. intros H.
  apply bind_inv_Ok in H. destruct H as [args [s1 [_ H]]].
  apply bind_inv_Ok in H. destruct H as [u [s2 [_ H]]].
  injection H as <- _. reflexivity.
Qed.

Lemma parseCommand_loop_empty_name lf (fuel : nat) : forall s command cmd s',
  parseCommand_loop lf fuel command s = Ok cmd s' ->
  empty (name cmd) = true ->
  arguments cmd = arguments command
  /\ exists t, peeked_token_ s' = Some t /\ CLIToken.type t = CLIToken.EndOfFile.
Proof.
  induction fuel as [|fuel IH]; intros s command cmd s' H Hempty; [discriminate H|].
  simpl in H. apply bind_inv_Ok in H. destruct H as [t [s1 [Hpeek H]]].
  assert (Hfinish : forall f, empty (name command) = false ->
                              finishCommand lf f command s1 = Ok cmd s' -> False).
  { intros f Hne Hf. apply finishCommand_name in Hf. congruence. }
  destruct (CLIToken.type t) eqn:Ht;
    try solve [ destruct (empty (name command)) eqn:Hname;
                [ apply bind_inv_Ok in H; destruct H as [tok [s2 [_ H]]];
                  discriminate H
                | exfalso; exact (Hfinish _ eq_refl H) ] ].
  - (* Identifier *)
    destruct (empty (name command)) eqn:Hname;
      [|exfalso; exact (Hfinish _ eq_refl H)].
    apply bind_inv_Ok in H; destruct H as [tok [s2 [_ H]]].
    destruct (IH _ _ _ _ H Hempty) as [Ha Hp]. simpl in Ha. auto.
  - (* EndOfLine *)
    destruct (empty (name command)) eqn:Hname;
      [|exfalso; exact (Hfinish _ eq_refl H)].
    apply bind_inv_Ok in H; destruct H as [tok [s2 [_ H]]].
    apply bind_inv_Ok in H. destruct H as [u [s3 [_ H]]].
    exact (IH _ _ _ _ H Hempty).
  - (* Comment *)
    apply bind_inv_Ok in H; destruct H as [tok [s2 [_ H]]].
    exact (IH _ _ _ _ H Hempty).
  - (* EndOfFile *)
    apply bind_inv_Ok in H; destruct H as [u [s2 [Hclear H]]].
    injection Hclear as _ <-. injection H as <- <-.
    split; [reflexivity|]. exists t. split; [|exact Ht].
    simpl. exact (peekToken_peeked _ _ _ _ Hpeek).
  - (* Unknown *)
    apply bind_inv_Ok in H; destruct H as [tok [s2 [_ H]]]. discriminate H.
Qed.

(** C9.  When nothing but blank lines is left to read (or the end of the
    input has already been seen), [parseCommand] returns the command with
    the empty name and no arguments, and raises nothing.  A returned
    command has the empty name only then: it has no arguments and the
    lexer is parked on the end-of-file token. *)
Theorem end_of_input_sentinel :
  (forall lf fuel s,
      exhausted s ->
      (List.length (visible s) < lf)%nat ->
      (List.length (visible s) < fuel)%nat ->
      exists s', parseCommand lf fuel s = Ok (mkCommand "" []) s')
  /\ (forall lf fuel s cmd s',
         parseCommand lf fuel s = Ok cmd s' ->
         name cmd = "" ->
         arguments cmd = []
         /\ exists t, peeked_token_ s' = Some t
                      /\ CLIToken.type t = CLIToken.EndOfFile)
  /\ (exists s', parseCommand 1 1 (parser_on "") = Ok (mkCommand "" []) s').
Proof.
  split; [|split].
  - intros lf fuel s Hex Hlf Hfuel.
    apply parseCommand_loop_exhausted; auto.
  - intros lf fuel s cmd s' H Hname.
    apply (parseCommand_loop_empty_name lf fuel s (mkCommand "" []) cmd s' H).
    rewrite Hname. reflexivity.
  - eexists. vm_compute. reflexivity.
Qed.

Lemma end_of_input_sentinel_witness :
  (exists s',
      parseCommand 8 8 (parser_on (" " ++ Report.NL ++ Report.NL)) =
        Ok (mkCommand "" []) s')
  /\ exists t,
      peeked_token_ (mkParser (Hook.clearConsumedTokens (stream_hook_ (at_eof (parser_on ""))))
                              (Some (CLIToken.mk CLIToken.EndOfFile "" 0 0)))
      = Some t
      /\ CLIToken.type t = CLIToken.EndOfFile.
Proof.
  split.
  - apply (proj1 end_of_input_sentinel 8%nat 8%nat
             (parser_on (" " ++ Report.NL ++ Report.NL))).
    + unfold exhausted. simpl. repeat constructor.
    + simpl. lia.
    + simpl. lia.
  - refine (proj2 (proj1 (proj2 end_of_input_sentinel) 1%nat 1%nat (parser_on "")
                     (mkCommand "" []) _ _ _)).
    + reflexivity.
    + reflexivity.
Defined.

(** ** What the lexer does to the stream hook *)

Lemma moved_refl s : moved s s 0.
Proof. unfold moved. repeat split; lia. Qed.

Lemma moved_trans s1 s2 s3 n m :
  moved s1 s2 n -> moved s2 s3 m -> moved s1 s3 (n + m).
Proof.
  unfold moved. intros (A1 & A2 & A3 & A4 & A5) (B1 & B2 & B3 & B4 & B5).
  repeat split; try congruence; lia.
Qed.

Lemma moved_step s c : moved s (step s c) 1.
Proof.
  unfold moved, step, cp, sp, buffer; simpl. repeat split.
  rewrite length_app. simpl. lia.
Qed.

Lemma moved_at_eof s : moved s (at_eof s) 0.
Proof. unfold moved, at_eof, cp, sp, buffer; simpl. repeat split; lia. Qed.

Lemma moved_wf s s' n : moved s s' n -> wf s -> wf s'.
Proof. unfold moved, wf. intros (A1 & A2 & A3 & A4 & A5) H. lia. Qed.

Ltac moved_one IH s c :=
  eapply wp_mono;
  [ apply IH
  | intros [v e'] s' [n [Hn [Hm [He Hfirst]]]]; exists (1 + n); cbn [fst snd] in *;
    split; [lia|]; split;
    [ exact (moved_trans _ _ _ _ _ (moved_step s c) Hm) | split; [lia|intros; lia] ]
  | auto ].

Ltac moved_zero :=
  exists 0; split; [lia|]; split; [apply moved_refl|]; split; [simpl; lia|].

Lemma readIdentifier_loop_moved (fuel : nat) : forall s value end_,
  wp (readIdentifier_loop fuel value end_ s)
     (fun ve s' =>
        exists n, 0 <= n /\ moved s s' n /\ snd ve = end_ + n
                  /\ (isIdentifierChar (hd EOF_char (visible s)) = true -> 1 <= n))
     (fun e _ => internal e).
Proof.
  induction fuel as [|fuel IH]; intros s value end_; [exact I|].
  simpl. rewrite (bind_Ok _ _ _ _ _ (peek_visible s)).
  destruct (visible s) as [|c cs] eqn:Hv; simpl.
  - moved_zero. discriminate.
  - destruct (isIdentifierChar c) eqn:Hc.
    + destruct (get_cons s c cs Hv) as [Hg Hv'].
      rewrite (bind_Ok _ _ _ _ _ Hg). moved_one IH s c.
    + moved_zero. discriminate.
Qed.

Lemma readNumber_loop_moved (fuel : nat) : forall s value end_,
  wp (readNumber_loop fuel value end_ s)
     (fun ve s' =>
        exists n, 0 <= n /\ moved s s' n /\ snd ve = end_ + n
                  /\ (isNumberChar (hd EOF_char (visible s)) = true -> 1 <= n))
     (fun e _ => internal e).
Proof.
  induction fuel as [|fuel IH]; intros s value end_; [exact I|].
  simpl. rewrite (bind_Ok _ _ _ _ _ (peek_visible s)).
  destruct (visible s) as [|c cs] eqn:Hv; simpl.
  - moved_zero. discriminate.
  - destruct (isNumberChar c) eqn:Hc.
    + rewrite (isNumberChar_not_NUL c Hc).
      destruct (get_cons s c cs Hv) as [Hg Hv'].
      rewrite (bind_Ok _ _ _ _ _ Hg). moved_one IH s c.
    + destruct (Ascii.eqb c NUL); moved_zero; discriminate.
Qed.

Lemma readComment_loop_moved (fuel : nat) : forall s value end_,
  wp (readComment_loop fuel value end_ s)
     (fun ve s' =>
        exists n, 0 <= n /\ moved s s' n /\ snd ve = end_ + n
                  /\ (forall c cs, visible s = c :: cs -> c <> LF -> 1 <= n))
     (fun e _ => internal e).
Proof.
  induction fuel as [|fuel IH]; intros s value end_; [exact I|].
  simpl. rewrite (bind_Ok _ _ _ _ _ (peek_visible s)).
  destruct (visible s) as [|c cs] eqn:Hv; simpl.
  - (* at the end of the input the loop does not return *)
    destruct (get_nil s Hv) as [Hg Hv']. rewrite (bind_Ok _ _ _ _ _ Hg).
    rewrite readComment_loop_diverges by (rewrite Hv'; auto). exact I.
  - destruct (Ascii.eqb c LF) eqn:Hc.
    + moved_zero.
      intros c' cs' H Hne. injection H as <- <-.
      apply Ascii.eqb_eq in Hc. contradiction.
    + destruct (get_cons s c cs Hv) as [Hg Hv'].
      rewrite (bind_Ok _ _ _ _ _ Hg).
      eapply wp_mono; [apply IH| |auto].
      intros [v e'] s' [n [Hn [Hm [He Hfirst]]]]. exists (1 + n). cbn [fst snd] in *.
      split; [lia|]. split.
      { exact (moved_trans _ _ _ _ _ (moved_step s c) Hm). }
      split; [lia|]. intros; lia.
Qed.

Lemma readString_loop_moved (fuel : nat) : forall s escape value end_,
  wp (readString_loop fuel escape value end_ s)
     (fun ve s' => exists n, 0 <= n /\ moved s s' n /\ snd ve = end_ + n)
     (fun e _ => internal e).
Proof.
  induction fuel as [|fuel IH]; intros s escape value end_; [exact I|].
  simpl. destruct (visible s) as [|c cs] eqn:Hv.
  - destruct (get_nil s Hv) as [Hg _]. rewrite (bind_Ok _ _ _ _ _ Hg).
    exists 0. simpl. split; [lia|]. split; [apply moved_at_eof|lia].
  - destruct (get_cons s c cs Hv) as [Hg _]. rewrite (bind_Ok _ _ _ _ _ Hg).
    assert (Hrec : forall escape' value',
               wp (readString_loop fuel escape' value' (end_ + 1) (step s c))
                  (fun ve s' => exists n, 0 <= n /\ moved s s' n /\ snd ve = end_ + n)
                  (fun e _ => internal e)).
    { intros escape' value'. eapply wp_mono; [apply IH| |auto].
      intros [v e'] s' [n [Hn [Hm He]]]. exists (1 + n). cbn [fst snd] in *.
      split; [lia|]. split; [|lia].
      exact (moved_trans _ _ _ _ _ (moved_step s c) Hm). }
    destruct escape.
    + destruct (Ascii.eqb c CR); [apply Hrec|].
      destruct (Ascii.eqb c LF); apply Hrec.
    + destruct (Ascii.eqb c BACKSLASH); [apply Hrec|].
      destruct (Ascii.eqb c DQUOTE); [|apply Hrec].
      exists 1. simpl. split; [lia|]. split; [apply moved_step|lia].
Qed.

Lemma classifyNumber_fields value begin end_ :
  CLIToken.begin (classifyNumber value begin end_) = begin
  /\ CLIToken.end_ (classifyNumber value begin end_) = end_
  /\ CLIToken.type (classifyNumber value begin end_) <> CLIToken.EndOfFile.
Proof.
  unfold classifyNumber.
  destruct (StdNum.extract_int64 _); [destruct (has_suffix value)|
    destruct (StdNum.extract_float _)]; simpl; repeat split; discriminate.
Qed.

Lemma punctuation_not_EndOfFile c type :
  punctuation c = Some type -> type <> CLIToken.EndOfFile.
Proof.
  unfold punctuation.
  repeat match goal with
         | |- context [if ?b then _ else _] => destruct b
         end; intros H; try discriminate H; injection H as <-; discriminate.
Qed.

Lemma moved_sp s s' n : moved s s' n -> sp s' = sp s + n.
Proof. intros (_ & _ & _ & H & _). exact H. Qed.

Lemma delivered_intro s t s' n :
  0 <= n -> moved s s' n ->
  sp s <= CLIToken.begin t ->
  CLIToken.end_ t = sp s + n ->
  (CLIToken.type t = CLIToken.EndOfFile -> CLIToken.begin t = CLIToken.end_ t) ->
  (CLIToken.type t <> CLIToken.EndOfFile -> CLIToken.begin t < CLIToken.end_ t) ->
  delivered s t s'.
Proof.
  intros Hn Hm Hb He Hz Hnz. exists n. rewrite (moved_sp _ _ _ Hm). auto 10.
Qed.

Lemma readNextToken_spec (fuel : nat) : forall s,
  wp (readNextToken fuel s) (fun t s' => delivered s t s') (fun e _ => internal e).
Proof.
  induction fuel as [|fuel IH]; intros s; [exact I|].
  simpl. destruct (visible s) as [|c cs] eqn:Hv.
  - destruct (get_nil s Hv) as [Hg _]. rewrite (bind_Ok _ _ _ _ _ Hg).
    rewrite (bind_Ok _ _ _ _ _ (tellg_eq (at_eof s))).
    apply (delivered_intro _ _ _ 0); cbn [CLIToken.begin CLIToken.end_ CLIToken.type];
      [ lia | apply moved_at_eof | unfold sp; simpl; lia | unfold sp; simpl; lia
      | reflexivity | intros H; exfalso; apply H; reflexivity ].
  - destruct (get_cons s c cs Hv) as [Hg Hv'].
    rewrite (bind_Ok _ _ _ _ _ Hg), (bind_Ok _ _ _ _ _ (tellg_step s c)).
    pose proof (unget_step s c cs Hv) as Hu.
    destruct (isIdentifierStart c) eqn:Hid.
    { rewrite (bind_Ok _ _ _ _ _ Hu). unfold readIdentifier.
      rewrite (bind_Ok _ _ _ _ _ (tellg_eq s)).
      apply wp_bind. eapply wp_mono; [apply readIdentifier_loop_moved| |auto].
      intros [v e] s' [n [Hn [Hm [He Hfirst]]]]. cbn [fst snd] in *.
      rewrite Hv in Hfirst. simpl in Hfirst.
      specialize (Hfirst (isIdentifierStart_char c Hid)).
      apply (delivered_intro _ _ _ n); cbn [CLIToken.begin CLIToken.end_ CLIToken.type];
        [ lia | exact Hm | lia | lia | discriminate | intros; lia ]. }
    destruct (Ascii.eqb c DQUOTE) eqn:Hq.
    { unfold readString. rewrite (bind_Ok _ _ _ _ _ (tellg_step s c)).
      apply wp_bind. eapply wp_mono; [apply readString_loop_moved| |auto].
      intros [v e] s' [n [Hn [Hm He]]]. cbn [fst snd] in *.
      pose proof (moved_trans _ _ _ _ _ (moved_step s c) Hm) as Hm'.
      apply (delivered_intro _ _ _ (1 + n)); cbn [CLIToken.begin CLIToken.end_ CLIToken.type];
        [ lia | exact Hm' | lia | lia | discriminate | intros; lia ]. }
    destruct (isNumberStart c) eqn:Hnum.
    { rewrite (bind_Ok _ _ _ _ _ Hu). unfold readNumber.
      rewrite (bind_Ok _ _ _ _ _ (tellg_eq s)).
      apply wp_bind. eapply wp_mono; [apply readNumber_loop_moved| |auto].
      intros [v e] s' [n [Hn [Hm [He Hfirst]]]]. cbn [fst snd] in *.
      rewrite Hv in Hfirst. simpl in Hfirst.
      specialize (Hfirst (isNumberStart_char c Hnum)).
      destruct (classifyNumber_fields v (sp s) e) as [Hb [He' Ht]].
      apply (delivered_intro _ _ _ n); unfold ret; rewrite ?Hb, ?He';
        [ lia | exact Hm | lia | lia | intros H; contradiction | intros; lia ]. }
    destruct (punctuation c) as [type|] eqn:Hp.
    { apply (delivered_intro _ _ _ 1); cbn [CLIToken.begin CLIToken.end_ CLIToken.type];
        [ lia | apply moved_step | lia | lia
        | intros H; exfalso; exact (punctuation_not_EndOfFile c type Hp H)
        | intros; lia ]. }
    destruct (Ascii.eqb c "#") eqn:Hh.
    { rewrite (bind_Ok _ _ _ _ _ Hu). unfold readComment.
      rewrite (bind_Ok _ _ _ _ _ (tellg_eq s)).
      apply wp_bind. eapply wp_mono; [apply readComment_loop_moved| |auto].
      intros [v e] s' [n [Hn [Hm [He Hfirst]]]]. cbn [fst snd] in *.
      assert (Hc : c <> LF).
      { apply Ascii.eqb_eq in Hh. subst c. discriminate. }
      specialize (Hfirst c cs Hv Hc).
      apply (delivered_intro _ _ _ n); cbn [CLIToken.begin CLIToken.end_ CLIToken.type];
        [ lia | exact Hm | lia | lia | discriminate | intros; lia ]. }
    destruct (isSkipped c) eqn:Hs.
    { eapply wp_mono; [apply IH| |auto].
      intros t s' [n [Hn [Hm [Hb [He [Hz Hnz]]]]]].
      pose proof (moved_trans _ _ _ _ _ (moved_step s c) Hm) as Hm'.
      rewrite (moved_sp _ _ _ (moved_step s c)) in Hb.
      rewrite (moved_sp _ _ _ Hm), (moved_sp _ _ _ (moved_step s c)) in He.
      apply (delivered_intro _ _ _ (1 + n)); auto; lia. }
    apply (delivered_intro _ _ _ 1); cbn [CLIToken.begin CLIToken.end_ CLIToken.type];
      [ lia | apply moved_step | lia | lia | discriminate | intros; lia ].
Qed.

Lemma nextToken_unpeeked lf s t s1 :
  nextToken lf s = Ok t s1 -> peeked_token_ s1 = None.
Proof.
  unfold nextToken. destruct (peeked_token_ s) eqn:Hp.
  - intros H; injection H as _ <-. reflexivity.
  - intros H. pose proof (readNextToken_spec lf s) as Hs. rewrite H in Hs.
    destruct Hs as [n [_ [(_ & _ & Hpk & _) _]]]. congruence.
Qed.

Lemma peek_of_next lf s t s1 :
  nextToken lf s = Ok t s1 ->
  peekToken lf s = Ok t (mkParser (stream_hook_ s1) (Some t)).
Proof.
  unfold nextToken, peekToken. destruct (peeked_token_ s) eqn:Hp.
  - intros H; injection H as <- <-. simpl. destruct s; simpl in *; congruence.
  - intros ->. reflexivity.
Qed.

Lemma next_of_primed lf s1 t :
  peeked_token_ s1 = None ->
  nextToken lf (mkParser (stream_hook_ s1) (Some t)) = Ok t s1.
Proof.
  intros Hp. unfold nextToken; simpl. f_equal. exact (parser_eta s1 Hp).
Qed.

(** ** The invariant of a parsing session *)

Lemma wf_cp_le_sp s : wf s -> cp s <= sp s.
Proof. unfold wf. lia. Qed.

Lemma Inv_parser_on input : Inv (parser_on input).
Proof. split; [reflexivity|]. intros t H; discriminate H. Qed.

Lemma nextToken_spec lf s :
  Inv s ->
  wp (nextToken lf s)
     (fun t s' =>
        later s s' /\ peeked_token_ s' = None /\ tok_ok t s'
        /\ (forall t0, peeked_token_ s = Some t0 -> t = t0))
     (fun e _ => internal e).
Proof.
  intros [Hwf Hpk]. unfold nextToken.
  destruct (peeked_token_ s) as [t0|] eqn:Hp.
  - simpl. specialize (Hpk t0 eq_refl).
    change (tok_ok t0 (unpeek s)) with (tok_ok t0 s).
    split; [|split; [reflexivity|split; [exact Hpk|]]].
    + split; [|split; [reflexivity|unfold sp; simpl; lia]].
      split; [exact Hwf|]. intros t H; discriminate H.
    + intros t H; congruence.
  - eapply wp_mono; [apply readNextToken_spec| |auto].
    intros t s' [n [Hn [Hm [Hb [He [Hz Hnz]]]]]]. cbv beta.
    pose proof (moved_wf _ _ _ Hm Hwf) as Hwf'.
    pose proof (wf_cp_le_sp _ Hwf) as Hle.
    destruct Hm as (Hcp & _ & Hpeek & Hsp & _).
    assert (Hnone : peeked_token_ s' = None) by congruence.
    split; [|split; [exact Hnone|split]].
    + split; [|split; [exact Hcp|lia]].
      split; [exact Hwf'|]. intros t0 H; congruence.
    + unfold tok_ok. rewrite Hcp. auto 10 with zarith.
    + intros t0 H; discriminate H.
Qed.

Lemma peekToken_spec lf s :
  Inv s ->
  wp (peekToken lf s)
     (fun t s' => later s s' /\ peeked_token_ s' = Some t /\ tok_ok t s')
     (fun e _ => internal e).
Proof.
  intros [Hwf Hpk]. unfold peekToken.
  destruct (peeked_token_ s) as [t0|] eqn:Hp.
  - simpl. split; [|split; [exact Hp|exact (Hpk t0 eq_refl)]].
    split; [split; [exact Hwf|]|split; [reflexivity|lia]].
    intros t H. apply Hpk. rewrite <- Hp. exact H.
  - pose proof (readNextToken_spec lf s) as H.
    destruct (readNextToken lf s) as [t s'|e s'|]; simpl in *; auto.
    destruct H as [n [Hn [Hm [Hb [He [Hz Hnz]]]]]].
    pose proof (moved_wf _ _ _ Hm Hwf) as Hwf'.
    pose proof (wf_cp_le_sp _ Hwf) as Hle.
    destruct Hm as (Hcp & _ & Hpeek & Hsp & _).
    assert (Hok : tok_ok t (mkParser (stream_hook_ s') (Some t))).
    { unfold tok_ok. change (cp (mkParser (stream_hook_ s') (Some t))) with (cp s').
      change (sp (mkParser (stream_hook_ s') (Some t))) with (sp s').
      rewrite Hcp. auto 10 with zarith. }
    split; [|split; [reflexivity|exact Hok]].
    split; [|split; [exact Hcp|change (sp s <= sp s'); lia]].
    split; [exact Hwf'|]. simpl. intros t1 H. injection H as <-. exact Hok.
Qed.

Lemma later_refl s : Inv s -> later s s.
Proof. intros H. split; [exact H|split; [reflexivity|lia]]. Qed.

Lemma later_trans s1 s2 s3 : later s1 s2 -> later s2 s3 -> later s1 s3.
Proof.
  intros (_ & A2 & A3) (B1 & B2 & B3). split; [exact B1|split; [congruence|lia]].
Qed.

Lemma later_lt s s' : later s s' -> cp s < sp s -> cp s' < sp s'.
Proof. intros (_ & A2 & A3) H. lia. Qed.

Lemma internal_raised e s : internal e -> raised e s.
Proof. intros H; right; exact H. Qed.

Lemma wp_peek {A} lf (k : CLIToken.t -> M A) s Q :
  Inv s ->
  (forall t s1,
      later s s1 -> peeked_token_ s1 = Some t -> tok_ok t s1 ->
      wp (k t s1) Q raised) ->
  wp (bind (peekToken lf) k s) Q raised.
Proof.
  intros Hinv Hk. apply wp_bind.
  eapply wp_mono; [apply (peekToken_spec lf s Hinv)| |].
  - intros t s1 (H1 & H2 & H3). apply Hk; assumption.
  - intros e s1. apply internal_raised.
Qed.

Lemma wp_next {A} lf (k : CLIToken.t -> M A) s Q :
  Inv s ->
  (forall t s1,
      later s s1 -> peeked_token_ s1 = None -> tok_ok t s1 ->
      (forall t0, peeked_token_ s = Some t0 -> t = t0) ->
      wp (k t s1) Q raised) ->
  wp (bind (nextToken lf) k s) Q raised.
Proof.
  intros Hinv Hk. apply wp_bind.
  eapply wp_mono; [apply (nextToken_spec lf s Hinv)| |].
  - intros t s1 (H1 & H2 & H3 & H4). apply Hk; assumption.
  - intros e s1. apply internal_raised.
Qed.

Lemma wp_raise {A} d s (Q : A -> CLIParser -> Prop) :
  Inv s -> cp s < sp s -> tok_ok (offending d) s ->
  wp (@raise A d s) Q raised.
Proof.
  intros Hinv Hlt Hok. left. exists d. auto.
Qed.

Lemma tok_ok_nonempty t s :
  tok_ok t s -> CLIToken.type t <> CLIToken.EndOfFile -> cp s < sp s.
Proof. intros (H1 & H2 & _ & H4) Ht. specialize (H4 Ht). lia. Qed.

Lemma wp_next_raise {A} lf (d : CLIToken.t -> Diagnostic) s (Q : A -> CLIParser -> Prop) :
  Inv s ->
  (forall t, offending (d t) = t) ->
  (cp s < sp s
   \/ exists t, peeked_token_ s = Some t /\ CLIToken.type t <> CLIToken.EndOfFile) ->
  wp ((token <- nextToken lf ;; @raise A (d token)) s) Q raised.
Proof.
  intros Hinv Hd Hne. apply wp_next; [exact Hinv|].
  intros t s1 Hl Hp Hok Hsame.
  apply wp_raise.
  - apply Hl.
  - destruct Hne as [Hlt|[t0 [Hp0 Ht0]]].
    + exact (later_lt _ _ Hl Hlt).
    + rewrite <- (Hsame t0 Hp0) in Ht0. exact (tok_ok_nonempty t s1 Hok Ht0).
  - rewrite Hd. exact Hok.
Qed.

Lemma wp_library {A} what (r : option A) s (Q : A -> CLIParser -> Prop) :
  (forall a, r = Some a -> Q a s) -> wp (library what r s) Q raised.
Proof.
  intros H. destruct r as [a|]; simpl.
  - apply H. reflexivity.
  - right. exact I.
Qed.

Lemma integerVectorData_pure (tokens : list CLIToken.t) s :
  wp (integerVectorData tokens s) (fun _ s' => s' = s) raised.
Proof.
  induction tokens as [|token rest IH]; simpl; [reflexivity|].
  apply wp_bind.
  assert (Hhead :
    wp (match CLIToken.type token with
        | CLIToken.Integer => stoll (CLIToken.value token)
        | CLIToken.Float =>
            d <- stod (CLIToken.value token) ;; ret (StdNum.int64_of_double d)
        | _ => throw AssertionFailure
        end s) (fun _ s' => s' = s) raised).
  { destruct (CLIToken.type token); try (right; exact I).
    - apply wp_library. reflexivity.
    - apply wp_bind. apply wp_library. reflexivity. }
  eapply wp_mono; [exact Hhead| |auto].
  intros v s' ->. apply wp_bind.
  eapply wp_mono; [exact IH| |auto].
  intros vs s' ->. reflexivity.
Qed.

Lemma floatVectorData_pure (tokens : list CLIToken.t) s :
  wp (floatVectorData tokens s) (fun _ s' => s' = s) raised.
Proof.
  induction tokens as [|token rest IH]; simpl; [reflexivity|].
  apply wp_bind.
  assert (Hhead :
    wp (match CLIToken.type token with
        | CLIToken.Integer =>
            i <- stoll (CLIToken.value token) ;; ret (StdNum.double_of_int64 i)
        | CLIToken.Float => stod (CLIToken.value token)
        | _ => throw AssertionFailure
        end s) (fun _ s' => s' = s) raised).
  { destruct (CLIToken.type token); try (right; exact I).
    - apply wp_bind. apply wp_library. reflexivity.
    - apply wp_library. reflexivity. }
  eapply wp_mono; [exact Hhead| |auto].
  intros v s' ->. apply wp_bind.
  eapply wp_mono; [exact IH| |auto].
  intros vs s' ->. reflexivity.
Qed.

Lemma returnVector_pure integer_vector tokens s :
  wp (returnVector integer_vector tokens s) (fun _ s' => s' = s) raised.
Proof.
  unfold returnVector. destruct integer_vector; apply wp_bind.
  - eapply wp_mono; [apply integerVectorData_pure| |auto].
    intros v s' ->. reflexivity.
  - eapply wp_mono; [apply floatVectorData_pure| |auto].
    intros v s' ->. reflexivity.
Qed.

Lemma wp_returnVector integer_vector tokens s (Q : Argument.t -> CLIParser -> Prop) :
  (forall a, Q a s) ->
  wp (returnVector integer_vector tokens s) Q raised.
Proof.
  intros H. eapply wp_mono; [apply returnVector_pure| |auto].
  intros a s' ->. apply H.
Qed.

(** ** The parser keeps the invariant and raises on the token just read *)

Lemma wp_peek0 {A} lf (k : CLIToken.t -> M A) s0 s Q :
  later s0 s ->
  (forall t s1,
      later s0 s1 -> peeked_token_ s1 = Some t -> tok_ok t s1 ->
      wp (k t s1) Q raised) ->
  wp (bind (peekToken lf) k s) Q raised.
Proof.
  intros Hl Hk. apply wp_peek; [apply Hl|].
  intros t s1 Hl1. apply Hk. exact (later_trans _ _ _ Hl Hl1).
Qed.

Lemma wp_next0 {A} lf (k : CLIToken.t -> M A) s0 s Q :
  later s0 s ->
  (forall t s1,
      later s0 s1 -> peeked_token_ s1 = None -> tok_ok t s1 ->
      (forall t0, peeked_token_ s = Some t0 -> t = t0) ->
      wp (k t s1) Q raised) ->
  wp (bind (nextToken lf) k s) Q raised.
Proof.
  intros Hl Hk. apply wp_next; [apply Hl|].
  intros t s1 Hl1. apply Hk. exact (later_trans _ _ _ Hl Hl1).
Qed.

Lemma wp_next_raise0 {A} lf (d : CLIToken.t -> Diagnostic) s0 s
  (Q : A -> CLIParser -> Prop) :
  later s0 s -> cp s0 < sp s0 ->
  (forall t, offending (d t) = t) ->
  wp ((token <- nextToken lf ;; @raise A (d token)) s) Q raised.
Proof.
  intros Hl Hlt Hd. apply wp_next_raise; [apply Hl|exact Hd|].
  left. exact (later_lt _ _ Hl Hlt).
Qed.

Lemma wp_throw_internal {A} e s (Q : A -> CLIParser -> Prop) :
  internal e -> wp (@throw A e s) Q raised.
Proof. intros H. right. exact H. Qed.

Ltac pure_tail :=
  repeat first
    [ assumption
    | apply wp_ret
    | apply wp_throw_internal; exact I
    | apply wp_library; intros ? _
    | apply wp_bind ].

Ltac raise_leaf lf s0 :=
  apply (wp_next_raise0 lf _ s0); [assumption|assumption|intros; reflexivity].

Lemma parseNumberList_loop_spec lf (fuel : nat) :
  forall comma first_number tokens integer_vector s0 s,
    later s0 s -> cp s0 < sp s0 ->
    wp (parseNumberList_loop lf fuel comma first_number tokens integer_vector s)
       (fun _ s' => later s0 s') raised.
Proof.
  induction fuel as [|fuel IH];
    intros comma first_number tokens integer_vector s0 s Hl Hlt; [exact I|].
  simpl. apply (wp_peek0 lf _ s0); [exact Hl|].
  intros t s1 Hl1 Hp1 Hok1.
  assert (Hrec : forall first tokens' iv,
             wp ((token <- nextToken lf ;;
                  parseNumberList_loop lf fuel false first (tokens' token) iv) s1)
                (fun _ s' => later s0 s') raised).
  { intros. apply (wp_next0 lf _ s0); [assumption|]. intros. apply IH; assumption. }
  destruct (CLIToken.type t); destruct comma; cbn [negb];
    try destruct (size_is_1 tokens);
    try destruct first_number;
    try (apply wp_returnVector; intros; assumption);
    try (raise_leaf lf s0);
    try (apply (Hrec false (fun token => (tokens ++ [token])%list)));
    try (apply (wp_next0 lf _ s0); [assumption|]; intros; apply IH; assumption).
Qed.

Lemma parseNumberList_spec lf fuel s0 s :
  later s0 s -> cp s0 < sp s0 ->
  wp (parseNumberList lf fuel s) (fun _ s' => later s0 s') raised.
Proof. apply parseNumberList_loop_spec. Qed.

Lemma parseVector_spec lf fuel s0 s :
  later s0 s -> cp s0 < sp s0 ->
  wp (parseVector lf fuel s) (fun _ s' => later s0 s') raised.
Proof.
  intros Hl Hlt. unfold parseVector. apply (wp_peek0 lf _ s0); [exact Hl|].
  intros t s1 Hl1 Hp1 Hok1.
  assert (Hclose : forall closer,
    wp ((nextToken lf ;;;
         arg <- parseNumberList lf fuel ;;
         token <- nextToken lf ;;
         if CLIToken.Type_eqb (CLIToken.type token) closer
         then ret arg
         else raise (UnexpectedToken closer token)) s1)
       (fun _ s' => later s0 s') raised).
  { intros closer. apply (wp_next0 lf _ s0); [assumption|]. intros t2 s2 Hl2 _ _ _.
    apply wp_bind. eapply wp_mono; [apply (parseNumberList_spec lf fuel s0 s2 Hl2 Hlt)| |auto].
    intros arg s3 Hl3. apply (wp_next0 lf _ s0); [assumption|].
    intros t4 s4 Hl4 Hp4 Hok4 _.
    destruct (CLIToken.Type_eqb (CLIToken.type t4) closer).
    - exact Hl4.
    - apply wp_raise; [apply Hl4|exact (later_lt _ _ Hl4 Hlt)|exact Hok4]. }
  destruct (CLIToken.type t);
    try (apply wp_throw_internal; exact I);
    try (apply parseNumberList_spec; assumption);
    apply Hclose.
Qed.

Lemma parseArgument_spec lf fuel s0 s :
  later s0 s -> cp s0 < sp s0 ->
  wp (parseArgument lf fuel s) (fun _ s' => later s0 s') raised.
Proof.
  intros Hl Hlt. unfold parseArgument. apply (wp_peek0 lf _ s0); [exact Hl|].
  intros t s1 Hl1 Hp1 Hok1.
  destruct (CLIToken.type t);
    try (apply wp_throw_internal; exact I);
    try (apply parseVector_spec; assumption);
    try (raise_leaf lf s0);
    try (apply (wp_next0 lf _ s0); [assumption|]; intros t2 s2 Hl2 _ _ _; exact Hl2).
  - (* Integer *)
    apply (wp_next0 lf _ s0); [assumption|]. intros t2 s2 Hl2 _ _ _.
    apply (wp_peek0 lf _ s0); [assumption|]. intros t3 s3 Hl3 _ _.
    destruct (CLIToken.Type_eqb (CLIToken.type t3) CLIToken.Comma).
    + apply (wp_next0 lf _ s0); [assumption|]. intros t4 s4 Hl4 _ _ _.
      apply wp_bind.
      eapply wp_mono; [apply (parseNumberList_spec lf fuel s0 s4 Hl4 Hlt)| |auto].
      intros arg s5 Hl5. unfold stoll, bad_variant_access.
      destruct (Argument.type arg); destruct (Argument.data arg); pure_tail.
    + unfold stoll. pure_tail.
  - (* Float *)
    apply (wp_next0 lf _ s0); [assumption|]. intros t2 s2 Hl2 _ _ _.
    apply (wp_peek0 lf _ s0); [assumption|]. intros t3 s3 Hl3 _ _.
    destruct (CLIToken.Type_eqb (CLIToken.type t3) CLIToken.Comma).
    + apply (wp_next0 lf _ s0); [assumption|]. intros t4 s4 Hl4 _ _ _.
      apply wp_bind.
      eapply wp_mono; [apply (parseNumberList_spec lf fuel s0 s4 Hl4 Hlt)| |auto].
      intros arg s5 Hl5. unfold stod, bad_variant_access.
      destruct (Argument.type arg); destruct (Argument.data arg); pure_tail.
    + unfold stod. pure_tail.
Qed.

Lemma parseArgumentList_loop_spec lf (fuel : nat) :
  forall multiline arguments s0 s,
    later s0 s -> cp s0 < sp s0 ->
    wp (parseArgumentList_loop lf fuel multiline arguments s)
       (fun _ s' =>
          later s0 s'
          /\ forall t, peeked_token_ s' = Some t ->
                       CLIToken.type t = CLIToken.EndOfFile)
       raised.
Proof.
  induction fuel as [|fuel IH]; intros multiline arguments s0 s Hl Hlt; [exact I|].
  simpl. apply (wp_peek0 lf _ s0); [exact Hl|].
  intros t s1 Hl1 Hp1 Hok1.
  assert (Harg :
    wp ((arg <- parseArgument lf fuel ;;
         parseArgumentList_loop lf fuel multiline (arguments ++ [arg])) s1)
       (fun _ s' =>
          later s0 s'
          /\ forall t, peeked_token_ s' = Some t ->
                       CLIToken.type t = CLIToken.EndOfFile)
       raised).
  { apply wp_bind.
    eapply wp_mono; [apply (parseArgument_spec lf fuel s0 s1 Hl1 Hlt)| |auto].
    intros arg s2 Hl2. apply IH; assumption. }
  destruct (CLIToken.type t) eqn:Ht; try exact Harg;
    try (raise_leaf lf s0).
  - (* LeftCurly *)
    destruct multiline; [raise_leaf lf s0|].
    apply (wp_next0 lf _ s0); [assumption|]. intros. apply IH; assumption.
  - (* RightCurly *)
    destruct multiline; cbn [negb]; [|raise_leaf lf s0].
    apply (wp_next0 lf _ s0); [assumption|]. intros. apply IH; assumption.
  - (* EndOfLine *)
    apply (wp_next0 lf _ s0); [assumption|]. intros t2 s2 Hl2 Hp2 _ _.
    destruct multiline; cbn [negb].
    + apply IH; assumption.
    + split; [exact Hl2|]. intros t' H. congruence.
  - (* Comment *)
    apply (wp_next0 lf _ s0); [assumption|]. intros. apply IH; assumption.
  - (* EndOfFile *)
    destruct multiline; [raise_leaf lf s0|].
    split; [exact Hl1|]. intros t' H. congruence.
Qed.

Lemma clear_after_statement s :
  Inv s ->
  (forall t, peeked_token_ s = Some t -> CLIToken.type t = CLIToken.EndOfFile) ->
  wp (clearConsumedTokens s) (fun _ s' => Inv s' /\ cleared s') raised.
Proof.
  intros [Hwf Hpk] Heof. unfold clearConsumedTokens, wp.
  split; [split|].
  - unfold wf, buffer, sp, cp; simpl. lia.
  - simpl. intros t Hp. destruct (Hpk t Hp) as (H1 & H2 & H3 & H4).
    specialize (H3 (Heof t Hp)).
    unfold tok_ok, cp, sp in *; simpl in *. auto 10 with zarith.
  - unfold cleared, buffer; simpl. auto.
Qed.

Lemma finishCommand_spec lf fuel command s :
  Inv s -> cp s < sp s ->
  wp (finishCommand lf fuel command s) (fun _ s' => Inv s' /\ cleared s') raised.
Proof.
  intros Hinv Hlt. unfold finishCommand, parseArgumentList. apply wp_bind.
  eapply wp_mono;
    [apply (parseArgumentList_loop_spec lf fuel false [] s s (later_refl s Hinv) Hlt)
    | |auto].
  intros args s1 [Hl1 Heof]. apply wp_bind.
  eapply wp_mono; [apply (clear_after_statement s1 (proj1 Hl1) Heof)| |auto].
  intros u s2 H. exact H.
Qed.

Lemma parseCommand_loop_spec lf (fuel : nat) : forall command s,
  Inv s ->
  (empty (name command) = false -> cp s < sp s) ->
  wp (parseCommand_loop lf fuel command s) (fun _ s' => Inv s' /\ cleared s') raised.
Proof.
  induction fuel as [|fuel IH]; intros command s Hinv Hname; [exact I|].
  simpl. apply wp_peek; [exact Hinv|].
  intros t s1 Hl1 Hp1 Hok1.
  assert (Hfinish : empty (name command) = false ->
                    wp (finishCommand lf fuel command s1)
                       (fun _ s' => Inv s' /\ cleared s') raised).
  { intros Hne. apply finishCommand_spec; [apply Hl1|].
    exact (later_lt _ _ Hl1 (Hname Hne)). }
  assert (Hunexpected : forall d : CLIToken.t -> Diagnostic,
             (forall t, offending (d t) = t) ->
             CLIToken.type t <> CLIToken.EndOfFile ->
             wp ((token <- nextToken lf ;; raise (d token)) s1)
                (fun (_ : Command) s' => Inv s' /\ cleared s') raised).
  { intros d Hd Ht. apply wp_next_raise; [apply Hl1|exact Hd|].
    right. exists t. auto. }
  destruct (CLIToken.type t) eqn:Ht;
    try (destruct (empty (name command)) eqn:Hempty;
         [apply Hunexpected; [intros; reflexivity|discriminate]
         |apply Hfinish; reflexivity]).
  - (* Identifier *)
    destruct (empty (name command)) eqn:Hempty; [|apply Hfinish; reflexivity].
    apply wp_next; [apply Hl1|]. intros t2 s2 Hl2 Hp2 Hok2 Hsame.
    apply IH; [apply Hl2|]. intros _.
    apply (tok_ok_nonempty t2 s2 Hok2).
    rewrite (Hsame t Hp1), Ht. discriminate.
  - (* EndOfLine *)
    destruct (empty (name command)) eqn:Hempty; [|apply Hfinish; reflexivity].
    apply wp_next; [apply Hl1|]. intros t2 s2 Hl2 Hp2 Hok2 Hsame.
    apply wp_bind.
    eapply wp_mono; [apply (clear_after_statement s2 (proj1 Hl2))| |auto].
    + intros t' H. congruence.
    + intros u s3 [Hinv3 _]. apply IH; [exact Hinv3|]. intros H; congruence.
  - (* Comment *)
    apply wp_next; [apply Hl1|]. intros t2 s2 Hl2 Hp2 Hok2 Hsame.
    apply IH; [apply Hl2|]. intros Hne.
    exact (later_lt _ _ (later_trans _ _ _ Hl1 Hl2) (Hname Hne)).
  - (* EndOfFile *)
    apply wp_bind.
    eapply wp_mono; [apply (clear_after_statement s1 (proj1 Hl1))| |auto].
    + intros t' H. congruence.
    + intros u s2 H. exact H.
  - (* Unknown *)
    apply Hunexpected; [intros; reflexivity|discriminate].
Qed.

Lemma parseCommand_spec lf fuel s :
  Inv s ->
  wp (parseCommand lf fuel s) (fun _ s' => Inv s' /\ cleared s') raised.
Proof.
  intros Hinv. apply parseCommand_loop_spec; [exact Hinv|].
  intros H; discriminate H.
Qed.

(** ** The buffer after a statement *)

Lemma in_session_Inv s : in_session s -> Inv s.
Proof.
  induction 1 as [input|lf fuel s cmd s' _ IH E|lf fuel s d what s' _ IH E].
  - apply Inv_parser_on.
  - pose proof (parseCommand_spec lf fuel s IH) as H. rewrite E in H. apply H.
  - pose proof (parseCommand_spec lf fuel s IH) as H. rewrite E in H.
    destruct H as [[d' (_ & Hinv & _)]|[]]. exact Hinv.
Qed.

Lemma wf_buffer_nonempty s : wf s -> cp s < sp s -> buffer s <> [].
Proof.
  unfold wf. intros Hwf Hlt Hnil. rewrite Hnil in Hwf. simpl in Hwf. lia.
Qed.

Lemma error_ParseError_inv r h d d' what :
  Report.error r h d = ParseError d' what ->
  d' = d
  /\ (show_source_ r = true ->
      exists snippet,
        Report.getSourceSnippetReport h (CLIToken.begin (offending d))
                                      (CLIToken.end_ (offending d)) = Some snippet
        /\ what = Report.headline d ++ Report.NL ++ snippet).
Proof.
  unfold Report.error. destruct (show_source_ r).
  - destruct (Report.getSourceSnippetReport _ _ _) as [snippet|];
      intros H; [|discriminate H].
    injection H as <- <-. split; [reflexivity|].
    intros _. exists snippet. auto.
  - intros H. injection H as <- <-. split; [reflexivity|]. discriminate.
Qed.

Lemma raised_ParseError d what s :
  raised (ParseError d what) s ->
  ParseError d what = Report.error error_reporter_ (stream_hook_ s) d
  /\ Inv s /\ cp s < sp s /\ tok_ok (offending d) s.
Proof.
  intros [[d' (He & Hwf & Hlt & Hok)]|[]].
  destruct (error_ParseError_inv _ _ _ _ _ (eq_sym He)) as [-> _]. auto.
Qed.

(** C3, as amended.  In a parsing session, whenever [parseCommand]
    returns, the buffer has just been cleared: it is empty and the
    checkpoint stands at the current position and line.  When
    [parseCommand] raises a diagnostic instead, the buffer has not been
    cleared: it is not empty and runs from the checkpoint to the end of the
    offending token. *)
Theorem buffer_cleared_when_a_statement_returns lf fuel s :
  in_session s ->
  (forall cmd s',
      parseCommand lf fuel s = Ok cmd s' -> cleared s')
  /\ (forall d what s',
         parseCommand lf fuel s = Throw (ParseError d what) s' ->
         buffer s' <> []
         /\ Z.of_nat (List.length (buffer s'))
            = CLIToken.end_ (offending d) - position_ (stream_hook_ s')).
Proof.
  intros Hs. pose proof (parseCommand_spec lf fuel s (in_session_Inv s Hs)) as H.
  split.
  - intros cmd s' E. rewrite E in H. simpl in H. tauto.
  - intros d what s' E. rewrite E in H. simpl in H.
    destruct (raised_ParseError _ _ _ H) as (_ & [Hwf _] & Hlt & (_ & Hend & _)).
    split; [exact (wf_buffer_nonempty s' Hwf Hlt)|].
    rewrite Hend. exact Hwf.
Qed.

Lemma buffer_cleared_when_a_statement_returns_witness :
  exists s',
    (exists cmd, parseCommand 16 16 (parser_on ("cmd a" ++ Report.NL)) = Ok cmd s')
    /\ cleared s'.
Proof.
  eexists. split.
  - eexists. vm_compute. reflexivity.
  - refine (proj1 (buffer_cleared_when_a_statement_returns 16 16
                      (parser_on ("cmd a" ++ Report.NL)) (session_start _))
              (mkCommand "cmd"
                 [Argument.mk Argument.Identifier (Argument.StringData "a")])
              _ _).
    vm_compute. reflexivity.
Defined.

(** C3, as stated, fails.  [parseCommand] leaving by a raised error does
    not clear the buffer: after the refused first line the buffer still
    holds it, and the diagnostic of the second statement is raised with
    both statements' text in the buffer. *)
Lemma buffer_kept_when_a_statement_raises :
  let input := "a (" ++ Report.NL ++ "b ," ++ Report.NL in
  exists e1 s1 e2 s2,
    parseCommand 16 16 (parser_on input) = Throw e1 s1
    /\ buffer s1 = list_ascii_of_string ("a (" ++ Report.NL)
    /\ cp s1 = 0 /\ sp s1 = 4
    /\ parseCommand 16 16 s1 = Throw e2 s2
    /\ buffer s2 = list_ascii_of_string ("a (" ++ Report.NL ++ "b ,")
    /\ cp s2 = 0 /\ sp s2 = 7.
Proof.
  do 4 eexists. split; [vm_compute; reflexivity|].
  repeat (split; [vm_compute; reflexivity|]). vm_compute; reflexivity.
Qed.

(** ** The highlighted span *)

Lemma tok_ok_le t s : tok_ok t s -> CLIToken.begin t <= CLIToken.end_ t.
Proof.
  intros (_ & _ & H3 & H4).
  destruct (CLIToken.type t) eqn:Ht;
    try (assert (CLIToken.begin t < CLIToken.end_ t) by (apply H4; discriminate); lia).
  rewrite H3; [lia|reflexivity].
Qed.

Lemma size_getConsumedTokens s :
  Report.size (Hook.getConsumedTokens (stream_hook_ s))
  = Z.of_nat (List.length (buffer s)).
Proof.
  unfold Report.size, Hook.getConsumedTokens, buffer.
  rewrite length_string_of_list_ascii. reflexivity.
Qed.

Lemma highlight_of_delivered_token t s :
  wf s -> tok_ok t s ->
  Report.highlight_begin (stream_hook_ s) (CLIToken.begin t)
  = CLIToken.begin t - position_ (stream_hook_ s)
  /\ Report.highlight_end (stream_hook_ s) (CLIToken.end_ t)
     = CLIToken.end_ t - position_ (stream_hook_ s)
  /\ 0 <= CLIToken.begin t - position_ (stream_hook_ s)
          <= CLIToken.end_ t - position_ (stream_hook_ s)
  /\ CLIToken.end_ t - position_ (stream_hook_ s)
     = Report.size (Hook.getConsumedTokens (stream_hook_ s)).
Proof.
  intros Hwf Hok. pose proof (tok_ok_le t s Hok) as Hle.
  destruct Hok as (Hcp & Hend & _).
  unfold Report.highlight_begin, Report.highlight_end, Hook.getPosition.
  rewrite size_getConsumedTokens. unfold wf, cp, sp in *. lia.
Qed.

(** C5.  For every diagnostic that [parseCommand] raises in a parsing
    session (the reporter shows the source), the message is the message
    line followed by the snippet whose highlight is the token's span
    [begin - checkpoint, end - checkpoint) clamped to the buffer; that
    span lies within the buffer, so the highlight is the offending token's
    own span in buffer coordinates.  And the snippet is never a second
    error: a range out of order gives the empty snippet. *)
Theorem snippet_highlights_offending_token :
  (forall lf fuel s d what s',
      in_session s ->
      parseCommand lf fuel s = Throw (ParseError d what) s' ->
      let t := offending d in
      let h := stream_hook_ s' in
      exists snippet,
        span_snippet h t = Some snippet
        /\ what = Report.headline d ++ Report.NL ++ snippet
        /\ Report.render h (CLIToken.begin t - Hook.getPosition h)
                           (CLIToken.end_ t - Hook.getPosition h) = Some snippet
        /\ 0 <= CLIToken.begin t - Hook.getPosition h
             <= CLIToken.end_ t - Hook.getPosition h
        /\ CLIToken.end_ t - Hook.getPosition h
           <= Report.size (Hook.getConsumedTokens h))
  /\ (forall h begin end_,
         exists text,
           Report.getSourceSnippetReport h begin end_ = Some text
           /\ (Report.highlight_end h end_ < Report.highlight_begin h begin ->
               text = "")).
Proof.
  split.
  - intros lf fuel s d what s' Hs E t h.
    pose proof (parseCommand_spec lf fuel s (in_session_Inv s Hs)) as H.
    rewrite E in H. simpl in H.
    destruct (raised_ParseError _ _ _ H) as (He & [Hwf _] & Hlt & Hok).
    destruct (error_ParseError_inv _ _ _ _ _ (eq_sym He)) as [_ Hsn].
    destruct (Hsn eq_refl) as [snippet [Hget Hwhat]].
    destruct (highlight_of_delivered_token _ _ Hwf Hok) as (Hb & Hend & Hrange & Hsize).
    fold t in Hget, Hb, Hend, Hrange, Hsize. fold h in Hget, Hb, Hend, Hrange, Hsize.
    unfold Report.getSourceSnippetReport in Hget. rewrite Hb, Hend in Hget.
    change (position_ h) with (Hook.getPosition h) in *.
    destruct (CLIToken.end_ t - Hook.getPosition h <? CLIToken.begin t - Hook.getPosition h)
      eqn:Hlt'; [apply Z.ltb_lt in Hlt'; lia|].
    exists snippet. split; [|split; [exact Hwhat|split; [exact Hget|split; [exact Hrange|lia]]]].
    unfold span_snippet.
    rewrite (Z.max_l _ 0) by lia. rewrite Z.min_l by lia.
    rewrite Hlt'. exact Hget.
  - intros h begin end_. unfold Report.getSourceSnippetReport.
    destruct (Report.highlight_end h end_ <? Report.highlight_begin h begin) eqn:Hlt.
    + exists "". split; [reflexivity|]. reflexivity.
    + apply Z.ltb_ge in Hlt.
      destruct (render_total h (Report.highlight_begin h begin)
                  (Report.highlight_end h end_)) as [text Ht].
      * unfold Report.highlight_begin in *. lia.
      * unfold Report.highlight_end. lia.
      * exists text. split; [exact Ht|]. intros; lia.
Qed.

Lemma snippet_highlights_offending_token_witness :
  exists what s' snippet,
    parseCommand 16 16 (parser_on ("cmd }" ++ Report.NL))
    = Throw (ParseError (MismatchedToken (CLIToken.mk CLIToken.RightCurly "}" 4 5))
                        what) s'
    /\ Report.render (stream_hook_ s') 4 5 = Some snippet
    /\ snippet = "  1 | cmd " ++ Report.RED ++ "}" ++ Report.RESET.
Proof.
  eexists. eexists.
  assert (E : parseCommand 16 16 (parser_on ("cmd }" ++ Report.NL))
              = Throw (ParseError
                         (MismatchedToken (CLIToken.mk CLIToken.RightCurly "}" 4 5))
                         _) _) by (vm_compute; reflexivity).
  destruct (proj1 snippet_highlights_offending_token 16%nat 16%nat _ _ _ _
              (session_start _) E) as [snippet (_ & _ & Hr & _)].
  exists snippet. split; [exact E|]. split; [exact Hr|].
  vm_compute in Hr. injection Hr as <-. reflexivity.
Defined.

(** ** Vectors *)

Lemma peek_then_next lf s t s1 :
  nextToken lf s = Ok t s1 ->
  peekToken lf s = Ok t (mkParser (stream_hook_ s1) (Some t))
  /\ nextToken lf (mkParser (stream_hook_ s1) (Some t)) = Ok t s1.
Proof.
  intros H. split; [exact (peek_of_next _ _ _ _ H)|].
  apply next_of_primed. exact (nextToken_unpeeked _ _ _ _ H).
Qed.

Lemma isNumber_cases t :
  isNumber t = true ->
  (CLIToken.type t = CLIToken.Integer /\ isInteger t = true)
  \/ (CLIToken.type t = CLIToken.Float /\ isInteger t = false).
Proof.
  unfold isNumber, isInteger. destruct (CLIToken.type t); try discriminate; auto.
Qed.

(** One turn of the number-list loop on a number, where a number is due. *)
Lemma loop_takes_number lf fuel first_number tokens integer_vector s n s1 :
  nextToken lf s = Ok n s1 ->
  isNumber n = true ->
  parseNumberList_loop lf (S fuel) true first_number tokens integer_vector s
  = parseNumberList_loop lf fuel false false (tokens ++ [n])
                         (integer_vector && isInteger n) s1.
Proof.
  intros Hn Hnum. destruct (peek_then_next _ _ _ _ Hn) as [Hpeek Hnext].
  simpl. rewrite (bind_Ok _ _ _ _ _ Hpeek).
  destruct (isNumber_cases n Hnum) as [[-> ->]|[-> ->]]; simpl;
    rewrite (bind_Ok _ _ _ _ _ Hnext).
  - rewrite andb_true_r. reflexivity.
  - rewrite andb_false_r. reflexivity.
Qed.

(** One turn on a comma, where a comma is due. *)
Lemma loop_takes_comma lf fuel first_number tokens integer_vector s c s1 :
  nextToken lf s = Ok c s1 ->
  CLIToken.type c = CLIToken.Comma ->
  parseNumberList_loop lf (S fuel) false first_number tokens integer_vector s
  = parseNumberList_loop lf fuel true first_number tokens integer_vector s1.
Proof.
  intros Hc Ht. destruct (peek_then_next _ _ _ _ Hc) as [Hpeek Hnext].
  simpl. rewrite (bind_Ok _ _ _ _ _ Hpeek), Ht. simpl.
  rewrite (bind_Ok _ _ _ _ _ Hnext). reflexivity.
Qed.

(** The turn that ends the list. *)
Lemma loop_ends lf fuel tokens integer_vector s t s1 :
  nextToken lf s = Ok t s1 ->
  CLIToken.type t <> CLIToken.Comma ->
  (isNumber t = true -> List.length tokens <> 1%nat) ->
  parseNumberList_loop lf (S fuel) false false tokens integer_vector s
  = returnVector integer_vector tokens (mkParser (stream_hook_ s1) (Some t)).
Proof.
  intros Hn Ht Hlen. destruct (peek_then_next _ _ _ _ Hn) as [Hpeek _].
  simpl. rewrite (bind_Ok _ _ _ _ _ Hpeek).
  unfold isNumber in Hlen. unfold size_is_1.
  destruct (CLIToken.type t); try reflexivity; try contradiction;
    simpl; destruct (Nat.eqb_spec (List.length tokens) 1); try reflexivity;
    exfalso; exact (Hlen eq_refl e).
Qed.

(** The loop over a whole comma-separated list. *)
Lemma loop_reads_list lf ts numbers :
  comma_separated ts numbers ->
  forall fuel first_number tokens integer_vector s s2 t s3,
    upcoming lf ts s s2 ->
    nextToken lf s2 = Ok t s3 ->
    CLIToken.type t <> CLIToken.Comma ->
    (isNumber t = true -> List.length (tokens ++ numbers) <> 1%nat) ->
    (List.length ts < fuel)%nat ->
    parseNumberList_loop lf fuel true first_number tokens integer_vector s
    = returnVector (integer_vector && forallb isInteger numbers)
                   (tokens ++ numbers)
                   (mkParser (stream_hook_ s3) (Some t)).
Proof.
  induction 1 as [n Hn|n c ts numbers Hn Hc Hcs IH];
    intros fuel first_number tokens integer_vector s s2 t s3 Hup Hend Ht Hlen Hfuel.
  - destruct Hup as [s1 [Hnext <-]]. simpl in Hfuel.
    destruct fuel as [|[|fuel]]; try lia.
    rewrite (loop_takes_number _ _ _ _ _ _ _ _ Hnext Hn).
    rewrite (loop_ends _ _ _ _ _ _ _ Hend Ht Hlen).
    simpl. rewrite andb_true_r. reflexivity.
  - destruct Hup as [s1 [Hnext [s1' [Hcomma Hup]]]]. simpl in Hfuel.
    destruct fuel as [|[|fuel]]; try lia.
    rewrite (loop_takes_number _ _ _ _ _ _ _ _ Hnext Hn).
    rewrite (loop_takes_comma _ _ _ _ _ _ _ _ Hcomma Hc).
    rewrite (IH fuel false (tokens ++ [n])%list (integer_vector && isInteger n)
                s1' s2 t s3 Hup Hend Ht).
    + rewrite <- app_assoc. simpl. rewrite andb_assoc. reflexivity.
    + rewrite <- app_assoc. exact Hlen.
    + lia.
Qed.

Lemma integerVectorData_all_some tokens v s :
  all_some integer_of tokens = Some v -> integerVectorData tokens s = Ok v s.
Proof.
  revert v; induction tokens as [|t r IH]; simpl; intros v H.
  - injection H as <-. reflexivity.
  - unfold integer_of in H at 1.
    destruct (CLIToken.type t); try discriminate H.
    destruct (StdNum.stoll (CLIToken.value t)) as [i|] eqn:Hi; [|discriminate H].
    destruct (all_some integer_of r) as [l0|]; [|discriminate H].
    injection H as <-. unfold stoll, bind. rewrite Hi. simpl.
    rewrite (IH l0 eq_refl). reflexivity.
Qed.

Lemma floatVectorData_all_some tokens v s :
  all_some double_of tokens = Some v -> floatVectorData tokens s = Ok v s.
Proof.
  revert v; induction tokens as [|t r IH]; simpl; intros v H.
  - injection H as <-. reflexivity.
  - unfold double_of in H at 1.
    destruct (CLIToken.type t); try discriminate H.
    + destruct (StdNum.stoll (CLIToken.value t)) as [i|] eqn:Hi; [|discriminate H].
      simpl in H. destruct (all_some double_of r) as [ds|]; [|discriminate H].
      injection H as <-. unfold stoll, bind. rewrite Hi. simpl.
      rewrite (IH ds eq_refl). reflexivity.
    + destruct (StdNum.stod (CLIToken.value t)) as [d|] eqn:Hd; [|discriminate H].
      destruct (all_some double_of r) as [ds|]; [|discriminate H].
      injection H as <-. unfold stod, bind. rewrite Hd. simpl.
      rewrite (IH ds eq_refl). reflexivity.
Qed.

Lemma returnVector_promoted numbers v s :
  promoted numbers = Some v ->
  returnVector (forallb isInteger numbers) numbers s = Ok v s.
Proof.
  unfold promoted, returnVector. destruct (forallb isInteger numbers).
  - destruct (all_some integer_of numbers) as [l|] eqn:Hl; [|discriminate].
    intros H; injection H as <-. unfold bind.
    rewrite (integerVectorData_all_some _ _ s Hl). reflexivity.
  - destruct (all_some double_of numbers) as [l|] eqn:Hl; [|discriminate].
    intros H; injection H as <-. unfold bind.
    rewrite (floatVectorData_all_some _ _ s Hl). reflexivity.
Qed.

Lemma all_integers_as_doubles numbers ds :
  forallb isInteger numbers = true ->
  all_some double_of numbers = Some ds ->
  exists l, all_some integer_of numbers = Some l
            /\ ds = List.map StdNum.double_of_int64 l.
Proof.
  revert ds; induction numbers as [|t r IH]; simpl; intros ds Hall H.
  - injection H as <-. exists []. auto.
  - apply andb_true_iff in Hall. destruct Hall as [Ht Hr].
    unfold isInteger in Ht. apply Type_eqb_eq in Ht.
    unfold double_of in H at 1. unfold integer_of at 1. rewrite Ht in *.
    destruct (StdNum.stoll (CLIToken.value t)) as [i|]; [|discriminate H].
    simpl in H. destruct (all_some double_of r) as [ds'|] eqn:Hds; [|discriminate H].
    injection H as <-. destruct (IH ds' Hr eq_refl) as [l [-> ->]].
    exists (i :: l). auto.
Qed.

Lemma promoted_integers numbers l :
  forallb isInteger numbers = true ->
  all_some integer_of numbers = Some l ->
  promoted numbers
  = Some (Argument.mk Argument.IntegerVector (Argument.IntegerVectorData l)).
Proof. unfold promoted. intros -> ->. reflexivity. Qed.

Lemma promoted_doubles numbers l :
  forallb isInteger numbers = false ->
  all_some double_of numbers = Some l ->
  promoted numbers
  = Some (Argument.mk Argument.FloatVector (Argument.FloatVectorData l)).
Proof. unfold promoted. intros -> ->. reflexivity. Qed.

Lemma stoll_Ok text i s : StdNum.stoll text = Some i -> stoll text s = Ok i s.
Proof. unfold stoll. intros ->. reflexivity. Qed.

Lemma stod_Ok text d s : StdNum.stod text = Some d -> stod text s = Ok d s.
Proof. unfold stod. intros ->. reflexivity. Qed.

Lemma promoted_cons_inv n rest v :
  promoted (n :: rest) = Some v ->
  (isInteger n = true /\ forallb isInteger rest = true
   /\ exists i l,
       integer_of n = Some i /\ all_some integer_of rest = Some l
       /\ v = Argument.mk Argument.IntegerVector (Argument.IntegerVectorData (i :: l)))
  \/ ((isInteger n = false \/ forallb isInteger rest = false)
      /\ exists d ds,
          double_of n = Some d /\ all_some double_of rest = Some ds
          /\ v = Argument.mk Argument.FloatVector (Argument.FloatVectorData (d :: ds))).
Proof.
  unfold promoted. cbn [forallb all_some].
  destruct (isInteger n), (forallb isInteger rest); cbn [andb];
    [ destruct (integer_of n) as [i|], (all_some integer_of rest) as [l|]
    | destruct (double_of n) as [d|], (all_some double_of rest) as [ds|] ..];
    intros H; try discriminate H; injection H as <-;
    [ left; split; [reflexivity|split; [reflexivity|]]; exists i, l; auto
    | right; split; [auto|]; exists d, ds; auto .. ].
Qed.

Lemma integer_of_Integer n i :
  CLIToken.type n = CLIToken.Integer ->
  integer_of n = Some i -> StdNum.stoll (CLIToken.value n) = Some i.
Proof. unfold integer_of. intros ->. auto. Qed.

Lemma double_of_Integer n d :
  CLIToken.type n = CLIToken.Integer ->
  double_of n = Some d ->
  exists i, StdNum.stoll (CLIToken.value n) = Some i
            /\ d = StdNum.double_of_int64 i.
Proof.
  unfold double_of. intros ->.
  destruct (StdNum.stoll (CLIToken.value n)) as [i|]; [|discriminate].
  intros H; injection H as <-. exists i. auto.
Qed.

Lemma double_of_Float n d :
  CLIToken.type n = CLIToken.Float ->
  double_of n = Some d -> StdNum.stod (CLIToken.value n) = Some d.
Proof. unfold double_of. intros ->. auto. Qed.

Lemma returnVector_as_promoted integer_vector numbers v s :
  forallb isInteger numbers = integer_vector ->
  promoted numbers = Some v ->
  returnVector integer_vector numbers s = Ok v s.
Proof. intros <-. apply returnVector_promoted. Qed.

(** A bare vector: the leading number and its comma are taken by
    [parseArgument], the rest by [parseNumberList]. *)
Lemma parseArgument_bare_vector lf fuel s n c ts rest t s1 s1' s2 s3 v :
  nextToken lf s = Ok n s1 ->
  isNumber n = true ->
  nextToken lf s1 = Ok c s1' ->
  CLIToken.type c = CLIToken.Comma ->
  comma_separated ts rest ->
  upcoming lf ts s1' s2 ->
  nextToken lf s2 = Ok t s3 ->
  CLIToken.type t <> CLIToken.Comma ->
  (isNumber t = true -> (2 <= List.length rest)%nat) ->
  promoted (n :: rest) = Some v ->
  (List.length ts < fuel)%nat ->
  parseArgument lf fuel s = Ok v (mkParser (stream_hook_ s3) (Some t)).
Proof.
  intros Hn Hnum Hc Hcomma Hcs Hup Hend Ht Hlen Hv Hfuel.
  destruct (peek_then_next _ _ _ _ Hn) as [Hpeek Hnext].
  destruct (peek_then_next _ _ _ _ Hc) as [Hpeekc Hnextc].
  assert (Hlist :
    parseNumberList lf fuel s1'
    = returnVector (forallb isInteger rest) rest
                   (mkParser (stream_hook_ s3) (Some t))).
  { unfold parseNumberList.
    rewrite (loop_reads_list lf ts rest Hcs fuel true [] true s1' s2 t s3 Hup Hend Ht);
      [reflexivity| |exact Hfuel].
    simpl. intros H. specialize (Hlen H). lia. }
  unfold parseArgument. rewrite (bind_Ok _ _ _ _ _ Hpeek).
  destruct (isNumber_cases n Hnum) as [[Hty Hint]|[Hty Hint]];
    rewrite Hty; cbv iota;
    rewrite (bind_Ok _ _ _ _ _ Hnext), (bind_Ok _ _ _ _ _ Hpeekc), Hcomma;
    cbn [CLIToken.Type_eqb];
    rewrite (bind_Ok _ _ _ _ _ Hnextc); unfold bind at 1; rewrite Hlist;
    destruct (promoted_cons_inv n rest v Hv)
      as [(Hn1 & Hall & i & l & Hi & Hl & ->)|(Hsome & d & ds & Hd & Hds & ->)].
  - (* an Integer in front of Integers *)
    rewrite Hall.
    rewrite (returnVector_as_promoted _ rest _ _ Hall (promoted_integers rest l Hall Hl)).
    cbn [Argument.type Argument.data].
    rewrite (bind_Ok _ _ _ _ _ (stoll_Ok _ _ _ (integer_of_Integer n i Hty Hi))).
    reflexivity.
  - (* an Integer in front of a list with a Float *)
    destruct Hsome as [Hsome|Hall]; [congruence|].
    destruct (double_of_Integer n d Hty Hd) as [i [Hi ->]].
    rewrite Hall.
    rewrite (returnVector_as_promoted _ rest _ _ Hall (promoted_doubles rest ds Hall Hds)).
    cbn [Argument.type Argument.data].
    rewrite (bind_Ok _ _ _ _ _ (stoll_Ok _ _ _ Hi)). reflexivity.
  - congruence.
  - (* a Float in front *)
    pose proof (double_of_Float n d Hty Hd) as Hd'.
    destruct (forallb isInteger rest) eqn:Hall.
    + destruct (all_integers_as_doubles rest ds Hall Hds) as [l [Hl ->]].
      rewrite (returnVector_as_promoted _ rest _ _ Hall (promoted_integers rest l Hall Hl)).
      cbn [Argument.type Argument.data].
      rewrite (bind_Ok _ _ _ _ _ (stod_Ok _ _ _ Hd')). reflexivity.
    + rewrite (returnVector_as_promoted _ rest _ _ Hall (promoted_doubles rest ds Hall Hds)).
      cbn [Argument.type Argument.data].
      rewrite (bind_Ok _ _ _ _ _ (stod_Ok _ _ _ Hd')). reflexivity.
Qed.

(** A vector between parentheses or brackets. *)
Lemma parseArgument_delimited_vector lf fuel s opener closer ts numbers s1 s2 s3 v :
  nextToken lf s = Ok opener s1 ->
  (CLIToken.type opener = CLIToken.LeftParen
   /\ CLIToken.type closer = CLIToken.RightParen)
  \/ (CLIToken.type opener = CLIToken.LeftBracket
      /\ CLIToken.type closer = CLIToken.RightBracket) ->
  comma_separated ts numbers ->
  upcoming lf ts s1 s2 ->
  nextToken lf s2 = Ok closer s3 ->
  promoted numbers = Some v ->
  (List.length ts < fuel)%nat ->
  parseArgument lf fuel s = Ok v s3.
Proof.
  intros Hopen Hforms Hcs Hup Hclose Hv Hfuel.
  destruct (peek_then_next _ _ _ _ Hopen) as [Hpeek Hnext].
  pose proof (next_of_primed lf s3 closer (nextToken_unpeeked _ _ _ _ Hclose)) as Hnextc.
  assert (Hlist :
    parseNumberList lf fuel s1
    = Ok v (mkParser (stream_hook_ s3) (Some closer))).
  { unfold parseNumberList.
    rewrite (loop_reads_list lf ts numbers Hcs fuel true [] true s1 s2 closer s3
               Hup Hclose).
    - apply returnVector_promoted. exact Hv.
    - destruct Hforms as [[_ ->]|[_ ->]]; discriminate.
    - unfold isNumber. destruct Hforms as [[_ ->]|[_ ->]]; discriminate.
    - exact Hfuel. }
  unfold parseArgument. rewrite (bind_Ok _ _ _ _ _ Hpeek).
  destruct Hforms as [[Ho Hc]|[Ho Hc]]; rewrite Ho; cbv iota;
    unfold parseVector;
    rewrite (bind_Ok _ _ _ _ _
               (peekToken_cached lf (mkParser (stream_hook_ s1) (Some opener))
                  opener eq_refl)), Ho; cbv iota;
    rewrite (bind_Ok _ _ _ _ _ Hnext), (bind_Ok _ _ _ _ _ Hlist),
            (bind_Ok _ _ _ _ _ Hnextc), Hc; reflexivity.
Qed.

(** C1.  A comma-separated list of number tokens, bare or between
    parentheses or brackets, parses as one argument: the IntegerVector of
    the integers when every token is an Integer, and otherwise the
    FloatVector of the values, every Integer token among them (the leading
    one of a bare list included) converted to floating point.  So [1,2,3]
    is the IntegerVector 1, 2, 3; [1,2.5,3] the FloatVector 1.0, 2.5, 3.0;
    and [2.0,1] the FloatVector 2.0, 1.0. *)
Theorem vector_promotion :
  (forall lf fuel form opening ts numbers closer s s1 s2 s3 v,
      opens_vector form opening ->
      comma_separated ts numbers ->
      (form = Bare -> (2 <= List.length numbers)%nat) ->
      ends_vector form numbers closer ->
      upcoming lf opening s s1 ->
      upcoming lf ts s1 s2 ->
      nextToken lf s2 = Ok closer s3 ->
      promoted numbers = Some v ->
      (List.length ts < fuel)%nat ->
      parseArgument lf fuel s = Ok v (after_vector form closer s3))
  /\ (exists s',
        parseArgument 8 8 (parser_on "1,2,3") =
          Ok (Argument.mk Argument.IntegerVector
                (Argument.IntegerVectorData [1; 2; 3])) s')
  /\ (exists s',
        parseArgument 8 8 (parser_on "1,2.5,3") =
          Ok (Argument.mk Argument.FloatVector
                (Argument.FloatVectorData [1; 2.5; 3]%float)) s')
  /\ (exists s',
        parseArgument 8 8 (parser_on "2.0,1") =
          Ok (Argument.mk Argument.FloatVector
                (Argument.FloatVectorData [2; 1]%float)) s').
Proof.
  split; [|split; [|split]].
  - intros lf fuel form opening ts numbers closer s s1 s2 s3 v
           Hopens Hcs Htwo Hends Hup1 Hup2 Hclose Hv Hfuel.
    destruct form; simpl in Hopens, Hends |- *.
    + (* bare *)
      subst opening. simpl in Hup1. subst s1.
      specialize (Htwo eq_refl).
      destruct Hcs as [n Hn|n c ts numbers Hn Hc Hcs]; [simpl in Htwo; lia|].
      destruct Hup2 as [sa [Hnext [sb [Hcomma Hup]]]].
      destruct Hends as [Hnc Hthree].
      apply (parseArgument_bare_vector lf fuel s n c ts numbers closer sa sb s2 s3 v);
        auto.
      * intros H. specialize (Hthree H). simpl in Hthree. lia.
      * simpl in Hfuel. lia.
    + (* parentheses *)
      destruct Hopens as [opener [-> Hopener]].
      destruct Hup1 as [sa [Hnext <-]].
      apply (parseArgument_delimited_vector lf fuel s opener closer ts numbers sa s2 s3 v);
        auto.
    + (* brackets *)
      destruct Hopens as [opener [-> Hopener]].
      destruct Hup1 as [sa [Hnext <-]].
      apply (parseArgument_delimited_vector lf fuel s opener closer ts numbers sa s2 s3 v);
        auto.
  - eexists. vm_compute. reflexivity.
  - eexists. vm_compute. reflexivity.
  - eexists. vm_compute. reflexivity.
Qed.

Lemma vector_promotion_witness :
  exists s',
    parseArgument 8 8 (parser_on "1,2.5") =
      Ok (Argument.mk Argument.FloatVector (Argument.FloatVectorData [1; 2.5]%float)) s'.
Proof.
  eexists.
  eapply (proj1 vector_promotion 8%nat 8%nat Bare []
            [CLIToken.mk CLIToken.Integer "1" 0 1;
             CLIToken.mk CLIToken.Comma "," 1 2;
             CLIToken.mk CLIToken.Float "2.500000" 2 5]
            [CLIToken.mk CLIToken.Integer "1" 0 1;
             CLIToken.mk CLIToken.Float "2.500000" 2 5]
            (CLIToken.mk CLIToken.EndOfFile "" 5 5)).
  - reflexivity.
  - apply cs_more; [reflexivity|reflexivity|apply cs_one; reflexivity].
  - intros _. simpl. lia.
  - split; [discriminate|intros H; discriminate H].
  - reflexivity.
  - simpl. eexists. split; [vm_compute; reflexivity|].
    eexists. split; [vm_compute; reflexivity|].
    eexists. split; [vm_compute; reflexivity|]. reflexivity.
  - vm_compute. reflexivity.
  - vm_compute. reflexivity.
  - simpl. lia.
Defined.

(** ** Numbers that follow each other *)

Lemma bind_Throw {A B} (m : M A) (k : A -> M B) s e s' :
  m s = Throw e s' -> bind m k s = Throw e s'.
Proof. unfold bind; intros ->; reflexivity. Qed.

Lemma loop_reaches_comma lf ts numbers :
  comma_separated ts numbers ->
  forall fuel first_number tokens integer_vector s s2 c s3,
    upcoming lf ts s s2 ->
    nextToken lf s2 = Ok c s3 ->
    CLIToken.type c = CLIToken.Comma ->
    parseNumberList_loop lf (List.length ts + 1 + fuel) true first_number tokens
                         integer_vector s
    = parseNumberList_loop lf fuel true false (tokens ++ numbers)
                           (integer_vector && forallb isInteger numbers) s3.
Proof.
  induction 1 as [n Hn|n c0 ts numbers Hn Hc0 Hcs IH];
    intros fuel first_number tokens integer_vector s s2 c s3 Hup Hc Hcomma.
  - destruct Hup as (s1 & Hn1 & <-).
    cbn [List.length Nat.add].
    rewrite (loop_takes_number lf _ first_number tokens integer_vector s n s1 Hn1 Hn).
    rewrite (loop_takes_comma lf _ false _ _ s1 c s3 Hc Hcomma).
    cbn [forallb]. rewrite andb_true_r. reflexivity.
  - destruct Hup as (s1 & Hn1 & s1' & Hc1 & Hup).
    cbn [List.length Nat.add].
    rewrite (loop_takes_number lf _ first_number tokens integer_vector s n s1 Hn1 Hn).
    rewrite (loop_takes_comma lf _ false _ _ s1 c0 s1' Hc1 Hc0).
    rewrite (IH fuel false (tokens ++ [n])%list _ s1' s2 c s3 Hup Hc Hcomma).
    rewrite <- app_assoc. cbn [forallb app]. rewrite andb_assoc. reflexivity.
Qed.

Lemma loop_wants_number lf fuel first_number tokens integer_vector s t s1 :
  nextToken lf s = Ok t s1 ->
  isNumber t = false ->
  parseNumberList_loop lf (S fuel) true first_number tokens integer_vector s
  = Throw (Report.error error_reporter_ (stream_hook_ s1)
             (UnexpectedTokenText "number" t)) s1.
Proof.
  intros Hn Hnum.
  destruct (peek_then_next _ _ _ _ Hn) as [Hpeek Hnext].
  simpl. rewrite (bind_Ok _ _ _ _ _ Hpeek).
  unfold isNumber in Hnum.
  destruct (CLIToken.type t); try discriminate;
    try destruct first_number;
    rewrite (bind_Ok _ _ _ _ _ Hnext); reflexivity.
Qed.

(** The turn that refuses a second number: with one token held and a
    comma due, a number is taken and reported. *)
Lemma loop_refuses_number lf fuel first_number n integer_vector s t s1 :
  nextToken lf s = Ok t s1 ->
  isNumber t = true ->
  parseNumberList_loop lf (S fuel) false first_number [n] integer_vector s
  = Throw (Report.error error_reporter_ (stream_hook_ s1)
             (UnexpectedToken CLIToken.Comma t)) s1.
Proof.
  intros Hn Hnum. destruct (peek_then_next _ _ _ _ Hn) as [Hpeek Hnext].
  simpl. rewrite (bind_Ok _ _ _ _ _ Hpeek).
  destruct (isNumber_cases t Hnum) as [[-> _]|[-> _]]; simpl;
    rewrite (bind_Ok _ _ _ _ _ Hnext); reflexivity.
Qed.

Lemma parseNumberList_refuses_number lf fuel s n t s1 s2 :
  nextToken lf s = Ok n s1 ->
  isNumber n = true ->
  nextToken lf s1 = Ok t s2 ->
  isNumber t = true ->
  (1 < fuel)%nat ->
  parseNumberList lf fuel s
  = Throw (Report.error error_reporter_ (stream_hook_ s2)
             (UnexpectedToken CLIToken.Comma t)) s2.
Proof.
  intros Hn Hnum Ht Htnum Hfuel. destruct fuel as [|[|fuel]]; try lia.
  unfold parseNumberList.
  rewrite (loop_takes_number _ _ _ _ _ _ _ _ Hn Hnum).
  apply loop_refuses_number; assumption.
Qed.

Lemma parseNumberList_wants_number lf fuel s ts numbers c s1 s2 t s3 :
  comma_separated ts numbers ->
  upcoming lf ts s s1 ->
  nextToken lf s1 = Ok c s2 ->
  CLIToken.type c = CLIToken.Comma ->
  nextToken lf s2 = Ok t s3 ->
  isNumber t = false ->
  (List.length ts + 1 < fuel)%nat ->
  parseNumberList lf fuel s
  = Throw (Report.error error_reporter_ (stream_hook_ s3)
             (UnexpectedTokenText "number" t)) s3.
Proof.
  intros Hcs Hup Hc Hcomma Ht Hnum Hfuel. unfold parseNumberList.
  replace fuel with (List.length ts + 1 + S (fuel - List.length ts - 2))%nat by lia.
  rewrite (loop_reaches_comma lf ts numbers Hcs _ true [] true
             s s1 c s2 Hup Hc Hcomma).
  apply loop_wants_number; assumption.
Qed.

(** A bare list: what [parseNumberList] throws behind the leading number
    and its comma, [parseArgument] throws. *)
Lemma parseArgument_bare_throws lf fuel s n c s1 s2 e s' :
  nextToken lf s = Ok n s1 ->
  isNumber n = true ->
  nextToken lf s1 = Ok c s2 ->
  CLIToken.type c = CLIToken.Comma ->
  parseNumberList lf fuel s2 = Throw e s' ->
  parseArgument lf fuel s = Throw e s'.
Proof.
  intros Hn Hnum Hc Hcomma Hlist.
  destruct (peek_then_next _ _ _ _ Hn) as [Hpeek Hnext].
  destruct (peek_then_next _ _ _ _ Hc) as [Hpeekc Hnextc].
  unfold parseArgument. rewrite (bind_Ok _ _ _ _ _ Hpeek).
  destruct (isNumber_cases n Hnum) as [[Hty _]|[Hty _]];
    rewrite Hty; cbv iota;
    rewrite (bind_Ok _ _ _ _ _ Hnext), (bind_Ok _ _ _ _ _ Hpeekc), Hcomma;
    cbn [CLIToken.Type_eqb];
    rewrite (bind_Ok _ _ _ _ _ Hnextc);
    apply bind_Throw; exact Hlist.
Qed.

(** A list behind an opening delimiter: [parseArgument] hands over to
    [parseVector], which takes the opener, reads the list and wants the
    matching closer. *)
Lemma parseArgument_opened lf fuel s opener expected s1 :
  nextToken lf s = Ok opener s1 ->
  closer_of (CLIToken.type opener) = Some expected ->
  parseArgument lf fuel s
  = (arg <- parseNumberList lf fuel ;;
     token <- nextToken lf ;;
     if CLIToken.Type_eqb (CLIToken.type token) expected
     then ret arg
     else raise (UnexpectedToken expected token)) s1.
Proof.
  intros Hopen Hcloser.
  destruct (peek_then_next _ _ _ _ Hopen) as [Hpeek Hnext].
  unfold parseArgument. rewrite (bind_Ok _ _ _ _ _ Hpeek).
  unfold closer_of in Hcloser.
  destruct (CLIToken.type opener) eqn:Ho; try discriminate;
    injection Hcloser as <-;
    unfold parseVector;
    rewrite (bind_Ok _ _ _ _ _
               (peekToken_cached lf (mkParser (stream_hook_ s1) (Some opener))
                  opener eq_refl)), Ho; cbv iota;
    rewrite (bind_Ok _ _ _ _ _ Hnext); reflexivity.
Qed.

Lemma opens_vector_closer form opening lf s s1 :
  opens_vector form opening ->
  upcoming lf opening s s1 ->
  match form with
  | Bare => s = s1
  | InParens =>
      exists opener, nextToken lf s = Ok opener s1
                     /\ closer_of (CLIToken.type opener) = Some CLIToken.RightParen
  | InBrackets =>
      exists opener, nextToken lf s = Ok opener s1
                     /\ closer_of (CLIToken.type opener) = Some CLIToken.RightBracket
  end.
Proof.
  destruct form; simpl.
  - intros -> H. exact H.
  - intros (o & -> & Ho) (sa & Hn & <-). exists o. rewrite Ho. auto.
  - intros (o & -> & Ho) (sa & Hn & <-). exists o. rewrite Ho. auto.
Qed.

(** What a number does where a list between delimiters expects a comma. *)
Lemma delimited_list_then_number lf fuel s opener expected ts numbers t s1 s2 s3 :
  nextToken lf s = Ok opener s1 ->
  closer_of (CLIToken.type opener) = Some expected ->
  comma_separated ts numbers ->
  upcoming lf ts s1 s2 ->
  nextToken lf s2 = Ok t s3 ->
  isNumber t = true ->
  (List.length ts < fuel)%nat ->
  (List.length numbers = 1%nat ->
   parseArgument lf fuel s
   = Throw (Report.error error_reporter_ (stream_hook_ s3)
              (UnexpectedToken CLIToken.Comma t)) s3)
  /\ (forall v,
         (2 <= List.length numbers)%nat ->
         promoted numbers = Some v ->
         parseArgument lf fuel s
         = Throw (Report.error error_reporter_ (stream_hook_ s3)
                    (UnexpectedToken expected t)) s3).
Proof.
  intros Hopen Hcloser Hcs Hup Ht Hnum Hfuel.
  rewrite (parseArgument_opened lf fuel s opener expected s1 Hopen Hcloser).
  split.
  - intros Hlen. destruct Hcs as [n Hn|n c ts numbers Hn Hc Hcs].
    + destruct Hup as (sa & Hna & <-).
      apply bind_Throw.
      apply (parseNumberList_refuses_number lf fuel s1 n t sa s3); auto.
    + exfalso. inversion Hcs; subst; simpl in Hlen; lia.
  - intros v Hlen Hv.
    pose proof (next_of_primed lf s3 t (nextToken_unpeeked _ _ _ _ Ht)) as Hnextt.
    assert (Hlist :
      parseNumberList lf fuel s1 = Ok v (mkParser (stream_hook_ s3) (Some t))).
    { unfold parseNumberList.
      rewrite (loop_reads_list lf ts numbers Hcs fuel true [] true s1 s2 t s3
                 Hup Ht).
      - apply returnVector_promoted. exact Hv.
      - unfold isNumber in Hnum. intros E. rewrite E in Hnum. discriminate.
      - intros _. simpl. lia.
      - exact Hfuel. }
    assert (Hmis : CLIToken.Type_eqb (CLIToken.type t) expected = false).
    { unfold closer_of in Hcloser. unfold isNumber in Hnum.
      destruct (CLIToken.type opener); try discriminate;
        injection Hcloser as <-; destruct (CLIToken.type t);
        try discriminate; reflexivity. }
    rewrite (bind_Ok _ _ _ _ _ Hlist), (bind_Ok _ _ _ _ _ Hnextt), Hmis.
    reflexivity.
Qed.

(** A lone number that no comma follows is a scalar argument; the token
    after it stays in the lookahead. *)
Lemma lone_number_argument lf fuel s n a s1 t s2 :
  nextToken lf s = Ok n s1 ->
  isNumber n = true ->
  simple_argument n = Some a ->
  nextToken lf s1 = Ok t s2 ->
  CLIToken.type t <> CLIToken.Comma ->
  parseArgument lf fuel s = Ok a (mkParser (stream_hook_ s2) (Some t)).
Proof.
  intros Hn Hnum Ha Ht Hnc.
  destruct (peek_then_next _ _ _ _ Hn) as [Hpeek Hnext].
  destruct (peek_then_next _ _ _ _ Ht) as [Hpeekt _].
  assert (Hcomma : CLIToken.Type_eqb (CLIToken.type t) CLIToken.Comma = false).
  { destruct (CLIToken.Type_eqb (CLIToken.type t) CLIToken.Comma) eqn:E;
      [apply Type_eqb_eq in E; contradiction|reflexivity]. }
  unfold parseArgument. rewrite (bind_Ok _ _ _ _ _ Hpeek).
  unfold simple_argument in Ha.
  destruct (isNumber_cases n Hnum) as [[Hty _]|[Hty _]]; rewrite Hty in *;
    cbv iota; rewrite (bind_Ok _ _ _ _ _ Hnext), (bind_Ok _ _ _ _ _ Hpeekt), Hcomma.
  - destruct (StdNum.stoll (CLIToken.value n)) as [i|] eqn:Ei; [|discriminate].
    injection Ha as <-. rewrite (bind_Ok _ _ _ _ _ (stoll_Ok _ _ _ Ei)).
    reflexivity.
  - destruct (StdNum.stod (CLIToken.value n)) as [d|] eqn:Ed; [|discriminate].
    injection Ha as <-. rewrite (bind_Ok _ _ _ _ _ (stod_Ok _ _ _ Ed)).
    reflexivity.
Qed.

(** What a number does where a bare list expects a comma. *)
Lemma bare_list_then_number lf fuel s ts numbers t s2 s3 :
  comma_separated ts numbers ->
  upcoming lf ts s s2 ->
  nextToken lf s2 = Ok t s3 ->
  isNumber t = true ->
  (List.length ts < fuel)%nat ->
  (forall n a,
      numbers = [n] ->
      simple_argument n = Some a ->
      parseArgument lf fuel s = Ok a (mkParser (stream_hook_ s3) (Some t)))
  /\ (List.length numbers = 2%nat ->
      parseArgument lf fuel s
      = Throw (Report.error error_reporter_ (stream_hook_ s3)
                 (UnexpectedToken CLIToken.Comma t)) s3)
  /\ (forall v,
         (3 <= List.length numbers)%nat ->
         promoted numbers = Some v ->
         parseArgument lf fuel s
         = Ok v (mkParser (stream_hook_ s3) (Some t))).
Proof.
  intros Hcs Hup Ht Hnum Hfuel.
  assert (Hnc : CLIToken.type t <> CLIToken.Comma).
  { unfold isNumber in Hnum. intros E. rewrite E in Hnum. discriminate. }
  split; [|split].
  - intros n a -> Ha.
    inversion Hcs as [m Hm E1 E2|m c ts' numbers' Hm Hc Hcs' E1 E2]; subst;
      [|inversion Hcs'].
    destruct Hup as (sa & Hna & <-).
    exact (lone_number_argument lf fuel s n a sa t s3 Hna Hm Ha Ht Hnc).
  - intros Hlen.
    destruct Hcs as [n Hn|n c ts numbers Hn Hc Hcs]; [discriminate Hlen|].
    destruct Hcs as [m Hm|m c' ts numbers Hm Hc' Hcs];
      [|exfalso; inversion Hcs; subst; simpl in Hlen; lia].
    destruct Hup as (sa & Hna & sb & Hcb & sc & Hmc & <-).
    apply (parseArgument_bare_throws lf fuel s n c sa sb _ _ Hna Hn Hcb Hc).
    apply (parseNumberList_refuses_number lf fuel sb m t sc s3); auto.
    simpl in Hfuel. lia.
  - intros v Hlen Hv.
    destruct Hcs as [n Hn|n c ts numbers Hn Hc Hcs]; [simpl in Hlen; lia|].
    destruct Hup as (sa & Hna & sb & Hcb & Hup).
    apply (parseArgument_bare_vector lf fuel s n c ts numbers t sa sb s2 s3 v);
      auto.
    + intros _. simpl in Hlen. lia.
    + simpl in Hfuel. lia.
Qed.

(** A comma that follows the comma of a list, in any form. *)
Lemma list_then_two_commas lf fuel form opening ts numbers c t s s1 s2 s3 s4 :
  opens_vector form opening ->
  comma_separated ts numbers ->
  upcoming lf opening s s1 ->
  upcoming lf ts s1 s2 ->
  nextToken lf s2 = Ok c s3 ->
  CLIToken.type c = CLIToken.Comma ->
  nextToken lf s3 = Ok t s4 ->
  CLIToken.type t = CLIToken.Comma ->
  (List.length ts + 1 < fuel)%nat ->
  parseArgument lf fuel s
  = Throw (Report.error error_reporter_ (stream_hook_ s4)
             (UnexpectedTokenText "number" t)) s4.
Proof.
  intros Hopens Hcs Hup1 Hup2 Hc Hcomma Ht Htcomma Hfuel.
  assert (Hnum : isNumber t = false) by (unfold isNumber; rewrite Htcomma; reflexivity).
  pose proof (opens_vector_closer form opening lf s s1 Hopens Hup1) as Hform.
  destruct form.
  - subst s1.
    destruct Hcs as [n Hn|n c0 ts numbers Hn Hc0 Hcs].
    + destruct Hup2 as (sa & Hna & <-).
      apply (parseArgument_bare_throws lf fuel s n c sa s3 _ _ Hna Hn Hc Hcomma).
      destruct fuel as [|fuel]; [lia|].
      apply loop_wants_number; assumption.
    + destruct Hup2 as (sa & Hna & sb & Hcb & Hup).
      apply (parseArgument_bare_throws lf fuel s n c0 sa sb _ _ Hna Hn Hcb Hc0).
      apply (parseNumberList_wants_number lf fuel sb ts numbers c s2 s3 t s4);
        auto.
      simpl in Hfuel. lia.
  - destruct Hform as (opener & Hopen & Hcloser).
    rewrite (parseArgument_opened lf fuel s opener _ s1 Hopen Hcloser).
    apply bind_Throw.
    apply (parseNumberList_wants_number lf fuel s1 ts numbers c s2 s3 t s4); auto.
  - destruct Hform as (opener & Hopen & Hcloser).
    rewrite (parseArgument_opened lf fuel s opener _ s1 Hopen Hcloser).
    apply bind_Throw.
    apply (parseNumberList_wants_number lf fuel s1 ts numbers c s2 s3 t s4); auto.
Qed.

(** A comma right behind an opening delimiter. *)
Lemma opener_then_comma lf fuel s opener expected t s1 s2 :
  nextToken lf s = Ok opener s1 ->
  closer_of (CLIToken.type opener) = Some expected ->
  nextToken lf s1 = Ok t s2 ->
  CLIToken.type t = CLIToken.Comma ->
  (0 < fuel)%nat ->
  parseArgument lf fuel s
  = Throw (Report.error error_reporter_ (stream_hook_ s2)
             (UnexpectedTokenText "number" t)) s2.
Proof.
  intros Hopen Hcloser Ht Hcomma Hfuel.
  rewrite (parseArgument_opened lf fuel s opener _ s1 Hopen Hcloser).
  apply bind_Throw. destruct fuel as [|fuel]; [lia|].
  apply loop_wants_number; [exact Ht|].
  unfold isNumber. rewrite Hcomma. reflexivity.
Qed.

(** The argument list after a bare list that a number ends: the list is
    one argument and the number begins the next. *)
Lemma argument_list_after_bare_list lf fuel ts numbers t s s2 s3 v multiline acc :
  comma_separated ts numbers ->
  upcoming lf ts s s2 ->
  nextToken lf s2 = Ok t s3 ->
  isNumber t = true ->
  (3 <= List.length numbers)%nat ->
  promoted numbers = Some v ->
  (List.length ts <= fuel)%nat ->
  parseArgumentList_loop lf (S (S fuel)) multiline acc s
  = (arg <- parseArgument lf fuel ;;
     parseArgumentList_loop lf fuel multiline ((acc ++ [v]) ++ [arg])%list)
      (mkParser (stream_hook_ s3) (Some t)).
Proof.
  intros Hcs Hup Ht Hnum Hlen Hv Hfuel.
  assert (Hhead : exists n r sa, ts = n :: r /\ isNumber n = true
                                 /\ nextToken lf s = Ok n sa
                                 /\ upcoming lf r sa s2).
  { destruct Hcs as [n Hn|n c r numbers Hn Hc Hcs];
      destruct Hup as (sa & Hna & Hup); eexists _, _, sa; eauto. }
  destruct Hhead as (n & r & sa & -> & Hn & Hna & Hup').
  destruct (peek_then_next _ _ _ _ Hna) as [Hpeek Hnext].
  assert (Harg : parseArgument lf (S fuel) (mkParser (stream_hook_ sa) (Some n))
                 = Ok v (mkParser (stream_hook_ s3) (Some t))).
  { apply (proj2 (proj2 (bare_list_then_number lf (S fuel) _ (n :: r) numbers t s2 s3
                    Hcs (ex_intro _ sa (conj Hnext Hup')) Ht Hnum
                    ltac:(simpl in *; lia))) v Hlen Hv). }
  cbn [parseArgumentList_loop]. rewrite (bind_Ok _ _ _ _ _ Hpeek).
  assert (Hturn :
    (arg <- parseArgument lf (S fuel) ;;
     parseArgumentList_loop lf (S fuel) multiline (acc ++ [arg])%list)
      (mkParser (stream_hook_ sa) (Some n))
    = (arg <- parseArgument lf fuel ;;
       parseArgumentList_loop lf fuel multiline ((acc ++ [v]) ++ [arg])%list)
        (mkParser (stream_hook_ s3) (Some t))).
  { rewrite (bind_Ok _ _ _ _ _ Harg). cbn [parseArgumentList_loop].
    rewrite (bind_Ok _ _ _ _ _
               (peekToken_cached lf (mkParser (stream_hook_ s3) (Some t)) t eq_refl)).
    destruct (isNumber_cases t Hnum) as [[-> _]|[-> _]]; reflexivity. }
  destruct (isNumber_cases n Hn) as [[-> _]|[-> _]]; exact Hturn.
Qed.

(** C2, as amended.  A number token where a number list expects a comma:
    in a bare list it is refused, a comma being expected, when the list
    holds exactly two elements (the test counts the numbers read after the
    first comma), and it ends the list when the list holds three or more:
    the vector is one argument, and the argument list goes on to parse its
    next argument from that number.  (A lone number that a number follows
    is no list: it is a scalar argument, and so is the number after it.)
    In a list between parentheses or brackets it is refused, a comma being
    expected, when the list holds exactly one element; when the list holds
    two or more the list ends, and the number is refused for not being the
    closing delimiter.  A comma where a number is due, after another comma
    or right behind the opening delimiter, is always refused, a number
    being expected.  So [(1 2)] is refused at [2], [4] after [1,2,3] is a
    second argument, and [1,,2] is refused at the second comma. *)
Theorem juxtaposed_number_by_form :
  (forall lf fuel form opening ts numbers t s s1 s2 s3,
      opens_vector form opening ->
      comma_separated ts numbers ->
      upcoming lf opening s s1 ->
      upcoming lf ts s1 s2 ->
      nextToken lf s2 = Ok t s3 ->
      isNumber t = true ->
      (List.length ts < fuel)%nat ->
      let refused expected :=
        Throw (Report.error error_reporter_ (stream_hook_ s3)
                 (UnexpectedToken expected t)) s3 in
      match form with
      | Bare =>
          (forall n a,
              numbers = [n] ->
              simple_argument n = Some a ->
              parseArgument lf fuel s = Ok a (after_vector Bare t s3))
          /\ (List.length numbers = 2%nat ->
              parseArgument lf fuel s = refused CLIToken.Comma)
          /\ (forall v,
                 (3 <= List.length numbers)%nat ->
                 promoted numbers = Some v ->
                 parseArgument lf fuel s = Ok v (after_vector Bare t s3)
                 /\ forall multiline acc,
                     parseArgumentList_loop lf (S (S fuel)) multiline acc s
                     = (arg <- parseArgument lf fuel ;;
                        parseArgumentList_loop lf fuel multiline
                          ((acc ++ [v]) ++ [arg])%list)
                         (after_vector Bare t s3))
      | InParens =>
          (List.length numbers = 1%nat ->
           parseArgument lf fuel s = refused CLIToken.Comma)
          /\ (forall v,
                 (2 <= List.length numbers)%nat ->
                 promoted numbers = Some v ->
                 parseArgument lf fuel s = refused CLIToken.RightParen)
      | InBrackets =>
          (List.length numbers = 1%nat ->
           parseArgument lf fuel s = refused CLIToken.Comma)
          /\ (forall v,
                 (2 <= List.length numbers)%nat ->
                 promoted numbers = Some v ->
                 parseArgument lf fuel s = refused CLIToken.RightBracket)
      end)
  /\ (forall lf fuel form opening ts numbers c t s s1 s2 s3 s4,
         opens_vector form opening ->
         comma_separated ts numbers ->
         upcoming lf opening s s1 ->
         upcoming lf ts s1 s2 ->
         nextToken lf s2 = Ok c s3 ->
         CLIToken.type c = CLIToken.Comma ->
         nextToken lf s3 = Ok t s4 ->
         CLIToken.type t = CLIToken.Comma ->
         (List.length ts + 1 < fuel)%nat ->
         parseArgument lf fuel s
         = Throw (Report.error error_reporter_ (stream_hook_ s4)
                    (UnexpectedTokenText "number" t)) s4)
  /\ (forall lf fuel form opening t s s1 s2,
         opens_vector form opening ->
         form <> Bare ->
         upcoming lf opening s s1 ->
         nextToken lf s1 = Ok t s2 ->
         CLIToken.type t = CLIToken.Comma ->
         (0 < fuel)%nat ->
         parseArgument lf fuel s
         = Throw (Report.error error_reporter_ (stream_hook_ s2)
                    (UnexpectedTokenText "number" t)) s2)
  /\ (exists what s',
        parseCommand 16 16 (parser_on ("cmd (1 2)" ++ Report.NL)) =
          Throw (ParseError
                   (UnexpectedToken CLIToken.Comma
                      (CLIToken.mk CLIToken.Integer "2" 7 8)) what) s')
  /\ (exists s',
        parseCommand 16 16 (parser_on ("cmd 1,2,3 4" ++ Report.NL)) =
          Ok (mkCommand "cmd"
                [Argument.mk Argument.IntegerVector
                   (Argument.IntegerVectorData [1; 2; 3]);
                 Argument.mk Argument.Integer (Argument.IntegerData 4)]) s')
  /\ (exists what s',
        parseCommand 16 16 (parser_on ("cmd 1,,2" ++ Report.NL)) =
          Throw (ParseError
                   (UnexpectedTokenText "number"
                      (CLIToken.mk CLIToken.Comma "," 6 7)) what) s').
Proof.
  split; [|split; [|split; [|split; [|split]]]].
  - intros lf fuel form opening ts numbers t s s1 s2 s3
           Hopens Hcs Hup1 Hup2 Ht Hnum Hfuel refused. subst refused.
    pose proof (opens_vector_closer form opening lf s s1 Hopens Hup1) as Hform.
    destruct form.
    + subst s1.
      destruct (bare_list_then_number lf fuel s ts numbers t s2 s3
                  Hcs Hup2 Ht Hnum Hfuel) as (Hone & Htwo & Hmore).
      split; [exact Hone|]. split; [exact Htwo|].
      intros v Hlen Hv. split; [exact (Hmore v Hlen Hv)|].
      intros multiline acc.
      apply (argument_list_after_bare_list lf fuel ts numbers t s s2 s3 v);
        auto. lia.
    + destruct Hform as (opener & Hopen & Hcloser).
      exact (delimited_list_then_number lf fuel s opener _ ts numbers t s1 s2 s3
               Hopen Hcloser Hcs Hup2 Ht Hnum Hfuel).
    + destruct Hform as (opener & Hopen & Hcloser).
      exact (delimited_list_then_number lf fuel s opener _ ts numbers t s1 s2 s3
               Hopen Hcloser Hcs Hup2 Ht Hnum Hfuel).
  - intros lf fuel form opening ts numbers c t s s1 s2 s3 s4.
    apply list_then_two_commas.
  - intros lf fuel form opening t s s1 s2 Hopens Hform Hup Ht Hcomma Hfuel.
    pose proof (opens_vector_closer form opening lf s s1 Hopens Hup) as Hc.
    destruct form; [contradiction| |];
      destruct Hc as (opener & Hopen & Hcloser);
      exact (opener_then_comma lf fuel s opener _ t s1 s2 Hopen Hcloser Ht Hcomma Hfuel).
  - eexists. eexists. vm_compute. reflexivity.
  - eexists. vm_compute. reflexivity.
  - eexists. eexists. vm_compute. reflexivity.
Qed.

Lemma juxtaposed_number_by_form_witness :
  (exists t s',
      parseArgument 8 8 (parser_on "1,2 3")
      = Throw (Report.error error_reporter_ (stream_hook_ s')
                 (UnexpectedToken CLIToken.Comma t)) s'
      /\ t = CLIToken.mk CLIToken.Integer "3" 4 5)
  /\ (exists t s',
        parseArgument 8 8 (parser_on "[1,2,3 4]")
        = Throw (Report.error error_reporter_ (stream_hook_ s')
                   (UnexpectedToken CLIToken.RightBracket t)) s'
        /\ t = CLIToken.mk CLIToken.Integer "4" 7 8).
Proof.
  split.
  - eexists _, _. split.
    + refine (proj1 (proj2 (proj1 juxtaposed_number_by_form 8%nat 8%nat Bare []
                       [_; _; _] [_; _] _ (parser_on "1,2 3") _ _ _
                       eq_refl _ eq_refl _ _ _ _)) _).
      * apply cs_more; [| |apply cs_one]; shelve.
      * repeat (eexists; split; [vm_compute; reflexivity|]). reflexivity.
      * vm_compute; reflexivity.
      * reflexivity.
      * simpl. lia.
      * reflexivity.
    + reflexivity.
  - eexists _, _. split.
    + refine (proj2 (proj1 juxtaposed_number_by_form 8%nat 8%nat InBrackets [_]
                       [_; _; _; _; _] [_; _; _] _ (parser_on "[1,2,3 4]") _ _ _
                       _ _ _ _ _ _ _) _ _ _).
      * eexists. split; [reflexivity|]. shelve.
      * apply cs_more; [| |apply cs_more; [| |apply cs_one]]; shelve.
      * eexists. split; [vm_compute; reflexivity|]. reflexivity.
      * repeat (eexists; split; [vm_compute; reflexivity|]). reflexivity.
      * vm_compute; reflexivity.
      * reflexivity.
      * simpl. lia.
      * simpl. lia.
      * vm_compute; reflexivity.
    + reflexivity.
  Unshelve. all: reflexivity.
Defined.

(** C2, as stated, fails.  With two elements held, the bare list [1,2] is
    not ended by the number [3] that follows it: the number is refused, a
    comma being expected, and no command is returned.  And the number [4]
    that ends the list [1,2,3] between parentheses does not begin the next
    argument: it is refused for not being the closing parenthesis. *)
Lemma juxtaposed_number_refused_after_two :
  (exists what s',
      parseCommand 16 16 (parser_on ("cmd 1,2 3" ++ Report.NL)) =
        Throw (ParseError
                 (UnexpectedToken CLIToken.Comma
                    (CLIToken.mk CLIToken.Integer "3" 8 9)) what) s')
  /\ (forall s',
         parseCommand 16 16 (parser_on ("cmd 1,2 3" ++ Report.NL)) <>
           Ok (mkCommand "cmd"
                 [Argument.mk Argument.IntegerVector
                    (Argument.IntegerVectorData [1; 2]);
                  Argument.mk Argument.Integer (Argument.IntegerData 3)]) s')
  /\ (exists what s',
        parseCommand 16 16 (parser_on ("cmd (1,2,3 4)" ++ Report.NL)) =
          Throw (ParseError
                   (UnexpectedToken CLIToken.RightParen
                      (CLIToken.mk CLIToken.Integer "4" 11 12)) what) s')
  /\ (exists s',
        parseCommand 16 16 (parser_on ("cmd 1 2" ++ Report.NL)) =
          Ok (mkCommand "cmd"
                [Argument.mk Argument.Integer (Argument.IntegerData 1);
                 Argument.mk Argument.Integer (Argument.IntegerData 2)]) s').
Proof.
  split; [|split; [|split]].
  - eexists. eexists. vm_compute. reflexivity.
  - intros s'. vm_compute. discriminate.
  - eexists. eexists. vm_compute. reflexivity.
  - eexists. vm_compute. reflexivity.
Qed.

(** Statements of the grammar, end to end. *)
Example statements :
  (exists s',
      parseCommand 32 32 (parser_on ("cmd { a b" ++ Report.NL ++ " c d }" ++ Report.NL)) =
        Ok (mkCommand "cmd"
              [Argument.mk Argument.Identifier (Argument.StringData "a");
               Argument.mk Argument.Identifier (Argument.StringData "b");
               Argument.mk Argument.Identifier (Argument.StringData "c");
               Argument.mk Argument.Identifier (Argument.StringData "d")]) s')
  /\ (exists s',
        parseCommand 32 32 (parser_on ("# note" ++ Report.NL ++ "go (1,2) [3,4.5]" ++ Report.NL)) =
          Ok (mkCommand "go"
                [Argument.mk Argument.IntegerVector (Argument.IntegerVectorData [1; 2]);
                 Argument.mk Argument.FloatVector
                   (Argument.FloatVectorData [3; 4.5]%float)]) s').
Proof.
  split.
  - eexists. vm_compute. reflexivity.
  - eexists. vm_compute. reflexivity.
Qed.

(* ================================================================= *)
(** * Further properties *)

Lemma count_LF_app l c :
  count_LF (l ++ [c]) = count_LF l + (if Ascii.eqb c LF then 1 else 0).
Proof.
  unfold count_LF. rewrite count_occ_app; simpl.
  destruct (ascii_dec c LF) as [->|Hne].
  - rewrite Ascii.eqb_refl. lia.
  - destruct (Ascii.eqb_spec c LF); [contradiction|]. lia.
Qed.

(** X1.  Whatever sequence of [get], [unget] and [clearConsumedTokens] a
    stream hook has gone through, its recorded buffer is as long as the
    distance from the checkpoint to the stream position, the running line
    number is the checkpoint's line number plus the line feeds in the
    buffer, and the checkpoint lies at a non-negative offset on a line
    numbered from 1. *)
Theorem hook_bookkeeping h :
  hook_reachable h ->
  Z.of_nat (List.length (consumed_chars_ h)) = Hook.tellg h - Hook.getPosition h
  /\ current_line_number_ h = Hook.getLineNumber h + count_LF (consumed_chars_ h)
  /\ 0 <= Hook.getPosition h
  /\ 1 <= Hook.getLineNumber h.
Proof.
  unfold Hook.tellg, Hook.getPosition, Hook.getLineNumber.
  induction 1 as [r|h Hh IH|h h' Hh IH Hu|h Hh IH].
  - cbn. repeat split; lia.
  - destruct IH as (Hlen & Hline & Hpos & Hln).
    unfold Hook.get. destruct (Std.get (stream_ h)) as [[c|] r]; cbn [snd].
    + cbn [consumed_chars_ stream_position_ position_ line_number_
           current_line_number_].
      rewrite length_app, count_LF_app; cbn [List.length].
      repeat split; try lia. destruct (Ascii.eqb c LF); lia.
    + cbn. repeat split; lia.
  - destruct IH as (Hlen & Hline & Hpos & Hln).
    unfold Hook.unget in Hu.
    destruct (consumed_chars_ h) as [|c0 l0] eqn:Hcc; [discriminate|].
    remember (c0 :: l0) as l eqn:Hl.
    assert (Hne : l <> []) by (subst l; discriminate).
    injection Hu as <-.
    cbn [consumed_chars_ stream_position_ position_ line_number_
         current_line_number_].
    pose proof (app_removelast_last NUL Hne) as Hsplit.
    rewrite Hsplit in Hlen, Hline.
    rewrite length_app in Hlen; cbn [List.length] in Hlen.
    rewrite count_LF_app in Hline.
    destruct (Ascii.eqb (last l NUL) LF); repeat split; lia.
  - destruct IH as (Hlen & Hline & Hpos & Hln).
    unfold count_LF in *. cbn. repeat split; lia.
Qed.

Lemma hook_bookkeeping_witness :
  exists h,
    hook_reachable h
    /\ consumed_chars_ h = ["b"%char]
    /\ Z.of_nat (List.length (consumed_chars_ h))
       = Hook.tellg h - Hook.getPosition h.
Proof.
  exists (snd (Hook.get (Hook.clearConsumedTokens (snd (Hook.get
            (Hook.init (mkStd [] [LF; "b"%char] false))))))).
  assert (R : hook_reachable
                (snd (Hook.get (Hook.clearConsumedTokens (snd (Hook.get
                   (Hook.init (mkStd [] [LF; "b"%char] false)))))))).
  { apply reach_get, reach_clear, reach_get, reach_init. }
  split; [exact R|]. split; [reflexivity|].
  exact (proj1 (hook_bookkeeping _ R)).
Defined.

(** X2.  A character that [get] has just delivered can be put back:
    [unget] then restores the hook exactly as it was before the [get].
    Straight after a checkpoint there is nothing to put back, and [unget]
    throws. *)
Theorem get_then_unget h c h' :
  Hook.get h = (Some c, h') ->
  Hook.unget h' = Some h
  /\ Hook.unget (Hook.clearConsumedTokens h') = None.
Proof.
  split; [|reflexivity]. revert H.
  unfold Hook.get, Std.get.
  destruct h as [[b a f] p cc po ln cl]; cbn.
  destruct f; [discriminate|].
  destruct a as [|c0 a]; [discriminate|].
  intros H; injection H as <- <-.
  unfold Hook.unget; cbn.
  destruct (cc ++ [c0])%list eqn:Hcc; [destruct cc; discriminate|].
  rewrite <- Hcc, removelast_last, last_last.
  replace (p + 1 - 1) with p by lia.
  destruct (Ascii.eqb c0 LF); [replace (cl + 1 - 1) with cl by lia|]; reflexivity.
Qed.

Lemma get_then_unget_witness :
  Hook.unget (snd (Hook.get (Hook.init (mkStd [] ["a"%char] false))))
  = Some (Hook.init (mkStd [] ["a"%char] false)).
Proof.
  exact (proj1 (get_then_unget (Hook.init (mkStd [] ["a"%char] false))
                  "a"%char _ eq_refl)).
Defined.

Lemma advanced_refl s : advanced s s.
Proof. exists [], (visible s). split; [reflexivity|left; reflexivity]. Qed.

Lemma advanced_at_eof s : visible s = [] -> advanced s (at_eof s).
Proof. intros H. exists [], []. split; [exact H|right; split; reflexivity]. Qed.

Lemma advanced_step s c cs s' :
  visible s = c :: cs -> advanced (step s c) s' -> advanced s s'.
Proof.
  intros Hv (cs' & rest & Hvis & Hs').
  destruct (get_cons s c cs Hv) as [_ Hstep]. rewrite Hstep in Hvis.
  exists (c :: cs'), rest. split; [rewrite Hv, Hvis; reflexivity|exact Hs'].
Qed.

Lemma advanced_visible s s' :
  advanced s s' -> exists cs, visible s = (cs ++ visible s')%list.
Proof.
  intros (cs & rest & Hvis & [->|[-> ->]]); exists cs.
  - rewrite (visible_consume _ _ _ Hvis); exact Hvis.
  - rewrite Hvis. reflexivity.
Qed.

Lemma no_throw_bind {A B} (m : M A) (k : A -> M B) :
  no_throw m -> (forall a, no_throw (k a)) -> no_throw (bind m k).
Proof.
  intros Hm Hk s e s'. unfold bind.
  destruct (m s) as [a s1|e1 s1|] eqn:E; [apply Hk| |discriminate].
  intros H; injection H as -> ->. exact (Hm _ _ _ E).
Qed.

Lemma no_throw_ret {A} (a : A) : no_throw (ret a).
Proof. intros s e s'; discriminate. Qed.

Lemma no_throw_peek : no_throw peek.
Proof. intros s e s'; discriminate. Qed.

Lemma no_throw_tellg : no_throw tellg.
Proof. intros s e s'; discriminate. Qed.

Lemma no_throw_get : no_throw get.
Proof.
  intros s e s'. unfold get. destruct (Hook.get (stream_hook_ s)); discriminate.
Qed.

Lemma no_throw_out_of_fuel {A} : no_throw (@out_of_fuel A).
Proof. intros s e s'; discriminate. Qed.

Create HintDb no_throw.

#[local] Hint Resolve no_throw_ret no_throw_peek no_throw_tellg no_throw_get
  no_throw_out_of_fuel : no_throw.

Ltac no_throw_step :=
  first [ apply no_throw_bind; [|intros ?]
        | match goal with
          | |- no_throw (if ?b then _ else _) => destruct b
          | |- no_throw (match ?r with Some _ => _ | None => _ end) => destruct r
          end
        | solve [auto with no_throw] ].

Lemma readIdentifier_no_throw fuel : no_throw (readIdentifier fuel).
Proof.
  assert (L : forall value end_, no_throw (readIdentifier_loop fuel value end_)).
  { induction fuel as [|fuel IH]; intros value end_; simpl;
      repeat no_throw_step; apply IH. }
  unfold readIdentifier. repeat no_throw_step; apply L.
Qed.

Lemma readNumber_no_throw fuel : no_throw (readNumber fuel).
Proof.
  assert (L : forall value end_, no_throw (readNumber_loop fuel value end_)).
  { induction fuel as [|fuel IH]; intros value end_; simpl;
      repeat no_throw_step; apply IH. }
  unfold readNumber. repeat no_throw_step; apply L.
Qed.

Lemma readComment_no_throw fuel : no_throw (readComment fuel).
Proof.
  assert (L : forall value end_, no_throw (readComment_loop fuel value end_)).
  { induction fuel as [|fuel IH]; intros value end_; simpl;
      repeat no_throw_step; apply IH. }
  unfold readComment. repeat no_throw_step; apply L.
Qed.

Lemma readString_no_throw fuel : no_throw (readString fuel).
Proof.
  assert (L : forall escape value end_,
             no_throw (readString_loop fuel escape value end_)).
  { induction fuel as [|fuel IH]; intros escape value end_; simpl;
      repeat no_throw_step; apply IH. }
  unfold readString. repeat no_throw_step; apply L.
Qed.

Lemma readNextToken_no_throw fuel : no_throw (readNextToken fuel).
Proof.
  induction fuel as [|fuel IH]; intros s e s'; [discriminate|].
  simpl. destruct (visible s) as [|c cs] eqn:Hv.
  - rewrite (bind_Ok _ _ _ _ _ (proj1 (get_nil s Hv))). discriminate.
  - rewrite (bind_Ok _ _ _ _ _ (proj1 (get_cons s c cs Hv))).
    rewrite (bind_Ok _ _ _ _ _ (tellg_eq (step s c))).
    pose proof (unget_step s c cs Hv) as Hu.
    destruct (isIdentifierStart c).
    { rewrite (bind_Ok _ _ _ _ _ Hu). apply readIdentifier_no_throw. }
    destruct (Ascii.eqb c DQUOTE); [apply readString_no_throw|].
    destruct (isNumberStart c).
    { rewrite (bind_Ok _ _ _ _ _ Hu). apply readNumber_no_throw. }
    destruct (punctuation c); [discriminate|].
    destruct (Ascii.eqb c "#").
    { rewrite (bind_Ok _ _ _ _ _ Hu). apply readComment_no_throw. }
    destruct (isSkipped c); [apply IH|discriminate].
Qed.

(** X3.  The lexer never raises the hook's "cannot unget" error, nor any
    other error of the program's own: it only ever puts back the character
    it has just read, so the hook's buffer is not empty when it does.  This
    holds in every state and for every fuel.  (Running out of memory while
    a token's text grows is outside the model, whose strings are
    unbounded.) *)
Theorem lexer_never_fails_to_unget lf s what s' :
  nextToken lf s <> Throw (InternalError what) s'
  /\ peekToken lf s <> Throw (InternalError what) s'.
Proof.
  split.
  - unfold nextToken. destruct (peeked_token_ s); [discriminate|].
    apply readNextToken_no_throw.
  - unfold peekToken. destruct (peeked_token_ s); [discriminate|].
    destruct (readNextToken lf s) eqn:E; try discriminate.
    exfalso. exact (readNextToken_no_throw _ _ _ _ E).
Qed.

Lemma peek_head_true (p : ascii -> bool) s :
  p EOF_char = false ->
  p (hd EOF_char (visible s)) = true ->
  exists c cs, visible s = c :: cs /\ p c = true.
Proof.
  intros Heof Hp. destruct (visible s) as [|c cs]; simpl in Hp.
  - congruence.
  - exists c, cs. split; [reflexivity|exact Hp].
Qed.

Lemma readIdentifier_loop_advanced (fuel : nat) : forall s value end_ r s',
  readIdentifier_loop fuel value end_ s = Ok r s' -> advanced s s'.
Proof.
  induction fuel as [|fuel IH]; intros s value end_ r s'; [discriminate|].
  simpl. rewrite (bind_Ok _ _ _ _ _ (peek_visible s)).
  destruct (isIdentifierChar (hd EOF_char (visible s))) eqn:Hc.
  - destruct (peek_head_true _ s eq_refl Hc) as (c & cs & Hv & _).
    rewrite (bind_Ok _ _ _ _ _ (proj1 (get_cons s c cs Hv))).
    intros H. apply (advanced_step s c cs s' Hv). exact (IH _ _ _ _ _ H).
  - intros H; injection H as _ <-. apply advanced_refl.
Qed.

Lemma readNumber_loop_advanced (fuel : nat) : forall s value end_ r s',
  readNumber_loop fuel value end_ s = Ok r s' -> advanced s s'.
Proof.
  induction fuel as [|fuel IH]; intros s value end_ r s'; [discriminate|].
  simpl. rewrite (bind_Ok _ _ _ _ _ (peek_visible s)).
  destruct (Ascii.eqb (hd EOF_char (visible s)) NUL).
  { intros H; injection H as _ <-. apply advanced_refl. }
  destruct (isNumberChar (hd EOF_char (visible s))) eqn:Hc.
  - destruct (peek_head_true _ s eq_refl Hc) as (c & cs & Hv & _).
    rewrite (bind_Ok _ _ _ _ _ (proj1 (get_cons s c cs Hv))).
    intros H. apply (advanced_step s c cs s' Hv). exact (IH _ _ _ _ _ H).
  - intros H; injection H as _ <-. apply advanced_refl.
Qed.

Lemma readComment_loop_advanced (fuel : nat) : forall s value end_ r s',
  readComment_loop fuel value end_ s = Ok r s' -> advanced s s'.
Proof.
  induction fuel as [|fuel IH]; intros s value end_ r s'; [discriminate|].
  simpl. rewrite (bind_Ok _ _ _ _ _ (peek_visible s)).
  destruct (Ascii.eqb (hd EOF_char (visible s)) LF).
  { intros H; injection H as _ <-. apply advanced_refl. }
  destruct (visible s) as [|c cs] eqn:Hv.
  - rewrite (bind_Ok _ _ _ _ _ (proj1 (get_nil s Hv))).
    rewrite readComment_loop_diverges; [discriminate|].
    rewrite (proj2 (get_nil s Hv)). intros [].
  - rewrite (bind_Ok _ _ _ _ _ (proj1 (get_cons s c cs Hv))).
    intros H. apply (advanced_step s c cs s' Hv). exact (IH _ _ _ _ _ H).
Qed.

Lemma readString_loop_advanced (fuel : nat) : forall s escape value end_ r s',
  readString_loop fuel escape value end_ s = Ok r s' -> advanced s s'.
Proof.
  induction fuel as [|fuel IH]; intros s escape value end_ r s'; [discriminate|].
  simpl. destruct (visible s) as [|c cs] eqn:Hv.
  - rewrite (bind_Ok _ _ _ _ _ (proj1 (get_nil s Hv))).
    intros H; injection H as _ <-. apply advanced_at_eof, Hv.
  - rewrite (bind_Ok _ _ _ _ _ (proj1 (get_cons s c cs Hv))).
    intros H. apply (advanced_step s c cs s' Hv). revert H.
    destruct escape;
      [destruct (Ascii.eqb c CR); [|destruct (Ascii.eqb c LF)]
      |destruct (Ascii.eqb c BACKSLASH); [|destruct (Ascii.eqb c DQUOTE)]];
      try apply IH.
    intros H; injection H as _ <-. apply advanced_refl.
Qed.

Ltac reader_advanced L :=
  let H := fresh "H" in
  let ve := fresh "ve" in
  let s1 := fresh "s1" in
  let E := fresh "E" in
  let E2 := fresh "E" in
  intros H; apply bind_inv_Ok in H; destruct H as (? & ? & E & H);
  injection E as <- <-;
  apply bind_inv_Ok in H; destruct H as (ve & s1 & E2 & H);
  injection H as _ <-; exact (L _ _ _ _ _ _ E2).

(** Whatever token the lexer returns, it has only read on in the input. *)
Lemma readNextToken_advanced (fuel : nat) : forall s t s',
  readNextToken fuel s = Ok t s' -> advanced s s'.
Proof.
  induction fuel as [|fuel IH]; intros s t s'; [discriminate|].
  simpl. destruct (visible s) as [|c cs] eqn:Hv.
  - rewrite (bind_Ok _ _ _ _ _ (proj1 (get_nil s Hv))).
    intros H; injection H as _ <-. apply advanced_at_eof, Hv.
  - rewrite (bind_Ok _ _ _ _ _ (proj1 (get_cons s c cs Hv))).
    rewrite (bind_Ok _ _ _ _ _ (tellg_eq (step s c))).
    pose proof (unget_step s c cs Hv) as Hu.
    assert (Hstep : advanced s (step s c)).
    { apply (advanced_step s c cs _ Hv), advanced_refl. }
    destruct (isIdentifierStart c).
    { rewrite (bind_Ok _ _ _ _ _ Hu). unfold readIdentifier.
      reader_advanced readIdentifier_loop_advanced. }
    destruct (Ascii.eqb c DQUOTE).
    { intros H. apply (advanced_step s c cs _ Hv). revert H.
      unfold readString.
      intros H; apply bind_inv_Ok in H; destruct H as (? & ? & E & H);
      injection E as <- <-;
      apply bind_inv_Ok in H; destruct H as (ve & s1 & E2 & H);
      injection H as _ <-. exact (readString_loop_advanced _ _ _ _ _ _ _ E2). }
    destruct (isNumberStart c).
    { rewrite (bind_Ok _ _ _ _ _ Hu). unfold readNumber.
      reader_advanced readNumber_loop_advanced. }
    destruct (punctuation c).
    { intros H; injection H as _ <-. exact Hstep. }
    destruct (Ascii.eqb c "#").
    { rewrite (bind_Ok _ _ _ _ _ Hu). unfold readComment.
      reader_advanced readComment_loop_advanced. }
    destruct (isSkipped c).
    + intros H. apply (advanced_step s c cs _ Hv). exact (IH _ _ _ H).
    + intros H; injection H as _ <-. exact Hstep.
Qed.

Lemma comments_closed_tail c cs : comments_closed (c :: cs) -> comments_closed cs.
Proof. intros H a b ->. exact (H (c :: a) b eq_refl). Qed.

Lemma comments_closedb_sound cs :
  comments_closedb cs = true -> comments_closed cs.
Proof.
  induction cs as [|c cs IH]; intros H a b E.
  - destruct a; discriminate.
  - simpl in H. apply andb_prop in H. destruct H as [Hc Hcs].
    destruct a as [|a0 a]; simpl in E; injection E as -> ->.
    + rewrite Ascii.eqb_refl in Hc. apply existsb_exists in Hc.
      destruct Hc as (x & Hin & Hx). apply Ascii.eqb_eq in Hx. subst x. exact Hin.
    + exact (IH Hcs a b eq_refl).
Qed.

Lemma first_LF (l : list ascii) :
  In LF l -> exists cs rest, l = (cs ++ LF :: rest)%list /\ ~ In LF cs.
Proof.
  induction l as [|c l IH]; [intros []|]. intros Hin.
  destruct (ascii_dec c LF) as [->|Hne].
  - exists [], l. split; [reflexivity|intros []].
  - destruct Hin as [E|Hin]; [congruence|].
    destruct (IH Hin) as (cs & rest & -> & Hno).
    exists (c :: cs), rest. split; [reflexivity|].
    intros [E|Hin']; [congruence|exact (Hno Hin')].
Qed.

Lemma take_while_length p l : (List.length (take_while p l) <= List.length l)%nat.
Proof.
  induction l as [|c l IH]; simpl; [lia|]. destruct (p c); simpl; lia.
Qed.

Lemma readNextToken_identifier fuel s c cs :
  visible s = c :: cs -> isIdentifierStart c = true ->
  readNextToken (S fuel) s = readIdentifier fuel s.
Proof.
  intros Hv Hc. simpl.
  rewrite (bind_Ok _ _ _ _ _ (proj1 (get_cons s c cs Hv))).
  rewrite (bind_Ok _ _ _ _ _ (tellg_eq (step s c))).
  rewrite Hc. rewrite (bind_Ok _ _ _ _ _ (unget_step s c cs Hv)). reflexivity.
Qed.

Lemma readNextToken_returns (fuel : nat) : forall s,
  comments_closed (visible s) ->
  (List.length (visible s) + 1 < fuel)%nat ->
  exists t s', readNextToken fuel s = Ok t s'.
Proof.
  induction fuel as [|fuel IH]; intros s Hclosed Hfuel; [lia|].
  destruct (visible s) as [|c cs] eqn:Hv.
  { simpl. rewrite (bind_Ok _ _ _ _ _ (proj1 (get_nil s Hv))).
    eexists _, _; reflexivity. }
  simpl in Hfuel.
  destruct (isIdentifierStart c) eqn:Hid.
  { rewrite (readNextToken_identifier fuel s c cs Hv Hid). unfold readIdentifier.
    rewrite (bind_Ok _ _ _ _ _ (tellg_eq s)).
    pose proof (take_while_length isIdentifierChar (visible s)) as Hle.
    rewrite Hv in Hle at 2; simpl in Hle.
    rewrite (bind_Ok _ _ _ _ _ (readIdentifier_loop_reads fuel s "" (sp s) ltac:(lia))).
    eexists _, _; reflexivity. }
  destruct (Ascii.eqb_spec c DQUOTE) as [->|Hq].
  { destruct (scan_string false cs) as [[v n] closed] eqn:Hscan.
    rewrite (readString_reads fuel s cs v n closed Hv Hscan ltac:(lia)).
    eexists _, _; reflexivity. }
  destruct (isNumberStart c) eqn:Hnum.
  { rewrite (readNextToken_number fuel s c cs Hv Hnum). unfold readNumber.
    rewrite (bind_Ok _ _ _ _ _ (tellg_eq s)).
    pose proof (take_while_length isNumberChar (visible s)) as Hle.
    rewrite Hv in Hle at 2; simpl in Hle.
    rewrite (bind_Ok _ _ _ _ _ (readNumber_loop_reads fuel s "" (sp s) ltac:(lia))).
    eexists _, _; reflexivity. }
  destruct (Ascii.eqb_spec c "#") as [->|Hhash].
  { rewrite (readNextToken_comment fuel s cs Hv). unfold readComment.
    rewrite (bind_Ok _ _ _ _ _ (tellg_eq s)).
    destruct (first_LF cs (Hclosed [] cs eq_refl)) as (cs1 & rest & -> & Hno).
    assert (Hno' : ~ In LF ("#"%char :: cs1)).
    { intros [E|Hin]; [discriminate|exact (Hno Hin)]. }
    rewrite length_app in Hfuel; simpl in Hfuel.
    rewrite (bind_Ok _ _ _ _ _
               (readComment_loop_reads fuel s "" (sp s) ("#"%char :: cs1) rest
                  Hv Hno' ltac:(simpl; lia))).
    eexists _, _; reflexivity. }
  simpl.
  rewrite (bind_Ok _ _ _ _ _ (proj1 (get_cons s c cs Hv))).
  rewrite (bind_Ok _ _ _ _ _ (tellg_eq (step s c))).
  rewrite Hid, Hnum.
  destruct (Ascii.eqb c DQUOTE) eqn:Eq; [apply Ascii.eqb_eq in Eq; contradiction|].
  destruct (punctuation c); [eexists _, _; reflexivity|].
  destruct (Ascii.eqb c "#") eqn:Eh; [apply Ascii.eqb_eq in Eh; contradiction|].
  destruct (isSkipped c); [|eexists _, _; reflexivity].
  apply IH.
  - rewrite (proj2 (get_cons s c cs Hv)). exact (comments_closed_tail c cs Hclosed).
  - rewrite (proj2 (get_cons s c cs Hv)). lia.
Qed.

(** X4.  The lexer returns a token whenever no comment runs into the end of
    the input: if every [#] still to be read has a line feed after it and
    the fuel exceeds the number of characters left by two, [nextToken] and
    [peekToken] both return, neither throwing nor running out of fuel. *)
Theorem lexer_returns lf s :
  comments_closed (visible s) ->
  (List.length (visible s) + 1 < lf)%nat ->
  (exists t s', nextToken lf s = Ok t s')
  /\ (exists t s', peekToken lf s = Ok t s').
Proof.
  intros Hclosed Hfuel.
  destruct (readNextToken_returns lf s Hclosed Hfuel) as (t & s' & E).
  unfold nextToken, peekToken.
  destruct (peeked_token_ s) as [t0|]; split;
    try (eexists _, _; reflexivity).
  - exists t, s'; exact E.
  - rewrite E. eexists _, _; reflexivity.
Qed.

Lemma lexer_returns_witness :
  exists t s', nextToken 8 (parser_on ("#x" ++ Report.NL)) = Ok t s'.
Proof.
  apply (lexer_returns 8 (parser_on ("#x" ++ Report.NL))).
  - apply comments_closedb_sound. reflexivity.
  - simpl. lia.
Defined.

Lemma take_while_all p l :
  forallb p l = true -> take_while p l = l.
Proof.
  induction l as [|c l IH]; simpl; [reflexivity|].
  destruct (p c); [intros H; f_equal; exact (IH H)|discriminate].
Qed.

(** X5.  An identifier token is the longest run of letters, digits and
    underscores that starts at a letter or an underscore: its value is
    that run, its span starts at the position reading began and is as long
    as the run, and the lexer stops in front of the first character that
    does not belong to it. *)
Theorem identifier_token lf s c cs :
  peeked_token_ s = None ->
  visible s = c :: cs ->
  isIdentifierStart c = true ->
  (List.length (take_while isIdentifierChar cs) + 2 < lf)%nat ->
  let run := c :: take_while isIdentifierChar cs in
  nextToken lf s =
    Ok (CLIToken.mk CLIToken.Identifier (string_of_list_ascii run)
                    (sp s) (sp s + Z.of_nat (List.length run)))
       (consume s run)
  /\ visible (consume s run) = drop_while isIdentifierChar cs.
Proof.
  intros Hpk Hv Hc Hfuel run.
  assert (Hrun : take_while isIdentifierChar (visible s) = run).
  { rewrite Hv; simpl. rewrite (isIdentifierStart_char c Hc). reflexivity. }
  split.
  - rewrite (nextToken_fresh lf s Hpk).
    destruct lf as [|fuel]; [lia|].
    rewrite (readNextToken_identifier fuel s c cs Hv Hc). unfold readIdentifier.
    rewrite (bind_Ok _ _ _ _ _ (tellg_eq s)).
    assert (Hlen : (List.length (take_while isIdentifierChar (visible s)) < fuel)%nat).
    { rewrite Hrun. subst run; simpl. lia. }
    rewrite (bind_Ok _ _ _ _ _ (readIdentifier_loop_reads fuel s "" (sp s) Hlen)).
    rewrite Hrun. reflexivity.
  - apply visible_consume. rewrite Hv. subst run; simpl. f_equal.
    apply take_drop_while.
Qed.

Lemma identifier_token_witness :
  exists t s',
    nextToken 8 (parser_on "ab1 x") = Ok t s'
    /\ CLIToken.value t = "ab1"
    /\ CLIToken.end_ t = 3.
Proof.
  eexists _, _. split.
  - apply (identifier_token 8 (parser_on "ab1 x") "a"%char
             ["b"; "1"; " "; "x"]%char%list eq_refl eq_refl eq_refl).
    simpl. lia.
  - split; reflexivity.
Defined.

Lemma punctuation_dispatch c type :
  punctuation c = Some type ->
  isIdentifierStart c = false /\ Ascii.eqb c DQUOTE = false
  /\ isNumberStart c = false.
Proof.
  unfold punctuation.
  repeat match goal with
         | |- context [Ascii.eqb c ?k] =>
             destruct (Ascii.eqb_spec c k) as [->|?];
             [intros _; repeat split; reflexivity|]
         end.
  discriminate.
Qed.

Lemma nextToken_punctuation lf s c cs type :
  peeked_token_ s = None ->
  visible s = c :: cs ->
  punctuation c = Some type ->
  (0 < lf)%nat ->
  nextToken lf s =
    Ok (CLIToken.mk type (String c "") (sp s) (sp s + 1)) (step s c).
Proof.
  intros Hpk Hv Hp Hfuel.
  destruct (punctuation_dispatch c type Hp) as (Hid & Hq & Hnum).
  rewrite (nextToken_fresh lf s Hpk).
  destruct lf as [|fuel]; [lia|]. simpl.
  rewrite (bind_Ok _ _ _ _ _ (proj1 (get_cons s c cs Hv))).
  rewrite (bind_Ok _ _ _ _ _ (tellg_eq (step s c))).
  rewrite Hid, Hq, Hnum, Hp. unfold ret.
  replace (sp (step s c) - 1) with (sp s) by (unfold sp, step; simpl; lia).
  reflexivity.
Qed.

(** X6.  Parentheses, brackets, braces, the comma and the line feed are
    tokens of their own: each is delivered as a one-character token whose
    value is the character and whose span is the one position it stands
    at, with exactly that character consumed. *)
Theorem punctuation_token lf s c cs type :
  peeked_token_ s = None ->
  visible s = c :: cs ->
  punctuation c = Some type ->
  (0 < lf)%nat ->
  nextToken lf s =
    Ok (CLIToken.mk type (String c "") (sp s) (sp s + 1)) (step s c).
Proof.
  apply nextToken_punctuation.
Qed.

Lemma punctuation_token_witness :
  nextToken 1 (parser_on "(")
  = Ok (CLIToken.mk CLIToken.LeftParen "(" 0 1) (step (parser_on "(") "("%char).
Proof.
  apply (punctuation_token 1 (parser_on "(") "("%char [] CLIToken.LeftParen
           eq_refl eq_refl eq_refl).
  lia.
Defined.

Lemma isSkipped_dispatch c :
  isSkipped c = true ->
  isIdentifierStart c = false /\ Ascii.eqb c DQUOTE = false
  /\ isNumberStart c = false /\ punctuation c = None
  /\ Ascii.eqb c "#" = false.
Proof.
  unfold isSkipped.
  destruct (Ascii.eqb_spec c " ") as [->|?]; [intros _; repeat split; reflexivity|].
  destruct (Ascii.eqb_spec c TAB) as [->|?]; [intros _; repeat split; reflexivity|].
  destruct (Ascii.eqb_spec c CR) as [->|?]; [intros _; repeat split; reflexivity|].
  discriminate.
Qed.

(** X7.  Spaces, tabs and carriage returns in front of a token are passed
    over and change nothing but the position: reading a token where they
    start is reading it where they end, one unit of fuel being spent on
    each. *)
Theorem whitespace_is_skipped lf s ws rest :
  peeked_token_ s = None ->
  visible s = (ws ++ rest)%list ->
  forallb isSkipped ws = true ->
  nextToken (List.length ws + lf) s = nextToken lf (consume s ws).
Proof.
  intros Hpk Hv Hws.
  rewrite !nextToken_fresh; [|rewrite peeked_consume; exact Hpk|exact Hpk].
  clear Hpk. revert s Hv Hws.
  induction ws as [|c ws IH]; intros s Hv Hws; [reflexivity|].
  simpl in Hws. apply andb_prop in Hws. destruct Hws as [Hc Hws].
  destruct (isSkipped_dispatch c Hc) as (Hid & Hq & Hnum & Hp & Hh).
  change (consume s (c :: ws)) with (consume (step s c) ws).
  rewrite <- (IH (step s c)); [|apply (get_cons s c _ Hv)|exact Hws].
  cbn [List.length Nat.add readNextToken].
  rewrite (bind_Ok _ _ _ _ _ (proj1 (get_cons s c _ Hv))).
  rewrite (bind_Ok _ _ _ _ _ (tellg_eq (step s c))).
  rewrite Hid, Hq, Hnum, Hp, Hh, Hc. reflexivity.
Qed.

Lemma whitespace_is_skipped_witness :
  nextToken (2 + 4) (parser_on "  a")
  = nextToken 4 (consume (parser_on "  a") [" "; " "]%char%list).
Proof.
  exact (whitespace_is_skipped 4 (parser_on "  a") [" "; " "]%char%list
           ["a"%char] eq_refl eq_refl eq_refl).
Defined.

(** X8.  At the end of the input the lexer delivers an end-of-file token
    with an empty value and an empty span at the current position, and it
    goes on doing so: asking again returns the same token and leaves the
    state as it is. *)
Theorem end_of_file_token lf s :
  peeked_token_ s = None ->
  visible s = [] ->
  (0 < lf)%nat ->
  let eof := CLIToken.mk CLIToken.EndOfFile "" (sp s) (sp s) in
  nextToken lf s = Ok eof (at_eof s)
  /\ nextToken lf (at_eof s) = Ok eof (at_eof s).
Proof.
  intros Hpk Hv Hfuel eof.
  assert (One : forall s0, peeked_token_ s0 = None -> visible s0 = [] ->
                  nextToken lf s0
                  = Ok (CLIToken.mk CLIToken.EndOfFile "" (sp s0) (sp s0)) (at_eof s0)).
  { intros s0 Hpk0 Hv0. rewrite (nextToken_fresh lf s0 Hpk0).
    destruct lf as [|fuel]; [lia|]. simpl.
    rewrite (bind_Ok _ _ _ _ _ (proj1 (get_nil s0 Hv0))). reflexivity. }
  split; [exact (One s Hpk Hv)|].
  exact (One (at_eof s) Hpk (proj2 (get_nil s Hv))).
Qed.

Lemma end_of_file_token_witness :
  nextToken 1 (at_eof (parser_on ""))
  = Ok (CLIToken.mk CLIToken.EndOfFile "" 0 0) (at_eof (parser_on "")).
Proof.
  apply (end_of_file_token 1 (parser_on "") eq_refl eq_refl). lia.
Defined.

(** X9.  Peeking does not consume: [peekToken] followed by [nextToken]
    is [nextToken], and peeking twice is peeking once, outcome and final
    state included. *)
Theorem peeking_does_not_consume lf s :
  (peekToken lf ;;; nextToken lf) s = nextToken lf s
  /\ (peekToken lf ;;; peekToken lf) s = peekToken lf s.
Proof.
  unfold bind.
  destruct (peekToken lf s) as [t s1|e s1|] eqn:Hpeek.
  - split.
    + rewrite (next_after_peek lf s t s1 Hpeek).
      unfold peekToken in Hpeek. unfold nextToken.
      destruct (peeked_token_ s) as [t0|] eqn:Hpk.
      * injection Hpeek as <- <-. reflexivity.
      * destruct (readNextToken lf s) as [t' s'| |] eqn:E; try discriminate.
        injection Hpeek as <- <-. unfold unpeek; simpl. f_equal.
        apply parser_eta.
        apply (nextToken_unpeeked lf s t' s'). rewrite nextToken_fresh; assumption.
    + apply peekToken_cached. exact (peekToken_peeked lf s t s1 Hpeek).
  - exfalso. unfold peekToken in Hpeek.
    destruct (peeked_token_ s); [discriminate|].
    destruct (readNextToken lf s) eqn:E; try discriminate.
    exact (readNextToken_no_throw _ _ _ _ E).
  - unfold peekToken in Hpeek. unfold nextToken.
    destruct (peeked_token_ s); [discriminate|].
    destruct (readNextToken lf s); try discriminate. split; reflexivity.
Qed.

(** X10.  Tokens come in the order of the text and do not overlap: of two
    tokens delivered one after the other, the first ends no later than the
    second begins, each spans a range that is not reversed, and the second
    ends at the position the lexer has reached. *)
Theorem tokens_in_order lf s t1 s1 t2 s2 :
  Inv s ->
  nextToken lf s = Ok t1 s1 ->
  nextToken lf s1 = Ok t2 s2 ->
  CLIToken.begin t1 <= CLIToken.end_ t1
  /\ CLIToken.end_ t1 <= CLIToken.begin t2
  /\ CLIToken.begin t2 <= CLIToken.end_ t2
  /\ CLIToken.end_ t2 = sp s2.
Proof.
  intros HInv H1 H2.
  pose proof (nextToken_spec lf s HInv) as W1. rewrite H1 in W1.
  destruct W1 as (_ & Hpk1 & Hok1 & _).
  rewrite (nextToken_fresh lf s1 Hpk1) in H2.
  pose proof (readNextToken_spec lf s1) as W2. rewrite H2 in W2.
  destruct W2 as (n & Hn & Hmoved & Hbegin & Hend & Heof & Hne).
  pose proof (tok_ok_le t1 s1 Hok1) as Hle1.
  destruct Hok1 as (_ & Hend1 & _).
  repeat split; try lia.
  destruct (CLIToken.Type_eqb (CLIToken.type t2) CLIToken.EndOfFile) eqn:E.
  - apply Type_eqb_eq in E. specialize (Heof E). lia.
  - assert (CLIToken.type t2 <> CLIToken.EndOfFile).
    { intros E'. rewrite E' in E. discriminate. }
    specialize (Hne H). lia.
Qed.

Lemma tokens_in_order_witness :
  exists t1 s1 t2 s2,
    nextToken 8 (parser_on "a (") = Ok t1 s1
    /\ nextToken 8 s1 = Ok t2 s2
    /\ CLIToken.end_ t1 <= CLIToken.begin t2.
Proof.
  eexists _, _, _, _.
  split; [vm_compute; reflexivity|].
  split; [vm_compute; reflexivity|].
  refine (proj1 (proj2 (tokens_in_order 8 (parser_on "a (") _ _ _ _
                          (Inv_parser_on _) _ _))).
  - vm_compute; reflexivity.
  - vm_compute; reflexivity.
Defined.

(** X11.  A comment runs from its [#] up to, and not including, the line
    feed that ends the line: the comment token holds that text, and the
    token after it is the end of line. *)
Theorem comment_token lf s cs rest :
  peeked_token_ s = None ->
  visible s = ("#"%char :: cs ++ LF :: rest)%list ->
  ~ In LF cs ->
  (List.length cs + 2 < lf)%nat ->
  let text := "#"%char :: cs in
  let s1 := consume s text in
  nextToken lf s =
    Ok (CLIToken.mk CLIToken.Comment (string_of_list_ascii text)
                    (sp s) (sp s + Z.of_nat (List.length text))) s1
  /\ nextToken lf s1 =
       Ok (CLIToken.mk CLIToken.EndOfLine (String LF "")
                       (sp s1) (sp s1 + 1)) (step s1 LF).
Proof.
  intros Hpk Hv Hno Hfuel text s1. split.
  - rewrite (comment_before_newline lf s cs rest Hpk Hv Hno Hfuel).
    subst text s1. cbn [List.length]. do 2 f_equal. lia.
  - assert (Hv1 : visible s1 = LF :: rest).
    { apply visible_consume. rewrite Hv. reflexivity. }
    assert (Hpk1 : peeked_token_ s1 = None).
    { subst s1. rewrite peeked_consume. exact Hpk. }
    apply (nextToken_punctuation lf s1 LF rest _ Hpk1 Hv1 eq_refl). lia.
Qed.

Lemma comment_token_witness :
  exists t s1,
    nextToken 8 (parser_on ("#c" ++ Report.NL ++ "x")) = Ok t s1
    /\ CLIToken.value t = "#c".
Proof.
  eexists _, _. split.
  - apply (comment_token 8 (parser_on ("#c" ++ Report.NL ++ "x"))
             ["c"%char] ["x"%char] eq_refl eq_refl).
    + intros [E|[]]. discriminate E.
    + simpl. lia.
  - reflexivity.
Defined.

(** ** Invariants of the parser, whatever they are *)

Lemma integerVectorData_state (tokens : list CLIToken.t) s :
  wp (integerVectorData tokens s) (fun _ s' => s' = s)
     (fun e s' => internal e /\ s' = s).
Proof.
  induction tokens as [|token rest IH]; simpl; [reflexivity|].
  unfold bind at 1.
  destruct (CLIToken.type token); try (split; [exact I|reflexivity]).
  - unfold stoll, library. destruct (StdNum.stoll _); simpl.
    + apply wp_bind. eapply wp_mono; [exact IH| |auto]. intros vs s' ->. reflexivity.
    + split; [exact I|reflexivity].
  - unfold bind at 1. unfold stod, library. destruct (StdNum.stod _); simpl.
    + apply wp_bind. eapply wp_mono; [exact IH| |auto]. intros vs s' ->. reflexivity.
    + split; [exact I|reflexivity].
Qed.

Lemma floatVectorData_state (tokens : list CLIToken.t) s :
  wp (floatVectorData tokens s) (fun _ s' => s' = s)
     (fun e s' => internal e /\ s' = s).
Proof.
  induction tokens as [|token rest IH]; simpl; [reflexivity|].
  unfold bind at 1.
  destruct (CLIToken.type token); try (split; [exact I|reflexivity]).
  - unfold bind at 1. unfold stoll, library. destruct (StdNum.stoll _); simpl.
    + apply wp_bind. eapply wp_mono; [exact IH| |auto]. intros vs s' ->. reflexivity.
    + split; [exact I|reflexivity].
  - unfold stod, library. destruct (StdNum.stod _); simpl.
    + apply wp_bind. eapply wp_mono; [exact IH| |auto]. intros vs s' ->. reflexivity.
    + split; [exact I|reflexivity].
Qed.

Lemma returnVector_state integer_vector tokens s :
  wp (returnVector integer_vector tokens s) (fun _ s' => s' = s)
     (fun e s' => internal e /\ s' = s).
Proof.
  unfold returnVector. destruct integer_vector; apply wp_bind.
  - eapply wp_mono; [apply integerVectorData_state| |auto].
    intros v s' ->. reflexivity.
  - eapply wp_mono; [apply floatVectorData_state| |auto].
    intros v s' ->. reflexivity.
Qed.

Section Preservation.

Variable lf : nat.

(** [Keeps] is what holds of the parser between two steps, [Taken t] what
    holds once the token [t] has just been taken, and [Thrown] what an
    exception may rely on. *)
Variable Keeps : CLIParser -> Prop.
Variable Taken : CLIToken.t -> CLIParser -> Prop.
Variable Thrown : exn -> CLIParser -> Prop.

Hypothesis next_keeps : forall s,
  Keeps s ->
  wp (nextToken lf s) (fun t s' => Keeps s' /\ Taken t s') Thrown.
Hypothesis peek_keeps : forall s,
  Keeps s -> wp (peekToken lf s) (fun _ s' => Keeps s') Thrown.
Hypothesis clear_keeps : forall s,
  Keeps s ->
  Keeps (mkParser (Hook.clearConsumedTokens (stream_hook_ s)) (peeked_token_ s)).
Hypothesis raise_thrown : forall d s,
  Keeps s -> Taken (offending d) s ->
  Thrown (Report.error error_reporter_ (stream_hook_ s) d) s.
Hypothesis internal_thrown : forall e s,
  Keeps s -> internal e -> Thrown e s.

Lemma keeps_next {A} (k : CLIToken.t -> M A) s Q :
  Keeps s ->
  (forall t s1, Keeps s1 -> Taken t s1 -> wp (k t s1) Q Thrown) ->
  wp (bind (nextToken lf) k s) Q Thrown.
Proof.
  intros Hs Hk. apply wp_bind.
  eapply wp_mono; [exact (next_keeps s Hs)| |auto].
  intros t s1 [H1 H2]. exact (Hk t s1 H1 H2).
Qed.

Lemma keeps_peek {A} (k : CLIToken.t -> M A) s Q :
  Keeps s ->
  (forall t s1, Keeps s1 -> wp (k t s1) Q Thrown) ->
  wp (bind (peekToken lf) k s) Q Thrown.
Proof.
  intros Hs Hk. apply wp_bind.
  eapply wp_mono; [exact (peek_keeps s Hs)| |auto].
  intros t s1 H1. exact (Hk t s1 H1).
Qed.

Lemma keeps_clear {A} (k : unit -> M A) s Q :
  Keeps s ->
  (forall s1, Keeps s1 -> wp (k tt s1) Q Thrown) ->
  wp (bind clearConsumedTokens k s) Q Thrown.
Proof. intros Hs Hk. apply wp_bind. simpl. apply Hk, clear_keeps, Hs. Qed.

Lemma keeps_raise {A} d s (Q : A -> CLIParser -> Prop) :
  Keeps s -> Taken (offending d) s -> wp (@raise A d s) Q Thrown.
Proof. intros Hs Ht. exact (raise_thrown d s Hs Ht). Qed.

Lemma keeps_throw {A} e s (Q : A -> CLIParser -> Prop) :
  Keeps s -> internal e -> wp (@throw A e s) Q Thrown.
Proof. intros Hs He. exact (internal_thrown e s Hs He). Qed.

Lemma keeps_library {A B} what (r : option A) (k : A -> M B) s Q :
  Keeps s ->
  (forall a, wp (k a s) Q Thrown) ->
  wp (bind (library what r) k s) Q Thrown.
Proof.
  intros Hs Hk. apply wp_bind. destruct r as [a|]; simpl.
  - apply Hk.
  - exact (internal_thrown (LibraryError what) s Hs I).
Qed.

Lemma keeps_returnVector integer_vector tokens s :
  Keeps s ->
  wp (returnVector integer_vector tokens s) (fun _ s' => Keeps s') Thrown.
Proof.
  intros Hs. eapply wp_mono; [apply returnVector_state| |].
  - intros a s' ->. exact Hs.
  - intros e s' [He ->]. exact (internal_thrown e s Hs He).
Qed.

Ltac keeps_with call :=
  repeat first
    [ assumption
    | call
    | apply wp_ret; assumption
    | apply keeps_returnVector; assumption
    | apply keeps_next; [assumption|intros ? ? ? ?]
    | apply keeps_peek; [assumption|intros ? ? ?]
    | apply keeps_clear; [assumption|intros ? ?]
    | apply keeps_raise; [assumption|assumption]
    | apply keeps_throw; [assumption|exact I]
    | apply keeps_library; [assumption|intros ?]
    | match goal with
      | |- wp ((if ?b then _ else _) _) _ _ => destruct b
      | |- wp (match CLIToken.type ?t with _ => _ end _) _ _ =>
          destruct (CLIToken.type t)
      | |- wp (match Argument.type ?a with _ => _ end _) _ _ =>
          destruct (Argument.type a)
      | |- wp (match Argument.data ?a with _ => _ end _) _ _ =>
          destruct (Argument.data a)
      end ].

Ltac keeps := keeps_with fail.

Lemma parseNumberList_loop_keeps (fuel : nat) :
  forall comma first_number tokens integer_vector s,
    Keeps s ->
    wp (parseNumberList_loop lf fuel comma first_number tokens integer_vector s)
       (fun _ s' => Keeps s') Thrown.
Proof.
  induction fuel as [|fuel IH];
    intros comma first_number tokens integer_vector s Hs; [exact I|].
  simpl. keeps_with ltac:(apply IH; assumption).
Qed.

Lemma parseNumberList_keeps fuel s :
  Keeps s -> wp (parseNumberList lf fuel s) (fun _ s' => Keeps s') Thrown.
Proof. apply parseNumberList_loop_keeps. Qed.

Lemma parseVector_keeps fuel s :
  Keeps s -> wp (parseVector lf fuel s) (fun _ s' => Keeps s') Thrown.
Proof.
  intros Hs. unfold parseVector, no_way_to_reach_here.
  keeps_with ltac:(first
    [ apply parseNumberList_keeps; assumption
    | apply wp_bind;
      eapply wp_mono; [apply parseNumberList_keeps; assumption| |auto];
      intros ? ? ? ]).
Qed.

Lemma parseArgument_keeps fuel s :
  Keeps s -> wp (parseArgument lf fuel s) (fun _ s' => Keeps s') Thrown.
Proof.
  intros Hs.
  unfold parseArgument, no_way_to_reach_here, bad_variant_access, stoll, stod.
  keeps_with ltac:(first
    [ apply parseVector_keeps; assumption
    | apply wp_bind;
      eapply wp_mono; [apply parseNumberList_keeps; assumption| |auto];
      intros ? ? ? ]).
Qed.

Lemma parseArgumentList_loop_keeps (fuel : nat) :
  forall multiline arguments s,
    Keeps s ->
    wp (parseArgumentList_loop lf fuel multiline arguments s)
       (fun _ s' => Keeps s') Thrown.
Proof.
  induction fuel as [|fuel IH]; intros multiline arguments s Hs; [exact I|].
  simpl. keeps_with ltac:(first
    [ apply IH; assumption
    | apply wp_bind;
      eapply wp_mono; [apply parseArgument_keeps; assumption| |auto];
      intros ? ? ? ]).
Qed.

Lemma finishCommand_keeps fuel command s :
  Keeps s ->
  wp (finishCommand lf fuel command s) (fun _ s' => Keeps s') Thrown.
Proof.
  intros Hs. unfold finishCommand, parseArgumentList. apply wp_bind.
  eapply wp_mono; [apply parseArgumentList_loop_keeps; assumption| |auto].
  intros args s1 Hs1. keeps.
Qed.

Lemma parseCommand_loop_keeps (fuel : nat) : forall command s,
  Keeps s ->
  wp (parseCommand_loop lf fuel command s) (fun _ s' => Keeps s') Thrown.
Proof.
  induction fuel as [|fuel IH]; intros command s Hs; [exact I|].
  simpl. keeps_with ltac:(first
    [ apply IH; assumption
    | apply finishCommand_keeps; assumption ]).
Qed.

Lemma parseCommand_keeps fuel s :
  Keeps s -> wp (parseCommand lf fuel s) (fun _ s' => Keeps s') Thrown.
Proof. apply parseCommand_loop_keeps. Qed.

End Preservation.

(** X12.  A diagnostic is raised with the offending token consumed:
    whenever [parseCommand] throws one of the reporter's errors, in any
    state and with any fuel, the lexer's lookahead is empty, so that the
    next call starts reading after the token that was complained about. *)
Theorem diagnostics_consume_the_offending_token lf fuel s d what s' :
  parseCommand lf fuel s = Throw (ParseError d what) s' ->
  peeked_token_ s' = None.
Proof.
  intros H.
  pose proof (parseCommand_keeps lf
                (fun _ => True)
                (fun _ s1 => peeked_token_ s1 = None)
                (fun e s1 => internal e \/ peeked_token_ s1 = None)) as K.
  assert (W : wp (parseCommand lf fuel s) (fun _ _ => True)
                 (fun e s1 => internal e \/ peeked_token_ s1 = None)).
  { apply K; try exact I.
    - intros s0 _. destruct (nextToken lf s0) as [t s1|e s1|] eqn:E; simpl; auto.
      + split; [exact I|exact (nextToken_unpeeked lf s0 t s1 E)].
      + exfalso. destruct lf as [|n]; unfold nextToken in E;
          destruct (peeked_token_ s0); try discriminate;
          exact (readNextToken_no_throw _ _ _ _ E).
    - intros s0 _. destruct (peekToken lf s0) as [t s1|e s1|] eqn:E; simpl; auto.
      exfalso. unfold peekToken in E.
      destruct (peeked_token_ s0); [discriminate|].
      destruct (readNextToken lf s0) eqn:E'; try discriminate.
      exact (readNextToken_no_throw _ _ _ _ E').
    - intros; exact I.
    - intros d0 s0 _ Hpk. right. exact Hpk.
    - intros e s0 _ He. left. exact He. }
  rewrite H in W. destruct W as [[]|W]. exact W.
Qed.

Lemma diagnostics_consume_the_offending_token_witness :
  exists d what s',
    parseCommand 8 8 (parser_on "@") = Throw (ParseError d what) s'
    /\ peeked_token_ s' = None.
Proof.
  eexists _, _, _. split; [vm_compute; reflexivity|].
  eapply (diagnostics_consume_the_offending_token 8 8 (parser_on "@")).
  vm_compute; reflexivity.
Defined.

Lemma in_step_hook input s s' :
  stream_hook_ s' = stream_hook_ s -> in_step input s -> in_step input s'.
Proof. unfold in_step. intros ->. auto. Qed.

Ltac hook_fields :=
  cbn [stream_hook_ peeked_token_ stream_ stream_position_ consumed_chars_
       position_ line_number_ current_line_number_ behind ahead failed
       tl rev] in *.

Lemma in_step_step input s c cs :
  visible s = c :: cs -> in_step input s -> in_step input (step s c).
Proof.
  unfold visible, in_step, step.
  destruct s as [[[b a f] p cc po ln cl] pk]; hook_fields.
  destruct f; [discriminate|]. intros ->.
  intros (before & Hread & Hin & Hpo & Hp & Hln & Hcl).
  exists before. hook_fields. repeat split.
  - rewrite Hread, <- app_assoc. reflexivity.
  - rewrite <- Hin, <- app_assoc. reflexivity.
  - exact Hpo.
  - rewrite length_app; cbn [List.length]. lia.
  - exact Hln.
  - rewrite count_LF_app. destruct (Ascii.eqb c LF); lia.
Qed.

Lemma in_step_at_eof input s : in_step input s -> in_step input (at_eof s).
Proof. unfold in_step, at_eof. simpl. auto. Qed.

Lemma in_step_consume input cs : forall s rest,
  visible s = (cs ++ rest)%list -> in_step input s -> in_step input (consume s cs).
Proof.
  induction cs as [|c cs IH]; intros s rest Hv Hs; [exact Hs|].
  simpl. apply (IH (step s c) rest).
  - apply (get_cons s c _ Hv).
  - exact (in_step_step input s c _ Hv Hs).
Qed.

Lemma in_step_advanced input s s' :
  advanced s s' -> in_step input s -> in_step input s'.
Proof.
  intros (cs & rest & Hv & [->|[-> ->]]) Hs.
  - exact (in_step_consume input cs s rest Hv Hs).
  - apply in_step_at_eof. exact (in_step_consume input cs s [] Hv Hs).
Qed.

Lemma in_step_checkpointed input s :
  in_step input s -> in_step input (checkpointed s).
Proof.
  unfold in_step, checkpointed. simpl.
  intros (before & Hread & Hin & Hpo & Hp & Hln & Hcl).
  exists (rev (behind (stream_ (stream_hook_ s)))).
  rewrite app_nil_r. repeat split; assumption.
Qed.

Lemma in_step_parser_on input :
  in_step (list_ascii_of_string input) (parser_on input).
Proof. exists []. simpl. repeat split; reflexivity. Qed.

Lemma parseCommand_in_step input lf fuel s :
  in_step input s ->
  wp (parseCommand lf fuel s) (fun _ s' => in_step input s')
     (fun _ s' => in_step input s').
Proof.
  apply (parseCommand_keeps lf (in_step input) (fun _ _ => True)
           (fun _ s' => in_step input s')).
  - intros s0 Hs0. destruct (nextToken lf s0) as [t s1|e s1|] eqn:E; simpl; auto.
    + split; [|exact I]. unfold nextToken in E.
      destruct (peeked_token_ s0).
      * injection E as _ <-. exact (in_step_hook input s0 _ eq_refl Hs0).
      * exact (in_step_advanced input s0 s1 (readNextToken_advanced _ _ _ _ E) Hs0).
    + exfalso. unfold nextToken in E.
      destruct (peeked_token_ s0); [discriminate|].
      exact (readNextToken_no_throw _ _ _ _ E).
  - intros s0 Hs0. destruct (peekToken lf s0) as [t s1|e s1|] eqn:E; simpl; auto.
    + unfold peekToken in E. destruct (peeked_token_ s0).
      * injection E as _ <-. exact Hs0.
      * destruct (readNextToken lf s0) as [t' s'| |] eqn:E'; try discriminate.
        injection E as _ <-.
        apply (in_step_hook input s' _ eq_refl).
        exact (in_step_advanced input s0 s' (readNextToken_advanced _ _ _ _ E') Hs0).
    + exfalso. unfold peekToken in E.
      destruct (peeked_token_ s0); [discriminate|].
      destruct (readNextToken lf s0) eqn:E'; try discriminate.
      exact (readNextToken_no_throw _ _ _ _ E').
  - intros s0 Hs0. exact (in_step_checkpointed input s0 Hs0).
  - intros d s0 Hs0 _. exact Hs0.
  - intros e s0 Hs0 _. exact Hs0.
Qed.

Lemma session_on_in_step input s :
  session_on input s -> in_step (list_ascii_of_string input) s.
Proof.
  induction 1 as [|lf fuel s cmd s' _ IH H|lf fuel s e s' _ IH H].
  - apply in_step_parser_on.
  - pose proof (parseCommand_in_step _ lf fuel s IH) as W. rewrite H in W. exact W.
  - pose proof (parseCommand_in_step _ lf fuel s IH) as W. rewrite H in W. exact W.
Qed.

Lemma firstn_skipn_middle {A} (a b c : list A) :
  firstn (List.length b) (skipn (List.length a) (a ++ b ++ c)) = b.
Proof.
  rewrite skipn_app, skipn_all, Nat.sub_diag; simpl.
  rewrite firstn_app, firstn_all, Nat.sub_diag; simpl. apply app_nil_r.
Qed.

(** X13.  Throughout a parsing session the hook's record agrees with the
    text being parsed: the buffer [getConsumedTokens] returns is exactly the
    input between the checkpoint and the position the stream has reached,
    [getLineNumber] is the 1-based number of the line the checkpoint stands
    on, and both offsets lie within the input. *)
Theorem buffer_is_the_text_read input s :
  session_on input s ->
  let text := list_ascii_of_string input in
  buffer s = slice text (cp s) (sp s)
  /\ Hook.getLineNumber (stream_hook_ s) = 1 + count_LF (slice text 0 (cp s))
  /\ 0 <= cp s <= sp s
  /\ sp s <= Z.of_nat (List.length text).
Proof.
  intros Hs text. apply session_on_in_step in Hs. fold text in Hs.
  destruct Hs as (before & Hread & Hin & Hpo & Hp & Hln & Hcl).
  unfold buffer, cp, sp, slice, Hook.getLineNumber.
  set (h := stream_hook_ s) in *.
  rewrite Hread in Hin, Hp. rewrite length_app in Hp.
  rewrite <- Hin, <- app_assoc.
  replace (Z.to_nat (stream_position_ h - position_ h))
    with (List.length (consumed_chars_ h)) by lia.
  replace (Z.to_nat (position_ h)) with (List.length before) by lia.
  replace (Z.to_nat (position_ h - 0)) with (List.length before) by lia.
  repeat split.
  - symmetry. apply firstn_skipn_middle.
  - rewrite Hln. do 2 f_equal. simpl.
    rewrite firstn_app, firstn_all, Nat.sub_diag; simpl.
    symmetry; apply app_nil_r.
  - lia.
  - lia.
  - rewrite !length_app. lia.
Qed.

Lemma buffer_is_the_text_read_witness :
  exists s,
    session_on ("go" ++ Report.NL ++ "x") s
    /\ buffer s
       = slice (list_ascii_of_string ("go" ++ Report.NL ++ "x")) (cp s) (sp s).
Proof.
  assert (H : exists s, session_on ("go" ++ Report.NL ++ "x") s /\ sp s = 3).
  { eexists. split.
    - eapply (on_returned _ 8 8); [apply on_start|vm_compute; reflexivity].
    - reflexivity. }
  destruct H as (s & H & _). exists s. split; [exact H|].
  exact (proj1 (buffer_is_the_text_read _ s H)).
Defined.

Lemma upcoming_app lf a : forall b s s',
  upcoming lf (a ++ b) s s' <->
  exists mid, upcoming lf a s mid /\ upcoming lf b mid s'.
Proof.
  induction a as [|t a IH]; intros b s s'; simpl.
  - split.
    + intros H. exists s. split; [reflexivity|exact H].
    + intros (mid & -> & H). exact H.
  - split.
    + intros (s1 & Hn & Hup). apply IH in Hup. destruct Hup as (mid & Ha & Hb).
      exists mid. split; [exists s1; split; assumption|exact Hb].
    + intros (mid & (s1 & Hn & Ha) & Hb). exists s1. split; [exact Hn|].
      apply IH. exists mid. split; assumption.
Qed.

(** The state with [t] in the lookahead delivers what the state before
    [t] was read delivers. *)
Lemma upcoming_primed lf t ts s1 s2 s' :
  nextToken lf s1 = Ok t s2 ->
  upcoming lf ts s2 s' ->
  upcoming lf (t :: ts) (mkParser (stream_hook_ s2) (Some t)) s'.
Proof.
  intros Hn Hup. exists s2. split; [|exact Hup].
  apply next_of_primed. exact (nextToken_unpeeked lf s1 t s2 Hn).
Qed.

Lemma statement_body_head multiline ts args last :
  statement_body multiline ts args last ->
  exists t r, ts = t :: r /\ CLIToken.type t <> CLIToken.Comma.
Proof.
  destruct 1 as [last [H|H]|m t a ts args last Ha _|m o c ns numbers v ts args last Hd
                |m n c ns rest v ts args last Hn
                |m t ts args last Ht|t ts args last Ht|t ts args last Ht
                |t ts args last Ht];
    eexists _, _; (split; [reflexivity|]); try congruence.
  - unfold simple_argument in Ha. intros E. rewrite E in Ha. discriminate.
  - destruct Hd as [[E _]|[E _]]; congruence.
  - unfold isNumber in Hn. intros E. rewrite E in Hn. discriminate.
Qed.

Lemma parseArgument_simple lf fuel s t a s1 t2 s2 :
  nextToken lf s = Ok t s1 ->
  simple_argument t = Some a ->
  nextToken lf s1 = Ok t2 s2 ->
  CLIToken.type t2 <> CLIToken.Comma ->
  exists s1',
    parseArgument lf fuel s = Ok a s1'
    /\ nextToken lf s1' = Ok t2 s2.
Proof.
  intros Hn Ha Hn2 Hnc.
  destruct (peek_then_next _ _ _ _ Hn) as [Hpeek Hnext].
  destruct (peek_then_next _ _ _ _ Hn2) as [Hpeek2 Hnext2].
  unfold parseArgument. rewrite (bind_Ok _ _ _ _ _ Hpeek).
  unfold simple_argument in Ha.
  assert (Hcomma : CLIToken.Type_eqb (CLIToken.type t2) CLIToken.Comma = false).
  { destruct (CLIToken.Type_eqb (CLIToken.type t2) CLIToken.Comma) eqn:E;
      [apply Type_eqb_eq in E; contradiction|reflexivity]. }
  destruct (CLIToken.type t); try discriminate;
    rewrite (bind_Ok _ _ _ _ _ Hnext).
  - injection Ha as <-. exists s1. split; [reflexivity|exact Hn2].
  - injection Ha as <-. exists s1. split; [reflexivity|exact Hn2].
  - rewrite (bind_Ok _ _ _ _ _ Hpeek2), Hcomma.
    destruct (StdNum.stoll (CLIToken.value t)) as [i|] eqn:Ei; [|discriminate].
    injection Ha as <-. rewrite (bind_Ok _ _ _ _ _ (stoll_Ok _ _ _ Ei)).
    eexists. split; [reflexivity|exact Hnext2].
  - rewrite (bind_Ok _ _ _ _ _ Hpeek2), Hcomma.
    destruct (StdNum.stod (CLIToken.value t)) as [d|] eqn:Ed; [|discriminate].
    injection Ha as <-. rewrite (bind_Ok _ _ _ _ _ (stod_Ok _ _ _ Ed)).
    eexists. split; [reflexivity|exact Hnext2].
Qed.

Lemma simple_argument_type t a :
  simple_argument t = Some a ->
  CLIToken.type t = CLIToken.Identifier \/ CLIToken.type t = CLIToken.String
  \/ CLIToken.type t = CLIToken.Integer \/ CLIToken.type t = CLIToken.Float.
Proof.
  unfold simple_argument. destruct (CLIToken.type t); try discriminate; auto.
Qed.

Lemma statement_body_parsed lf multiline ts args last :
  statement_body multiline ts args last ->
  forall fuel acc s s',
    upcoming lf ts s s' ->
    (List.length ts < fuel)%nat ->
    parseArgumentList_loop lf fuel multiline acc s
    = Ok (acc ++ args)%list (after_statement last s').
Proof.
  induction 1 as [last Hlast|m t a ts args last Ha Hbody IH
                 |m o c ns numbers v ts args last Hd Hcs Hv Hbody IH
                 |m n c ns rest v ts args last Hnum Hcomma Hcs Hv Hguard Hbody IH
                 |m t ts args last Ht Hbody IH|t ts args last Ht Hbody IH
                 |t ts args last Ht Hbody IH|t ts args last Ht Hbody IH];
    intros fuel acc s s' Hup Hfuel;
    (destruct fuel as [|fuel]; [simpl in Hfuel; lia|]).
  - destruct Hup as (s1 & Hn & <-).
    destruct (peek_then_next _ _ _ _ Hn) as [Hpeek Hnext].
    simpl. rewrite (bind_Ok _ _ _ _ _ Hpeek), app_nil_r.
    unfold after_statement. destruct Hlast as [E|E]; rewrite E.
    + rewrite (bind_Ok _ _ _ _ _ Hnext). reflexivity.
    + reflexivity.
  - destruct (statement_body_head _ _ _ _ Hbody) as (t2 & r & -> & Hnc).
    destruct Hup as (s1 & Hn & s2 & Hn2 & Hup).
    destruct (peek_then_next _ _ _ _ Hn) as [Hpeek Hnext].
    destruct (parseArgument_simple lf fuel _ t a s1 t2 s2 Hnext Ha Hn2 Hnc)
      as (s1' & Harg & Hn2').
    assert (Hloop :
      (arg <- parseArgument lf fuel ;;
       parseArgumentList_loop lf fuel m (acc ++ [arg])%list)
        (mkParser (stream_hook_ s1) (Some t))
      = Ok (acc ++ a :: args)%list (after_statement last s')).
    { rewrite (bind_Ok _ _ _ _ _ Harg).
      rewrite (IH fuel (acc ++ [a])%list s1' s').
      - rewrite <- app_assoc. reflexivity.
      - exists s2. split; assumption.
      - simpl in Hfuel |- *. lia. }
    simpl. rewrite (bind_Ok _ _ _ _ _ Hpeek).
    destruct (simple_argument_type t a Ha) as [E|[E|[E|E]]]; rewrite E; exact Hloop.
  - change (o :: ns ++ c :: ts)%list with ((o :: ns) ++ c :: ts)%list in Hup.
    apply upcoming_app in Hup. destruct Hup as (s2 & (s1 & Hn & Hns) & s3 & Hc & Hup).
    destruct (peek_then_next _ _ _ _ Hn) as [Hpeek Hnext].
    simpl in Hfuel. rewrite length_app in Hfuel. simpl in Hfuel.
    assert (Harg : parseArgument lf fuel (mkParser (stream_hook_ s1) (Some o))
                   = Ok v s3).
    { apply (parseArgument_delimited_vector lf fuel _ o c ns numbers s1 s2 s3 v);
        try assumption. lia. }
    assert (Hloop :
      (arg <- parseArgument lf fuel ;;
       parseArgumentList_loop lf fuel m (acc ++ [arg])%list)
        (mkParser (stream_hook_ s1) (Some o))
      = Ok (acc ++ v :: args)%list (after_statement last s')).
    { rewrite (bind_Ok _ _ _ _ _ Harg).
      rewrite (IH fuel (acc ++ [v])%list s3 s' Hup ltac:(lia)).
      rewrite <- app_assoc. reflexivity. }
    simpl. rewrite (bind_Ok _ _ _ _ _ Hpeek).
    destruct Hd as [[E _]|[E _]]; rewrite E; exact Hloop.
  - destruct (statement_body_head _ _ _ _ Hbody) as (t2 & r & -> & Hnc).
    destruct Hup as (s1 & Hn & s1' & Hc & Hup).
    apply upcoming_app in Hup. destruct Hup as (s2 & Hns & s3 & Ht2 & Hup).
    destruct (peek_then_next _ _ _ _ Hn) as [Hpeek Hnext].
    simpl in Hfuel. rewrite length_app in Hfuel. simpl in Hfuel.
    assert (Harg : parseArgument lf fuel (mkParser (stream_hook_ s1) (Some n))
                   = Ok v (mkParser (stream_hook_ s3) (Some t2))).
    { apply (parseArgument_bare_vector lf fuel _ n c ns rest t2 s1 s1' s2 s3 v);
        try assumption.
      - exact (Hguard t2 r eq_refl).
      - lia. }
    assert (Hloop :
      (arg <- parseArgument lf fuel ;;
       parseArgumentList_loop lf fuel m (acc ++ [arg])%list)
        (mkParser (stream_hook_ s1) (Some n))
      = Ok (acc ++ v :: args)%list (after_statement last s')).
    { rewrite (bind_Ok _ _ _ _ _ Harg).
      rewrite (IH fuel (acc ++ [v])%list _ s'
                 (upcoming_primed lf t2 r s2 s3 s' Ht2 Hup) ltac:(simpl; lia)).
      rewrite <- app_assoc. reflexivity. }
    simpl. rewrite (bind_Ok _ _ _ _ _ Hpeek).
    destruct (isNumber_cases n Hnum) as [[E _]|[E _]]; rewrite E; exact Hloop.
  - destruct Hup as (s1 & Hn & Hup).
    destruct (peek_then_next _ _ _ _ Hn) as [Hpeek Hnext].
    simpl. rewrite (bind_Ok _ _ _ _ _ Hpeek), Ht.
    rewrite (bind_Ok _ _ _ _ _ Hnext).
    apply IH; [exact Hup|simpl in Hfuel; lia].
  - destruct Hup as (s1 & Hn & Hup).
    destruct (peek_then_next _ _ _ _ Hn) as [Hpeek Hnext].
    simpl. rewrite (bind_Ok _ _ _ _ _ Hpeek), Ht.
    rewrite (bind_Ok _ _ _ _ _ Hnext).
    apply IH; [exact Hup|simpl in Hfuel; lia].
  - destruct Hup as (s1 & Hn & Hup).
    destruct (peek_then_next _ _ _ _ Hn) as [Hpeek Hnext].
    simpl. rewrite (bind_Ok _ _ _ _ _ Hpeek), Ht.
    rewrite (bind_Ok _ _ _ _ _ Hnext).
    apply IH; [exact Hup|simpl in Hfuel; lia].
  - destruct Hup as (s1 & Hn & Hup).
    destruct (peek_then_next _ _ _ _ Hn) as [Hpeek Hnext].
    simpl. rewrite (bind_Ok _ _ _ _ _ Hpeek), Ht.
    rewrite (bind_Ok _ _ _ _ _ Hnext).
    apply IH; [exact Hup|simpl in Hfuel; lia].
Qed.

Lemma upcoming_peek lf t r s s' :
  upcoming lf (t :: r) s s' ->
  exists s0 s1,
    peekToken lf s = Ok t s0
    /\ nextToken lf s0 = Ok t s1
    /\ upcoming lf r s1 s'.
Proof.
  intros (s1 & Hn & Hup).
  destruct (peek_then_next _ _ _ _ Hn) as [Hpeek Hnext].
  eexists _, s1. split; [exact Hpeek|split; [exact Hnext|exact Hup]].
Qed.

Lemma statement_finished lf ts args last fuel command s s' :
  statement_body false ts args last ->
  upcoming lf ts s s' ->
  (List.length ts < fuel)%nat ->
  finishCommand lf fuel command s
  = Ok (mkCommand (name command) args) (checkpointed (after_statement last s')).
Proof.
  intros Hbody Hup Hfuel. unfold finishCommand, parseArgumentList.
  rewrite (bind_Ok _ _ _ _ _
             (statement_body_parsed lf false ts args last Hbody fuel [] s s' Hup Hfuel)).
  reflexivity.
Qed.

Ltac hand_over D E :=
  match goal with
  | Hup : upcoming ?lf (?t :: ?r) ?s ?s', Hname : empty (name ?command) = false
    |- parseCommand_loop ?lf (S ?fuel) ?command ?s = _ =>
      let s0 := fresh "s0" in
      let s1 := fresh "s1" in
      let Hpeek := fresh "Hpeek" in
      let Hnext := fresh "Hnext" in
      let Hup' := fresh "Hup" in
      destruct (upcoming_peek lf t r s s' Hup) as (s0 & s1 & Hpeek & Hnext & Hup');
      simpl; rewrite (bind_Ok _ _ _ _ _ Hpeek), E, ?Hname;
      apply (statement_finished lf _ _ _ fuel command s0 s' D);
      [exists s1; split; assumption|simpl in *; lia]
  end.

Lemma statement_after_name lf ts args last :
  statement_body false ts args last ->
  forall fuel command s s',
    upcoming lf ts s s' ->
    empty (name command) = false ->
    arguments command = [] ->
    (List.length ts + 1 < fuel)%nat ->
    parseCommand_loop lf fuel command s
    = Ok (mkCommand (name command) args) (checkpointed (after_statement last s')).
Proof.
  intros Hbody.
  remember false as multiline eqn:Hm.
  induction Hbody as [last Hlast|m t a ts args last Ha Hbody IH
                 |m o c ns numbers v ts args last Hd Hcs Hv Hbody IH
                 |m n c ns rest v ts args last Hnum Hcomma Hcs Hv Hguard Hbody IH
                 |m t ts args last Ht Hbody IH|t ts args last Ht Hbody IH
                 |t ts args last Ht Hbody IH|t ts args last Ht Hbody IH];
    intros fuel command s s' Hup Hname Hargs Hfuel; try discriminate;
    (destruct fuel as [|fuel]; [lia|]); subst.
  - destruct Hlast as [E|E].
    + hand_over (body_end last (or_introl E)) E.
    + destruct Hup as (s1 & Hn & <-).
      destruct (peek_then_next _ _ _ _ Hn) as [Hpeek Hnext].
      simpl. rewrite (bind_Ok _ _ _ _ _ Hpeek), E.
      unfold after_statement; rewrite E.
      destruct command as [n a]; simpl in *; subst a. reflexivity.
  - pose proof (body_simple false t a ts args last Ha Hbody) as D.
    destruct (simple_argument_type t a Ha) as [E|[E|[E|E]]]; hand_over D E.
  - pose proof (body_vector false o c ns numbers v ts args last Hd Hcs Hv Hbody) as D.
    destruct Hd as [[E E']|[E E']]; hand_over D E.
  - pose proof (body_bare false n c ns rest v ts args last
                  Hnum Hcomma Hcs Hv Hguard Hbody) as D.
    destruct (isNumber_cases n Hnum) as [[E _]|[E _]]; hand_over D E.
  - destruct Hup as (s1 & Hn & Hup).
    destruct (peek_then_next _ _ _ _ Hn) as [Hpeek Hnext].
    simpl. rewrite (bind_Ok _ _ _ _ _ Hpeek), Ht.
    rewrite (bind_Ok _ _ _ _ _ Hnext).
    apply IH; try assumption; try reflexivity. simpl in Hfuel; lia.
  - pose proof (body_open t ts args last Ht Hbody) as D. hand_over D Ht.
Qed.

(** X14.  A well-formed statement parses to its command.  When the lexer
    delivers a non-empty identifier followed by tokens that make up a
    statement body, [parseCommand] returns the command named by the
    identifier with the arguments in source order, and returns with the
    buffer cleared.  A statement body is made of single-token arguments,
    of vectors of one number or more between matching parentheses or
    brackets, and of bare vectors of two numbers or more, where a bare
    vector that a number token follows directly has to hold three numbers
    at least ([go 1,2 3] is refused, a comma being expected at [3]); every
    number token's text has to convert.  Between the arguments there may
    be comments, braces that are opened and closed in turn without
    nesting, and, while a brace is open, line ends; the statement is
    closed by a line end outside braces or by the end of the input. *)
Theorem well_formed_statement lf fuel s name_token ts args last s' :
  upcoming lf (name_token :: ts) s s' ->
  CLIToken.type name_token = CLIToken.Identifier ->
  empty (CLIToken.value name_token) = false ->
  statement_body false ts args last ->
  (List.length ts + 2 < fuel)%nat ->
  parseCommand lf fuel s
  = Ok (mkCommand (CLIToken.value name_token) args)
       (checkpointed (after_statement last s')).
Proof.
  intros Hup Htype Hname Hbody Hfuel.
  destruct (upcoming_peek lf _ _ _ _ Hup) as (s0 & s1 & Hpeek & Hnext & Hup').
  unfold parseCommand. destruct fuel as [|fuel]; [lia|]. simpl.
  rewrite (bind_Ok _ _ _ _ _ Hpeek), Htype.
  rewrite (bind_Ok _ _ _ _ _ Hnext).
  apply (statement_after_name lf ts args last Hbody fuel
           (mkCommand (CLIToken.value name_token) []) s1 s' Hup' Hname eq_refl).
  lia.
Qed.

Lemma well_formed_statement_witness :
  exists cmd s',
    parseCommand 8 11 (parser_on ("go 1,2 x {" ++ Report.NL ++ "}" ++ Report.NL))
    = Ok cmd s'
    /\ name cmd = "go"
    /\ arguments cmd
       = [Argument.mk Argument.IntegerVector (Argument.IntegerVectorData [1; 2]);
          Argument.mk Argument.Identifier (Argument.StringData "x")].
Proof.
  eexists _, _. split.
  - eapply (well_formed_statement 8 11 _ _ [_; _; _; _; _; _; _; _]).
    + repeat (eexists; split; [vm_compute; reflexivity|]). reflexivity.
    + reflexivity.
    + reflexivity.
    + eapply (body_bare false _ _ [_] [_] _ [_; _; _; _; _]).
      * reflexivity.
      * reflexivity.
      * apply cs_one. reflexivity.
      * vm_compute; reflexivity.
      * intros t r E. injection E as <- _. discriminate.
      * apply body_simple; [reflexivity|].
        apply body_open; [reflexivity|].
        apply body_newline; [reflexivity|].
        apply body_close; [reflexivity|].
        apply body_end. left. reflexivity.
    + simpl. lia.
  - split; reflexivity.
Defined.

(** X15.  A delimited vector must be closed by the delimiter that matches
    its opener.  After an opening parenthesis or bracket and a
    comma-separated list of numbers, any other token that ends the list (a
    line end, the end of the input, the wrong closer, a further number once
    the list holds two) is consumed and reported as unexpected, the
    matching closer being named as what was expected. *)
Theorem vector_must_be_closed
  lf fuel s opener expected ts numbers t s1 s2 s3 v :
  nextToken lf s = Ok opener s1 ->
  closer_of (CLIToken.type opener) = Some expected ->
  comma_separated ts numbers ->
  upcoming lf ts s1 s2 ->
  nextToken lf s2 = Ok t s3 ->
  CLIToken.type t <> CLIToken.Comma ->
  (isNumber t = true -> List.length numbers <> 1%nat) ->
  CLIToken.type t <> expected ->
  promoted numbers = Some v ->
  (List.length ts < fuel)%nat ->
  parseArgument lf fuel s
  = Throw (Report.error error_reporter_ (stream_hook_ s3)
             (UnexpectedToken expected t)) s3.
Proof.
  intros Hopen Hcloser Hcs Hup Hend Hnc Hnum Hne Hv Hfuel.
  destruct (peek_then_next _ _ _ _ Hopen) as [Hpeek Hnext].
  pose proof (next_of_primed lf s3 t (nextToken_unpeeked _ _ _ _ Hend)) as Hnextt.
  assert (Hlist :
    parseNumberList lf fuel s1 = Ok v (mkParser (stream_hook_ s3) (Some t))).
  { unfold parseNumberList.
    rewrite (loop_reads_list lf ts numbers Hcs fuel true [] true s1 s2 t s3
               Hup Hend Hnc Hnum Hfuel).
    apply returnVector_promoted. exact Hv. }
  assert (Hmis : CLIToken.Type_eqb (CLIToken.type t) expected = false).
  { destruct (CLIToken.Type_eqb (CLIToken.type t) expected) eqn:E;
      [apply Type_eqb_eq in E; contradiction|reflexivity]. }
  unfold parseArgument. rewrite (bind_Ok _ _ _ _ _ Hpeek).
  unfold closer_of in Hcloser.
  destruct (CLIToken.type opener) eqn:Ho; try discriminate;
    injection Hcloser as <-;
    unfold parseVector;
    rewrite (bind_Ok _ _ _ _ _
               (peekToken_cached lf (mkParser (stream_hook_ s1) (Some opener))
                  opener eq_refl)), Ho; cbv iota;
    rewrite (bind_Ok _ _ _ _ _ Hnext), (bind_Ok _ _ _ _ _ Hlist),
            (bind_Ok _ _ _ _ _ Hnextt), Hmis; reflexivity.
Qed.

Lemma vector_must_be_closed_witness :
  exists t s',
    parseArgument 8 8 (parser_on "(1,2]")
    = Throw (Report.error error_reporter_ (stream_hook_ s')
               (UnexpectedToken CLIToken.RightParen t)) s'
    /\ CLIToken.type t = CLIToken.RightBracket.
Proof.
  eexists _, _. split.
  - eapply (vector_must_be_closed 8 8 (parser_on "(1,2]") _ _ [_; _; _] [_; _]).
    + vm_compute; reflexivity.
    + reflexivity.
    + apply cs_more; [| |apply cs_one]; shelve.
    + repeat (eexists; split; [vm_compute; reflexivity|]). reflexivity.
    + vm_compute; reflexivity.
    + discriminate.
    + intros _. discriminate.
    + discriminate.
    + vm_compute; reflexivity.
    + simpl. lia.
  - reflexivity.
  Unshelve. all: reflexivity.
Defined.

(** X16.  Where a number list expects a number, at its start and after
    every comma, any other token is consumed and reported, the diagnostic
    saying that a number was expected.  So an empty pair of delimiters, a
    leading comma, two commas in a row and a trailing comma are all
    errors. *)
Theorem number_list_wants_a_number :
  (forall lf fuel s t s1,
      nextToken lf s = Ok t s1 ->
      isNumber t = false ->
      parseNumberList lf (S fuel) s
      = Throw (Report.error error_reporter_ (stream_hook_ s1)
                 (UnexpectedTokenText "number" t)) s1)
  /\ (forall lf fuel s ts numbers c s1 s2 t s3,
         comma_separated ts numbers ->
         upcoming lf ts s s1 ->
         nextToken lf s1 = Ok c s2 ->
         CLIToken.type c = CLIToken.Comma ->
         nextToken lf s2 = Ok t s3 ->
         isNumber t = false ->
         parseNumberList lf (List.length ts + 2 + fuel) s
         = Throw (Report.error error_reporter_ (stream_hook_ s3)
                    (UnexpectedTokenText "number" t)) s3).
Proof.
  split.
  - intros lf fuel s t s1 Hn Hnum. apply loop_wants_number; assumption.
  - intros lf fuel s ts numbers c s1 s2 t s3 Hcs Hup Hc Hcomma Ht Hnum.
    unfold parseNumberList.
    replace (List.length ts + 2 + fuel)%nat
      with (List.length ts + 1 + S fuel)%nat by lia.
    rewrite (loop_reaches_comma lf ts numbers Hcs (S fuel) true [] true
               s s1 c s2 Hup Hc Hcomma).
    apply loop_wants_number; assumption.
Qed.

Lemma number_list_wants_a_number_witness :
  exists t s',
    parseNumberList 8 8 (parser_on ")")
    = Throw (Report.error error_reporter_ (stream_hook_ s')
               (UnexpectedTokenText "number" t)) s'.
Proof.
  eexists _, _.
  apply (proj1 number_list_wants_a_number 8%nat 7%nat (parser_on ")")).
  - vm_compute; reflexivity.
  - reflexivity.
Defined.

(** ** Decimal texts of integers *)

Lemma read_digits_decimal (d : Decimal.uint) : forall acc n,
  StdNum.read_digits (NilEmpty.string_of_uint d) acc n
  = (decimal_value d acc, (n + Decimal.nb_digits d)%nat, "").
Proof.
  induction d; intros acc n; cbn [NilEmpty.string_of_uint StdNum.read_digits
                                  decimal_value Decimal.nb_digits];
    try (rewrite Nat.add_0_r; reflexivity);
    change (isDigit _) with true; cbv iota; rewrite IHd;
    rewrite Nat.add_succ_r; reflexivity.
Qed.

Lemma of_uint_acc_value (d : Decimal.uint) : forall p,
  Z.pos (Pos.of_uint_acc d p) = decimal_value d (Z.pos p).
Proof.
  induction d; intros p; cbn [Pos.of_uint_acc decimal_value];
    try reflexivity; rewrite IHd; f_equal; lia.
Qed.

Lemma of_uint_value (d : Decimal.uint) : Z.of_uint d = decimal_value d 0.
Proof.
  unfold Z.of_uint.
  induction d; cbn [Pos.of_uint decimal_value]; try reflexivity;
    try exact IHd; cbn [Z.of_N]; rewrite of_uint_acc_value; reflexivity.
Qed.

Lemma decimal_value_Nil_text acc n :
  StdNum.read_digits (NilZero.string_of_uint Decimal.Nil) acc n
  = (10 * acc + 0, S n, "").
Proof. reflexivity. Qed.

Lemma read_digits_uint (d : Decimal.uint) :
  exists n,
    StdNum.read_digits (NilZero.string_of_uint d) 0 0 = (Z.of_uint d, S n, "").
Proof.
  rewrite of_uint_value.
  destruct d; try (exists O; reflexivity);
    unfold NilZero.string_of_uint;
    cbn [NilEmpty.string_of_uint StdNum.read_digits decimal_value];
    change (isDigit _) with true; cbv iota;
    rewrite read_digits_decimal; eexists; reflexivity.
Qed.

Lemma string_of_uint_head (d : Decimal.uint) :
  exists c r, NilZero.string_of_uint d = String c r /\ isDigit c = true.
Proof.
  destruct d; eexists _, _; (split; [reflexivity|reflexivity]).
Qed.

(** [std::stoll] reads back what [std::to_string] printed. *)
Lemma stoll_to_string_int64 i :
  StdNum.int64_min <= i <= StdNum.int64_max ->
  StdNum.stoll (StdNum.to_string_int64 i) = Some i.
Proof.
  intros Hrange. unfold StdNum.stoll, StdNum.to_string_int64.
  pose proof (DecimalZ.of_to i) as Hof.
  destruct (Z.to_int i) as [d|d]; cbn [NilZero.string_of_int Z.of_int] in *.
  - destruct (string_of_uint_head d) as (c & r & Hs & Hc).
    assert (Hsign : StdNum.read_sign (NilZero.string_of_uint d)
                    = (false, NilZero.string_of_uint d)).
    { rewrite Hs. unfold StdNum.read_sign.
      destruct (Ascii.eqb_spec c "-") as [->|_]; [discriminate|].
      destruct (Ascii.eqb_spec c "+") as [->|_]; [discriminate|]. reflexivity. }
    rewrite Hsign. destruct (read_digits_uint d) as (n & ->).
    cbn [StdNum.signed]. rewrite Hof.
    destruct (Z.leb_spec StdNum.int64_min i); [|lia].
    destruct (Z.leb_spec i StdNum.int64_max); [|lia]. reflexivity.
  - cbn [StdNum.read_sign]. change (Ascii.eqb "-" "-") with true. cbv iota.
    destruct (read_digits_uint d) as (n & ->).
    cbn [StdNum.signed]. rewrite Hof.
    destruct (Z.leb_spec StdNum.int64_min i); [|lia].
    destruct (Z.leb_spec i StdNum.int64_max); [|lia]. reflexivity.
Qed.

Lemma extract_int64_range text i :
  StdNum.extract_int64 text = Some i ->
  StdNum.int64_min <= i <= StdNum.int64_max.
Proof.
  unfold StdNum.extract_int64.
  destruct (StdNum.read_sign text) as [neg r].
  destruct (StdNum.read_digits r 0 0) as [[v n] rest].
  destruct n; [discriminate|]. destruct rest; [|discriminate].
  destruct (Z.leb_spec StdNum.int64_min (StdNum.signed neg v)); [|discriminate].
  destruct (Z.leb_spec (StdNum.signed neg v) StdNum.int64_max); [|discriminate].
  simpl. intros Hi; injection Hi as <-. split; assumption.
Qed.

Lemma classifyNumber_convertible value begin end_ :
  convertible (classifyNumber value begin end_).
Proof.
  unfold classifyNumber, convertible.
  destruct (StdNum.extract_int64 (candidate value)) as [i|] eqn:Ei.
  - destruct (has_suffix value); [discriminate|]. intros _. exists i.
    apply stoll_to_string_int64. exact (extract_int64_range _ _ Ei).
  - destruct (StdNum.extract_float (candidate value)); discriminate.
Qed.

(** ** Total correctness of the parser *)

Lemma total_bind {A B} (m : M A) (k : A -> M B) s Q E :
  total (m s) (fun a s' => total (k a s') Q E) E -> total (bind m k s) Q E.
Proof. unfold bind, total; destruct (m s); auto. Qed.

Lemma total_mono {A} (o : outcome A) (Q Q' : A -> CLIParser -> Prop)
  (E E' : exn -> CLIParser -> Prop) :
  total o Q E ->
  (forall a s, Q a s -> Q' a s) ->
  (forall e s, E e s -> E' e s) ->
  total o Q' E'.
Proof. unfold total; destruct o; auto. Qed.

Lemma comments_closed_suffix cs rest :
  comments_closed (cs ++ rest) -> comments_closed rest.
Proof.
  induction cs as [|c cs IH]; [auto|].
  intros H. apply IH. exact (comments_closed_tail c _ H).
Qed.

Lemma readNextToken_convertible (fuel : nat) : forall s t s',
  readNextToken fuel s = Ok t s' -> convertible t.
Proof.
  induction fuel as [|fuel IH]; intros s t s'; [discriminate|].
  simpl. intros H. apply bind_inv_Ok in H. destruct H as (r & s1 & _ & H).
  destruct r as [c|].
  - apply bind_inv_Ok in H. destruct H as (p & s2 & _ & H).
    destruct (isIdentifierStart c).
    { apply bind_inv_Ok in H. destruct H as ([] & s3 & _ & H).
      unfold readIdentifier in H.
      apply bind_inv_Ok in H. destruct H as (b & s4 & _ & H).
      apply bind_inv_Ok in H. destruct H as (ve & s5 & _ & H).
      injection H as <- _. intros E; discriminate. }
    destruct (Ascii.eqb c DQUOTE).
    { unfold readString in H.
      apply bind_inv_Ok in H. destruct H as (b & s4 & _ & H).
      apply bind_inv_Ok in H. destruct H as (ve & s5 & _ & H).
      injection H as <- _. intros E; discriminate. }
    destruct (isNumberStart c).
    { apply bind_inv_Ok in H. destruct H as ([] & s3 & _ & H).
      unfold readNumber in H.
      apply bind_inv_Ok in H. destruct H as (b & s4 & _ & H).
      apply bind_inv_Ok in H. destruct H as (ve & s5 & _ & H).
      injection H as <- _. apply classifyNumber_convertible. }
    destruct (punctuation c) as [type|] eqn:Hp.
    { injection H as <- _. intros E. simpl in E. subst type.
      revert Hp. unfold punctuation.
      repeat match goal with
             | |- context [Ascii.eqb c ?k] => destruct (Ascii.eqb c k)
             end; discriminate. }
    destruct (Ascii.eqb c "#").
    { apply bind_inv_Ok in H. destruct H as ([] & s3 & _ & H).
      unfold readComment in H.
      apply bind_inv_Ok in H. destruct H as (b & s4 & _ & H).
      apply bind_inv_Ok in H. destruct H as (ve & s5 & _ & H).
      injection H as <- _. intros E; discriminate. }
    destruct (isSkipped c); [exact (IH _ _ _ H)|].
    injection H as <- _. intros E; discriminate.
  - apply bind_inv_Ok in H. destruct H as (p & s2 & _ & H).
    injection H as <- _. intros E; discriminate.
Qed.

Lemma advanced_sp s s' :
  advanced s s' ->
  exists cs, visible s = (cs ++ visible s')%list
             /\ sp s' = sp s + Z.of_nat (List.length cs).
Proof.
  intros (cs & rest & Hvis & [->|[-> ->]]); exists cs.
  - rewrite (visible_consume _ _ _ Hvis), sp_consume. split; [exact Hvis|reflexivity].
  - split; [rewrite Hvis; reflexivity|].
    change (sp (at_eof (consume s cs))) with (sp (consume s cs)).
    apply sp_consume.
Qed.

(** Reading a token uses up input, unless it is the end-of-file token. *)
Lemma readNextToken_shrinks fuel s t s' :
  readNextToken fuel s = Ok t s' ->
  comments_closed (visible s) ->
  comments_closed (visible s')
  /\ (List.length (visible s') <= List.length (visible s))%nat
  /\ (CLIToken.type t <> CLIToken.EndOfFile ->
      (List.length (visible s') < List.length (visible s))%nat).
Proof.
  intros H Hclosed.
  destruct (advanced_sp s s' (readNextToken_advanced _ _ _ _ H)) as (cs & Hv & Hsp).
  pose proof (readNextToken_spec fuel s) as W. rewrite H in W.
  destruct W as (n & Hn & Hmoved & Hbegin & Hend & _ & Hne).
  rewrite Hv in Hclosed |- *. rewrite length_app. repeat split.
  - exact (comments_closed_suffix _ _ Hclosed).
  - lia.
  - intros Ht. specialize (Hne Ht). lia.
Qed.

Lemma pending_unpeeked s : peeked_token_ s = None -> pending s = O.
Proof. unfold pending. intros ->. reflexivity. Qed.

Lemma type_eqb_EndOfFile t :
  CLIToken.type t <> CLIToken.EndOfFile ->
  CLIToken.Type_eqb (CLIToken.type t) CLIToken.EndOfFile = false.
Proof.
  intros H. destruct (CLIToken.Type_eqb _ _) eqn:E; [|reflexivity].
  apply Type_eqb_eq in E. contradiction.
Qed.

(** What [nextToken] does in a ready state. *)
Lemma nextToken_total lf s :
  ready lf s ->
  total (nextToken lf s)
    (fun t s' =>
       ready lf s' /\ peeked_token_ s' = None /\ convertible t
       /\ (forall t0, peeked_token_ s = Some t0 -> t = t0)
       /\ (remaining s' <= remaining s)%nat
       /\ (CLIToken.type t <> CLIToken.EndOfFile -> (remaining s' < remaining s)%nat))
    (fun _ _ => False).
Proof.
  intros (Hclosed & Hfuel & Hconv). unfold nextToken, remaining.
  destruct (peeked_token_ s) as [t0|] eqn:Hpk.
  - assert (Hvis : visible (mkParser (stream_hook_ s) None) = visible s)
      by reflexivity.
    cbn [total]. unfold ready. rewrite Hvis. unfold pending. rewrite Hpk.
    cbn [peeked_token_].
    repeat split; try assumption.
    + intros t E; discriminate.
    + exact (Hconv t0 eq_refl).
    + intros t E. injection E as <-. reflexivity.
    + lia.
    + intros Ht. rewrite (type_eqb_EndOfFile t0 Ht). lia.
  - destruct (readNextToken_returns lf s Hclosed Hfuel) as (t & s' & E).
    rewrite E. simpl.
    destruct (readNextToken_shrinks lf s t s' E Hclosed) as (Hc' & Hle & Hlt).
    assert (Hpk' : peeked_token_ s' = None).
    { apply (nextToken_unpeeked lf s t s'). rewrite nextToken_fresh; assumption. }
    rewrite (pending_unpeeked s' Hpk'). unfold pending; rewrite Hpk.
    repeat split; try assumption.
    + lia.
    + intros t1 E1. rewrite Hpk' in E1. discriminate.
    + exact (readNextToken_convertible _ _ _ _ E).
    + intros t0 E0; discriminate.
    + lia.
    + intros Ht. specialize (Hlt Ht). lia.
Qed.

(** What [peekToken] does in a ready state. *)
Lemma peekToken_total lf s :
  ready lf s ->
  total (peekToken lf s)
    (fun t s' =>
       ready lf s' /\ peeked_token_ s' = Some t /\ (remaining s' <= remaining s)%nat)
    (fun _ _ => False).
Proof.
  intros (Hclosed & Hfuel & Hconv). unfold peekToken, remaining.
  destruct (peeked_token_ s) as [t0|] eqn:Hpk.
  - simpl. repeat split; try assumption.
    + intros t E. apply Hconv. rewrite <- Hpk. exact E.
    + lia.
  - destruct (readNextToken_returns lf s Hclosed Hfuel) as (t & s' & E).
    rewrite E. simpl.
    destruct (readNextToken_shrinks lf s t s' E Hclosed) as (Hc' & Hle & Hlt).
    assert (Hvis : visible (mkParser (stream_hook_ s') (Some t)) = visible s')
      by reflexivity.
    unfold ready. rewrite Hvis. unfold pending. rewrite Hpk.
    cbn [peeked_token_].
    repeat split; try assumption.
    + lia.
    + intros t1 E1. injection E1 as <-. exact (readNextToken_convertible _ _ _ _ E).
    + destruct (CLIToken.Type_eqb (CLIToken.type t) CLIToken.EndOfFile) eqn:Et; [lia|].
      assert (Hne : CLIToken.type t <> CLIToken.EndOfFile).
      { intros Ht. rewrite Ht in Et. discriminate. }
      specialize (Hlt Hne). lia.
Qed.

Lemma total_peek {A} lf (k : CLIToken.t -> M A) s Q :
  ready lf s ->
  (forall t s1,
      ready lf s1 -> peeked_token_ s1 = Some t -> (remaining s1 <= remaining s)%nat ->
      total (k t s1) Q (fails lf)) ->
  total (bind (peekToken lf) k s) Q (fails lf).
Proof.
  intros Hs Hk. apply total_bind.
  eapply total_mono; [exact (peekToken_total lf s Hs)| |intros e s' []].
  intros t s1 (H1 & H2 & H3). exact (Hk t s1 H1 H2 H3).
Qed.

Lemma total_next {A} lf (k : CLIToken.t -> M A) s Q :
  ready lf s ->
  (forall t s1,
      ready lf s1 -> peeked_token_ s1 = None -> convertible t ->
      (forall t0, peeked_token_ s = Some t0 -> t = t0) ->
      (remaining s1 <= remaining s)%nat ->
      (CLIToken.type t <> CLIToken.EndOfFile -> (remaining s1 < remaining s)%nat) ->
      total (k t s1) Q (fails lf)) ->
  total (bind (nextToken lf) k s) Q (fails lf).
Proof.
  intros Hs Hk. apply total_bind.
  eapply total_mono; [exact (nextToken_total lf s Hs)| |intros e s' []].
  intros t s1 (H1 & H2 & H3 & H4 & H5 & H6). exact (Hk t s1 H1 H2 H3 H4 H5 H6).
Qed.

Lemma total_raise {A} lf d s (Q : A -> CLIParser -> Prop) :
  ready lf s -> total (@raise A d s) Q (fails lf).
Proof.
  intros Hs. unfold raise.
  destruct (error_is_ParseError error_reporter_ (stream_hook_ s) d) as (what & ->).
  split; [exact I|exact Hs].
Qed.

Lemma total_next_raise {A} lf (d : CLIToken.t -> Diagnostic) s
  (Q : A -> CLIParser -> Prop) :
  ready lf s ->
  total ((token <- nextToken lf ;; @raise A (d token)) s) Q (fails lf).
Proof.
  intros Hs. apply total_next; [exact Hs|]. intros. apply total_raise. assumption.
Qed.

Lemma ready_checkpointed lf s : ready lf s -> ready lf (checkpointed s).
Proof. intros H. exact H. Qed.

Lemma remaining_checkpointed s : remaining (checkpointed s) = remaining s.
Proof. reflexivity. Qed.

Lemma total_clear {A} lf (k : unit -> M A) s Q :
  ready lf s ->
  (forall s1, ready lf s1 -> remaining s1 = remaining s -> total (k tt s1) Q (fails lf)) ->
  total (bind clearConsumedTokens k s) Q (fails lf).
Proof.
  intros Hs Hk. apply total_bind. simpl.
  exact (Hk (checkpointed s) (ready_checkpointed lf s Hs) (remaining_checkpointed s)).
Qed.

Lemma total_stoll {A} lf text (k : Z -> M A) s Q :
  (exists i, StdNum.stoll text = Some i) ->
  (forall i, total (k i s) Q (fails lf)) ->
  total (bind (stoll text) k s) Q (fails lf).
Proof.
  intros (i & Hi) Hk. rewrite (bind_Ok _ _ _ _ _ (stoll_Ok text i s Hi)). apply Hk.
Qed.

Lemma total_stod {A} lf text (k : float -> M A) s Q :
  ready lf s ->
  (forall d, total (k d s) Q (fails lf)) ->
  total (bind (stod text) k s) Q (fails lf).
Proof.
  intros Hs Hk. apply total_bind. unfold stod, library.
  destruct (StdNum.stod text) as [d|]; simpl.
  - apply Hk.
  - split; [reflexivity|exact Hs].
Qed.

Lemma number_ok_convertible t :
  number_ok t -> CLIToken.type t = CLIToken.Integer ->
  exists i, StdNum.stoll (CLIToken.value t) = Some i.
Proof. intros [_ H]. exact H. Qed.

Lemma integerVectorData_total lf (tokens : list CLIToken.t) s :
  ready lf s ->
  Forall number_ok tokens ->
  total (integerVectorData tokens s)
        (fun v s' => s' = s /\ List.length v = List.length tokens) (fails lf).
Proof.
  intros Hs. induction 1 as [|token rest Hok _ IH]; simpl; [split; reflexivity|].
  assert (Htail : forall v,
    total ((vs <- integerVectorData rest ;; ret (v :: vs)) s)
          (fun v s' => s' = s /\ List.length v = S (List.length rest)) (fails lf)).
  { intros v. apply total_bind. eapply total_mono; [exact IH| |auto].
    intros vs s' [-> Hlen]. simpl. split; [reflexivity|]. simpl. lia. }
  pose proof (number_ok_convertible token Hok) as Hconv.
  destruct Hok as [Hnum _]. unfold isNumber in Hnum.
  destruct (CLIToken.type token); try discriminate.
  - apply total_stoll; [apply Hconv; reflexivity|]. exact Htail.
  - unfold bind at 1. unfold bind at 1. unfold stod, library.
    destruct (StdNum.stod _); simpl; [apply Htail|split; [reflexivity|exact Hs]].
Qed.

Lemma floatVectorData_total lf (tokens : list CLIToken.t) s :
  ready lf s ->
  Forall number_ok tokens ->
  total (floatVectorData tokens s)
        (fun v s' => s' = s /\ List.length v = List.length tokens) (fails lf).
Proof.
  intros Hs. induction 1 as [|token rest Hok _ IH]; simpl; [split; reflexivity|].
  assert (Htail : forall v,
    total ((vs <- floatVectorData rest ;; ret (v :: vs)) s)
          (fun v s' => s' = s /\ List.length v = S (List.length rest)) (fails lf)).
  { intros v. apply total_bind. eapply total_mono; [exact IH| |auto].
    intros vs s' [-> Hlen]. simpl. split; [reflexivity|]. simpl. lia. }
  pose proof (number_ok_convertible token Hok) as Hconv.
  destruct Hok as [Hnum _]. unfold isNumber in Hnum.
  destruct (CLIToken.type token); try discriminate.
  - destruct (Hconv eq_refl) as (i & Hi).
    unfold bind at 1. unfold bind at 1. rewrite (stoll_Ok _ i s Hi). apply Htail.
  - apply total_stod; [exact Hs|]. exact Htail.
Qed.

Lemma nonempty_length {A} (v : list A) (n : nat) :
  List.length v = n -> n <> O -> v <> [].
Proof. intros <- H ->. apply H. reflexivity. Qed.

Lemma returnVector_total lf integer_vector tokens s :
  ready lf s ->
  Forall number_ok tokens ->
  tokens <> [] ->
  total (returnVector integer_vector tokens s)
        (fun a s' => s' = s /\ vector_ok a) (fails lf).
Proof.
  intros Hs Hok Hne.
  assert (Hlen : List.length tokens <> O).
  { destruct tokens; [contradiction|discriminate]. }
  unfold returnVector. destruct integer_vector; apply total_bind.
  - eapply total_mono; [exact (integerVectorData_total lf tokens s Hs Hok)| |auto].
    intros v s' [-> Hv]. simpl. split; [reflexivity|]. split; [|left; reflexivity].
    exact (nonempty_length v _ Hv Hlen).
  - eapply total_mono; [exact (floatVectorData_total lf tokens s Hs Hok)| |auto].
    intros v s' [-> Hv]. simpl. split; [reflexivity|]. split; [|right; reflexivity].
    exact (nonempty_length v _ Hv Hlen).
Qed.

Lemma not_EndOfFile t ty :
  CLIToken.type t = ty -> ty <> CLIToken.EndOfFile ->
  CLIToken.type t <> CLIToken.EndOfFile.
Proof. intros -> H. exact H. Qed.

(** Settles who the token just taken is, and that taking it used up
    input. *)
Ltac taken :=
  repeat match goal with
         | Hsame : forall t0, peeked_token_ ?s = Some t0 -> ?t = t0,
           Hpk : peeked_token_ ?s = Some ?t1 |- _ =>
             pose proof (Hsame t1 Hpk); subst t; clear Hsame
         end;
  repeat match goal with
         | Hlt : CLIToken.type ?t <> CLIToken.EndOfFile -> _,
           Et : CLIToken.type ?t = _ |- _ =>
             specialize (Hlt ltac:(rewrite Et; discriminate))
         end.

Lemma Forall_snoc {A} (P : A -> Prop) l a :
  Forall P l -> P a -> Forall P (l ++ [a]).
Proof. intros Hl Ha. apply Forall_app. split; [exact Hl|constructor; [exact Ha|constructor]]. Qed.

Lemma snoc_nonempty {A} (l : list A) a : (l ++ [a])%list <> [].
Proof. destruct l; discriminate. Qed.

Lemma parseNumberList_loop_total lf (fuel : nat) :
  forall comma first_number tokens integer_vector s,
    ready lf s ->
    (remaining s < fuel)%nat ->
    Forall number_ok tokens ->
    (comma = false -> tokens <> []) ->
    total (parseNumberList_loop lf fuel comma first_number tokens integer_vector s)
          (fun a s' => ready lf s' /\ (remaining s' <= remaining s)%nat /\ vector_ok a)
          (fails lf).
Proof.
  induction fuel as [|fuel IH];
    intros comma first_number tokens integer_vector s Hs Hfuel Hok Hne; [lia|].
  simpl. apply total_peek; [exact Hs|]. intros t s1 Hs1 Hpk1 Hle1.
  assert (Hret : forall iv, comma = false ->
            total (returnVector iv tokens s1)
                  (fun a s' => ready lf s' /\ (remaining s' <= remaining s)%nat /\ vector_ok a)
                  (fails lf)).
  { intros iv Hc.
    eapply total_mono; [exact (returnVector_total lf iv tokens s1 Hs1 Hok (Hne Hc))| |auto].
    intros a s' [-> Ha]. split; [exact Hs1|split; [exact Hle1|exact Ha]]. }
  assert (Hnum : forall iv, isNumber t = true ->
            total ((token <- nextToken lf ;;
                    parseNumberList_loop lf fuel false false (tokens ++ [token]) iv) s1)
                  (fun a s' => ready lf s' /\ (remaining s' <= remaining s)%nat /\ vector_ok a)
                  (fails lf)).
  { intros iv Ht. apply total_next; [exact Hs1|].
    intros t' s2 Hs2 Hpk2 Hconv Hsame Hle2 Hlt2.
    pose proof (Hsame t Hpk1); subst t'.
    assert (Hlt : (remaining s2 < remaining s1)%nat).
    { apply Hlt2. unfold isNumber in Ht. destruct (CLIToken.type t); discriminate. }
    eapply total_mono; [apply IH| |auto].
    - exact Hs2.
    - lia.
    - apply Forall_snoc; [exact Hok|split; assumption].
    - intros _. apply snoc_nonempty.
    - intros a s' (H1 & H2 & H3). split; [exact H1|split; [lia|exact H3]]. }
  assert (Hcomma : CLIToken.type t = CLIToken.Comma ->
            total ((nextToken lf ;;;
                    parseNumberList_loop lf fuel true first_number tokens
                                         integer_vector) s1)
                  (fun a s' => ready lf s' /\ (remaining s' <= remaining s)%nat /\ vector_ok a)
                  (fails lf)).
  { intros Et. apply total_next; [exact Hs1|].
    intros t' s2 Hs2 Hpk2 Hconv Hsame Hle2 Hlt2. taken.
    eapply total_mono; [apply IH| |auto].
    - exact Hs2.
    - lia.
    - exact Hok.
    - discriminate.
    - intros a s' (H1 & H2 & H3). split; [exact H1|split; [lia|exact H3]]. }
  destruct (CLIToken.type t) eqn:Et; destruct comma; cbn [negb];
    try destruct (size_is_1 tokens);
    try destruct first_number;
    try (apply total_next_raise; exact Hs1);
    try (apply Hret; reflexivity);
    try (apply Hnum; unfold isNumber; rewrite Et; reflexivity);
    try (apply Hcomma; reflexivity).
Qed.

Lemma parseNumberList_total lf fuel s :
  ready lf s ->
  (remaining s < fuel)%nat ->
  total (parseNumberList lf fuel s)
        (fun a s' => ready lf s' /\ (remaining s' <= remaining s)%nat /\ vector_ok a)
        (fails lf).
Proof.
  intros Hs Hfuel. unfold parseNumberList.
  apply parseNumberList_loop_total; try assumption; [constructor|discriminate].
Qed.

Lemma remaining_unpeek s t :
  peeked_token_ s = Some t ->
  CLIToken.type t <> CLIToken.EndOfFile ->
  remaining s = S (remaining (unpeek s)).
Proof.
  intros Hpk Ht. unfold remaining, pending, unpeek, visible. simpl. rewrite Hpk.
  rewrite (type_eqb_EndOfFile t Ht). lia.
Qed.

Lemma parseVector_total lf fuel s t :
  ready lf s ->
  peeked_token_ s = Some t ->
  CLIToken.type t = CLIToken.LeftParen \/ CLIToken.type t = CLIToken.LeftBracket ->
  (remaining s <= fuel)%nat ->
  total (parseVector lf fuel s)
        (fun a s' => ready lf s' /\ (remaining s' < remaining s)%nat /\ vector_ok a)
        (fails lf).
Proof.
  intros Hs Hpk Ht Hfuel. unfold parseVector.
  rewrite (bind_Ok _ _ _ _ _ (peekToken_cached lf s t Hpk)).
  assert (Hbody : forall closer,
    total ((nextToken lf ;;;
            arg <- parseNumberList lf fuel ;;
            token <- nextToken lf ;;
            (if CLIToken.Type_eqb (CLIToken.type token) closer
             then ret arg
             else raise (UnexpectedToken closer token))) s)
          (fun a s' => ready lf s' /\ (remaining s' < remaining s)%nat /\ vector_ok a)
          (fails lf)).
  { intros closer. apply total_next; [exact Hs|].
    intros t' s1 Hs1 Hpk1 _ Hsame Hle1 Hlt1.
    pose proof (Hsame t Hpk); subst t'.
    assert (Hlt : (remaining s1 < remaining s)%nat).
    { apply Hlt1. destruct Ht as [-> | ->]; discriminate. }
    apply total_bind.
    eapply total_mono; [apply (parseNumberList_total lf fuel s1 Hs1); lia| |auto].
    intros arg s2 (Hs2 & Hle2 & Harg).
    apply total_next; [exact Hs2|].
    intros token s3 Hs3 Hpk3 _ _ Hle3 _.
    destruct (CLIToken.Type_eqb (CLIToken.type token) closer).
    - simpl. split; [exact Hs3|split; [lia|exact Harg]].
    - apply total_raise. exact Hs3. }
  destruct Ht as [-> | ->]; apply Hbody.
Qed.

Lemma bare_vector_total lf fuel s (first : CLIToken.t) (integer : bool) :
  ready lf s ->
  (remaining s < fuel)%nat ->
  (if integer
   then exists i, StdNum.stoll (CLIToken.value first) = Some i
   else True) ->
  total
    ((arg <- parseNumberList lf fuel ;;
      if integer then
        match Argument.type arg with
        | Argument.IntegerVector =>
            match Argument.data arg with
            | Argument.IntegerVectorData value =>
                first <- stoll (CLIToken.value first) ;;
                ret (Argument.mk (Argument.type arg)
                                 (Argument.IntegerVectorData (first :: value)))
            | _ => bad_variant_access
            end
        | _ =>
            match Argument.data arg with
            | Argument.FloatVectorData value =>
                first <- stoll (CLIToken.value first) ;;
                ret (Argument.mk (Argument.type arg)
                       (Argument.FloatVectorData (StdNum.double_of_int64 first :: value)))
            | _ => bad_variant_access
            end
        end
      else
        match Argument.type arg with
        | Argument.FloatVector =>
            match Argument.data arg with
            | Argument.FloatVectorData value =>
                first <- stod (CLIToken.value first) ;;
                ret (Argument.mk (Argument.type arg)
                                 (Argument.FloatVectorData (first :: value)))
            | _ => bad_variant_access
            end
        | _ =>
            match Argument.data arg with
            | Argument.IntegerVectorData value =>
                first <- stod (CLIToken.value first) ;;
                ret (Argument.mk Argument.FloatVector
                       (Argument.FloatVectorData
                          (first :: List.map StdNum.double_of_int64 value)))
            | _ => bad_variant_access
            end
        end) s)
    (fun a s' => ready lf s' /\ (remaining s' <= remaining s)%nat /\ arg_ok a)
    (fails lf).
Proof.
  intros Hs Hfuel Hfirst. apply total_bind.
  eapply total_mono; [exact (parseNumberList_total lf fuel s Hs Hfuel)| |auto].
  intros [ty da] s1 (Hs1 & Hle1 & Hok & Hty).
  unfold arg_ok in Hok. cbn [Argument.type Argument.data] in *.
  destruct integer.
  - destruct Hty as [-> | ->]; destruct da; try contradiction;
      (apply total_stoll; [exact Hfirst|]); intros i; simpl;
      (split; [exact Hs1|split; [exact Hle1|discriminate]]).
  - destruct Hty as [-> | ->]; destruct da; try contradiction;
      (apply total_stod; [exact Hs1|]); intros d; simpl;
      (split; [exact Hs1|split; [exact Hle1|discriminate]]).
Qed.

Lemma type_eqb_true a b : CLIToken.Type_eqb a b = true -> a = b.
Proof. apply Type_eqb_eq. Qed.

Lemma parseArgument_total lf fuel s t :
  ready lf s ->
  peeked_token_ s = Some t ->
  starts_argument (CLIToken.type t) = true ->
  (remaining s <= fuel)%nat ->
  total (parseArgument lf fuel s)
        (fun a s' => ready lf s' /\ (remaining s' < remaining s)%nat /\ arg_ok a)
        (fails lf).
Proof.
  intros Hs Hpk Hstart Hfuel. unfold parseArgument.
  rewrite (bind_Ok _ _ _ _ _ (peekToken_cached lf s t Hpk)).
  assert (Hne : CLIToken.type t <> CLIToken.EndOfFile).
  { intros E. rewrite E in Hstart. discriminate. }
  destruct (CLIToken.type t) eqn:Et; try discriminate.
  - apply total_next; [exact Hs|].
    intros t' s1 Hs1 Hpk1 _ Hsame Hle1 Hlt1. taken. simpl.
    split; [exact Hs1|split; [lia|exact I]].
  - apply total_next; [exact Hs|].
    intros t' s1 Hs1 Hpk1 _ Hsame Hle1 Hlt1. taken. simpl.
    split; [exact Hs1|split; [lia|exact I]].
  - assert (Hconv : exists i, StdNum.stoll (CLIToken.value t) = Some i).
    { destruct Hs as (_ & _ & Hc). exact (Hc t Hpk Et). }
    apply total_next; [exact Hs|].
    intros t' s1 Hs1 Hpk1 _ Hsame Hle1 Hlt1. taken.
    apply total_peek; [exact Hs1|]. intros f s2 Hs2 Hpk2 Hle2.
    destruct (CLIToken.Type_eqb (CLIToken.type f) CLIToken.Comma) eqn:Ef.
    + apply type_eqb_true in Ef.
      apply total_next; [exact Hs2|].
      intros c s3 Hs3 Hpk3 _ Hsame3 Hle3 Hlt3. taken.
      eapply total_mono;
        [apply (bare_vector_total lf fuel s3 t true Hs3); [lia|exact Hconv]| |auto].
      intros a s' (H1 & H2 & H3). split; [exact H1|split; [lia|exact H3]].
    + apply total_stoll; [exact Hconv|]. intros i. simpl.
      split; [exact Hs2|split; [lia|exact I]].
  - apply total_next; [exact Hs|].
    intros t' s1 Hs1 Hpk1 _ Hsame Hle1 Hlt1. taken.
    apply total_peek; [exact Hs1|]. intros f s2 Hs2 Hpk2 Hle2.
    destruct (CLIToken.Type_eqb (CLIToken.type f) CLIToken.Comma) eqn:Ef.
    + apply type_eqb_true in Ef.
      apply total_next; [exact Hs2|].
      intros c s3 Hs3 Hpk3 _ Hsame3 Hle3 Hlt3. taken.
      eapply total_mono;
        [apply (bare_vector_total lf fuel s3 t false Hs3); [lia|exact I]| |auto].
      intros a s' (H1 & H2 & H3). split; [exact H1|split; [lia|exact H3]].
    + apply total_stod; [exact Hs2|]. intros d. simpl.
      split; [exact Hs2|split; [lia|exact I]].
  - eapply total_mono;
      [exact (parseVector_total lf fuel s t Hs Hpk (or_introl Et) Hfuel)| |auto].
    intros a s' (H1 & H2 & H3 & _). split; [exact H1|split; [exact H2|exact H3]].
  - apply total_next_raise. exact Hs.
  - eapply total_mono;
      [exact (parseVector_total lf fuel s t Hs Hpk (or_intror Et) Hfuel)| |auto].
    intros a s' (H1 & H2 & H3 & _). split; [exact H1|split; [exact H2|exact H3]].
  - apply total_next_raise. exact Hs.
Qed.

Lemma parseArgumentList_loop_total lf (fuel : nat) :
  forall multiline arguments s,
    ready lf s ->
    (remaining s < fuel)%nat ->
    Forall arg_ok arguments ->
    total (parseArgumentList_loop lf fuel multiline arguments s)
          (fun args s' =>
             ready lf s' /\ (remaining s' <= remaining s)%nat /\ Forall arg_ok args)
          (fails lf).
Proof.
  induction fuel as [|fuel IH]; intros multiline arguments s Hs Hfuel Hargs; [lia|].
  simpl. apply total_peek; [exact Hs|]. intros t s1 Hs1 Hpk1 Hle1.
  assert (Harg : starts_argument (CLIToken.type t) = true ->
    total ((arg <- parseArgument lf fuel ;;
            parseArgumentList_loop lf fuel multiline (arguments ++ [arg])) s1)
          (fun args s' =>
             ready lf s' /\ (remaining s' <= remaining s)%nat /\ Forall arg_ok args)
          (fails lf)).
  { intros Hstart. apply total_bind.
    eapply total_mono;
      [exact (parseArgument_total lf fuel s1 t Hs1 Hpk1 Hstart ltac:(lia))| |auto].
    intros arg s2 (Hs2 & Hlt2 & Harg).
    eapply total_mono; [apply (IH multiline (arguments ++ [arg])%list s2 Hs2)| |auto].
    - lia.
    - apply Forall_snoc; assumption.
    - intros args s' (H1 & H2 & H3). split; [exact H1|split; [lia|exact H3]]. }
  assert (Hskip : CLIToken.type t <> CLIToken.EndOfFile ->
    forall multiline',
    total ((nextToken lf ;;;
            parseArgumentList_loop lf fuel multiline' arguments) s1)
          (fun args s' =>
             ready lf s' /\ (remaining s' <= remaining s)%nat /\ Forall arg_ok args)
          (fails lf)).
  { intros Hne multiline'. apply total_next; [exact Hs1|].
    intros t' s2 Hs2 Hpk2 _ Hsame Hle2 Hlt2.
    pose proof (Hsame t Hpk1); subst t'. specialize (Hlt2 Hne).
    eapply total_mono; [apply (IH multiline' arguments s2 Hs2)| |auto].
    - lia.
    - exact Hargs.
    - intros args s' (H1 & H2 & H3). split; [exact H1|split; [lia|exact H3]]. }
  destruct (CLIToken.type t) eqn:Et;
    try (apply Harg; reflexivity);
    try destruct multiline; cbn [negb];
    try (apply total_next_raise; exact Hs1);
    try (apply Hskip; discriminate).
  - apply total_next; [exact Hs1|].
    intros t' s2 Hs2 Hpk2 _ Hsame Hle2 Hlt2. simpl.
    split; [exact Hs2|split; [lia|exact Hargs]].
  - simpl. split; [exact Hs1|split; [exact Hle1|exact Hargs]].
Qed.

Lemma finishCommand_total lf fuel command s :
  ready lf s ->
  (remaining s < fuel)%nat ->
  total (finishCommand lf fuel command s)
        (fun cmd s' => ready lf s' /\ Forall arg_ok (arguments cmd))
        (fails lf).
Proof.
  intros Hs Hfuel. unfold finishCommand, parseArgumentList. apply total_bind.
  eapply total_mono;
    [exact (parseArgumentList_loop_total lf fuel false [] s Hs Hfuel (Forall_nil _))
    | |auto].
  intros args s1 (Hs1 & _ & Hargs).
  apply total_clear; [exact Hs1|]. intros s2 Hs2 _. simpl.
  split; [exact Hs2|exact Hargs].
Qed.

Lemma parseCommand_loop_total lf (fuel : nat) : forall command s,
  ready lf s ->
  (remaining s + 1 < fuel)%nat ->
  Forall arg_ok (arguments command) ->
  total (parseCommand_loop lf fuel command s)
        (fun cmd s' => ready lf s' /\ Forall arg_ok (arguments cmd))
        (fails lf).
Proof.
  induction fuel as [|fuel IH]; intros command s Hs Hfuel Hargs; [lia|].
  simpl. apply total_peek; [exact Hs|]. intros t s1 Hs1 Hpk1 Hle1.
  assert (Hfin :
    total (finishCommand lf fuel command s1)
          (fun cmd s' => ready lf s' /\ Forall arg_ok (arguments cmd))
          (fails lf)).
  { apply finishCommand_total; [exact Hs1|lia]. }
  destruct (CLIToken.type t) eqn:Et;
    try destruct (empty (name command));
    try exact Hfin;
    try (apply total_next_raise; exact Hs1).
  - apply total_next; [exact Hs1|].
    intros t' s2 Hs2 Hpk2 _ Hsame Hle2 Hlt2. taken.
    apply IH; [exact Hs2|lia|exact Hargs].
  - apply total_next; [exact Hs1|].
    intros t' s2 Hs2 Hpk2 _ Hsame Hle2 Hlt2. taken.
    apply total_clear; [exact Hs2|]. intros s3 Hs3 Hleft.
    apply IH; [exact Hs3|lia|exact Hargs].
  - apply total_next; [exact Hs1|].
    intros t' s2 Hs2 Hpk2 _ Hsame Hle2 Hlt2. taken.
    apply IH; [exact Hs2|lia|exact Hargs].
  - apply total_next; [exact Hs1|].
    intros t' s2 Hs2 Hpk2 _ Hsame Hle2 Hlt2. taken.
    apply IH; [exact Hs2|lia|exact Hargs].
  - apply total_clear; [exact Hs1|]. intros s2 Hs2 _. simpl.
    split; [exact Hs2|exact Hargs].
  - apply total_clear; [exact Hs1|]. intros s2 Hs2 _. simpl.
    split; [exact Hs2|exact Hargs].
Qed.

Lemma parseCommand_total lf fuel s :
  ready lf s ->
  (remaining s + 1 < fuel)%nat ->
  total (parseCommand lf fuel s)
        (fun cmd s' => ready lf s' /\ Forall arg_ok (arguments cmd))
        (fails lf).
Proof.
  intros Hs Hfuel. apply parseCommand_loop_total; [exact Hs|exact Hfuel|constructor].
Qed.

Lemma in_step_visible input s :
  in_step input s -> exists read, input = (read ++ visible s)%list.
Proof.
  intros (before & Hread & Hin & _). unfold visible.
  destruct (failed (stream_ (stream_hook_ s))).
  - exists input. rewrite app_nil_r. reflexivity.
  - eexists. symmetry. exact Hin.
Qed.

Lemma peeked_convertible_kept lf fuel s :
  (forall t, peeked_token_ s = Some t -> convertible t) ->
  wp (parseCommand lf fuel s)
     (fun _ s' => forall t, peeked_token_ s' = Some t -> convertible t)
     (fun _ s' => forall t, peeked_token_ s' = Some t -> convertible t).
Proof.
  apply (parseCommand_keeps lf
           (fun s0 => forall t, peeked_token_ s0 = Some t -> convertible t)
           (fun _ _ => True)
           (fun _ s0 => forall t, peeked_token_ s0 = Some t -> convertible t)).
  - intros s0 Hs0. destruct (nextToken lf s0) as [t s1|e s1|] eqn:E; simpl; auto.
    + split; [|exact I]. rewrite (nextToken_unpeeked lf s0 t s1 E). discriminate.
    + exfalso. unfold nextToken in E.
      destruct (peeked_token_ s0); [discriminate|].
      exact (readNextToken_no_throw _ _ _ _ E).
  - intros s0 Hs0. destruct (peekToken lf s0) as [t s1|e s1|] eqn:E; simpl; auto.
    + unfold peekToken in E. destruct (peeked_token_ s0) as [t0|] eqn:Hpk.
      * injection E as _ <-. rewrite Hpk. exact Hs0.
      * destruct (readNextToken lf s0) as [t' s'| |] eqn:E'; try discriminate.
        injection E as _ <-. simpl. intros t1 E1. injection E1 as <-.
        exact (readNextToken_convertible _ _ _ _ E').
    + exfalso. unfold peekToken in E.
      destruct (peeked_token_ s0); [discriminate|].
      destruct (readNextToken lf s0) eqn:E'; try discriminate.
      exact (readNextToken_no_throw _ _ _ _ E').
  - intros s0 Hs0. exact Hs0.
  - intros d s0 Hs0 _. exact Hs0.
  - intros e s0 Hs0 _. exact Hs0.
Qed.

Lemma session_on_convertible input s :
  session_on input s -> forall t, peeked_token_ s = Some t -> convertible t.
Proof.
  induction 1 as [|lf fuel s cmd s' _ IH H|lf fuel s e s' _ IH H].
  - discriminate.
  - pose proof (peeked_convertible_kept lf fuel s IH) as W. rewrite H in W. exact W.
  - pose proof (peeked_convertible_kept lf fuel s IH) as W. rewrite H in W. exact W.
Qed.

Lemma session_on_ready input lf s :
  comments_closed (list_ascii_of_string input) ->
  (String.length input + 1 < lf)%nat ->
  session_on input s ->
  ready lf s.
Proof.
  intros Hclosed Hfuel Hs.
  destruct (in_step_visible _ s (session_on_in_step input s Hs)) as (read & Hin).
  rewrite Hin in Hclosed.
  assert (Hlen : (List.length (visible s) <= String.length input)%nat).
  { rewrite <- (string_of_list_ascii_of_string input), Hin.
    rewrite length_string_of_list_ascii, length_app. lia. }
  split; [exact (comments_closed_suffix _ _ Hclosed)|].
  split; [lia|exact (session_on_convertible input s Hs)].
Qed.

Lemma remaining_bound lf s : ready lf s -> (remaining s < lf)%nat.
Proof.
  intros (_ & H & _). unfold remaining, pending.
  destruct (peeked_token_ s) as [t|]; [destruct (CLIToken.Type_eqb _ _)|]; lia.
Qed.

(** X17.  The parser always comes back, and never with an internal error.
    In a parsing session over a text in which every [#] is followed
    somewhere by a line feed, with fuel enough for the length of the text,
    every call of [parseCommand] returns a command or throws; and what it
    throws is one of the reporter's diagnostics or the exception of
    [std::stod], never "Cannot unget", "No way to reach here", a failed
    assertion, [bad_variant_access], an exception of [std::stoll] or of
    [substr]. *)
Theorem parser_returns_or_reports input lf fuel s :
  comments_closed (list_ascii_of_string input) ->
  (String.length input + 1 < lf)%nat ->
  (lf < fuel)%nat ->
  session_on input s ->
  (exists cmd s', parseCommand lf fuel s = Ok cmd s')
  \/ (exists e s', parseCommand lf fuel s = Throw e s' /\ diagnostic_or_stod e).
Proof.
  intros Hclosed Hlf Hfuel Hs.
  pose proof (session_on_ready input lf s Hclosed Hlf Hs) as Hready.
  pose proof (remaining_bound lf s Hready) as Hleft.
  pose proof (parseCommand_total lf fuel s Hready ltac:(lia)) as T.
  destruct (parseCommand lf fuel s) as [cmd s'|e s'|].
  - left. exists cmd, s'. reflexivity.
  - right. exists e, s'. split; [reflexivity|exact (proj1 T)].
  - destruct T.
Qed.

Lemma parser_returns_or_reports_witness :
  (exists cmd s', parseCommand 8 9 (parser_on ("go 1" ++ Report.NL)) = Ok cmd s')
  \/ (exists e s',
        parseCommand 8 9 (parser_on ("go 1" ++ Report.NL)) = Throw e s'
        /\ diagnostic_or_stod e).
Proof.
  apply (parser_returns_or_reports ("go 1" ++ Report.NL) 8 9).
  - apply comments_closedb_sound. reflexivity.
  - simpl. lia.
  - lia.
  - apply on_start.
Defined.

(** ** The arguments the parser builds *)

Lemma wp_any_bind {A B} (m : M A) (k : A -> M B) s Q :
  (forall a s1, wp (k a s1) Q any_exception) ->
  wp (bind m k s) Q any_exception.
Proof. intros Hk. unfold bind. destruct (m s); simpl; auto. exact I. Qed.

Lemma integerVectorData_length (tokens : list CLIToken.t) : forall s,
  wp (integerVectorData tokens s)
     (fun v _ => List.length v = List.length tokens) any_exception.
Proof.
  induction tokens as [|token rest IH]; intros s; simpl; [reflexivity|].
  apply wp_any_bind. intros v s1. apply wp_bind.
  eapply wp_mono; [exact (IH s1)| |auto].
  intros vs s2 Hlen. unfold ret, wp. simpl in Hlen |- *. lia.
Qed.

Lemma floatVectorData_length (tokens : list CLIToken.t) : forall s,
  wp (floatVectorData tokens s)
     (fun v _ => List.length v = List.length tokens) any_exception.
Proof.
  induction tokens as [|token rest IH]; intros s; simpl; [reflexivity|].
  apply wp_any_bind. intros v s1. apply wp_bind.
  eapply wp_mono; [exact (IH s1)| |auto].
  intros vs s2 Hlen. unfold ret, wp. simpl in Hlen |- *. lia.
Qed.

Lemma returnVector_vector_ok integer_vector tokens s :
  tokens <> [] ->
  wp (returnVector integer_vector tokens s) (fun a _ => vector_ok a) any_exception.
Proof.
  intros Hne.
  assert (Hlen : List.length tokens <> O).
  { destruct tokens; [contradiction|discriminate]. }
  unfold returnVector. destruct integer_vector; apply wp_bind.
  - eapply wp_mono; [apply integerVectorData_length| |auto].
    intros v s' Hv. simpl. split; [|left; reflexivity].
    exact (nonempty_length v _ Hv Hlen).
  - eapply wp_mono; [apply floatVectorData_length| |auto].
    intros v s' Hv. simpl. split; [|right; reflexivity].
    exact (nonempty_length v _ Hv Hlen).
Qed.

Ltac any_step call :=
  first
    [ call
    | exact I
    | apply wp_any_bind; intros ? ?
    | match goal with
      | |- wp ((if ?b then _ else _) _) _ _ => destruct b
      | |- wp (match CLIToken.type ?t with _ => _ end _) _ _ =>
          destruct (CLIToken.type t)
      end ].

Lemma parseNumberList_loop_vector_ok lf (fuel : nat) :
  forall comma first_number tokens integer_vector s,
    (comma = false -> tokens <> []) ->
    wp (parseNumberList_loop lf fuel comma first_number tokens integer_vector s)
       (fun a _ => vector_ok a) any_exception.
Proof.
  induction fuel as [|fuel IH];
    intros comma first_number tokens integer_vector s Hne; [exact I|].
  simpl. apply wp_any_bind. intros t s1.
  destruct (CLIToken.type t); destruct comma; cbn [negb];
    repeat any_step ltac:(first
      [ apply returnVector_vector_ok; apply Hne; reflexivity
      | apply IH; first [discriminate | intros _; apply snoc_nonempty] ]).
Qed.

Lemma parseNumberList_vector_ok lf fuel s :
  wp (parseNumberList lf fuel s) (fun a _ => vector_ok a) any_exception.
Proof. apply parseNumberList_loop_vector_ok. discriminate. Qed.

Lemma parseVector_vector_ok lf fuel s :
  wp (parseVector lf fuel s) (fun a _ => vector_ok a) any_exception.
Proof.
  unfold parseVector. apply wp_any_bind. intros t s1.
  destruct (CLIToken.type t); try exact I;
    try apply parseNumberList_vector_ok;
    (apply wp_any_bind; intros _ s2; apply wp_bind;
     eapply wp_mono; [apply parseNumberList_vector_ok| |auto];
     intros arg s3 Harg; apply wp_any_bind; intros token s4;
     destruct (CLIToken.Type_eqb _ _); [exact Harg|exact I]).
Qed.

Lemma bare_vector_arg_ok lf fuel s (first : CLIToken.t) (integer : bool) :
  wp
    ((arg <- parseNumberList lf fuel ;;
      if integer then
        match Argument.type arg with
        | Argument.IntegerVector =>
            match Argument.data arg with
            | Argument.IntegerVectorData value =>
                first <- stoll (CLIToken.value first) ;;
                ret (Argument.mk (Argument.type arg)
                                 (Argument.IntegerVectorData (first :: value)))
            | _ => bad_variant_access
            end
        | _ =>
            match Argument.data arg with
            | Argument.FloatVectorData value =>
                first <- stoll (CLIToken.value first) ;;
                ret (Argument.mk (Argument.type arg)
                       (Argument.FloatVectorData (StdNum.double_of_int64 first :: value)))
            | _ => bad_variant_access
            end
        end
      else
        match Argument.type arg with
        | Argument.FloatVector =>
            match Argument.data arg with
            | Argument.FloatVectorData value =>
                first <- stod (CLIToken.value first) ;;
                ret (Argument.mk (Argument.type arg)
                                 (Argument.FloatVectorData (first :: value)))
            | _ => bad_variant_access
            end
        | _ =>
            match Argument.data arg with
            | Argument.IntegerVectorData value =>
                first <- stod (CLIToken.value first) ;;
                ret (Argument.mk Argument.FloatVector
                       (Argument.FloatVectorData
                          (first :: List.map StdNum.double_of_int64 value)))
            | _ => bad_variant_access
            end
        end) s)
    (fun a _ => arg_ok a) any_exception.
Proof.
  apply wp_bind.
  eapply wp_mono; [apply parseNumberList_vector_ok| |auto].
  intros [ty da] s1 (Hok & Hty).
  unfold arg_ok in Hok. cbn [Argument.type Argument.data] in *.
  destruct integer; destruct Hty as [-> | ->]; destruct da; try contradiction;
    apply wp_any_bind; intros v s2; simpl; discriminate.
Qed.

Lemma parseArgument_arg_ok lf fuel s :
  wp (parseArgument lf fuel s) (fun a _ => arg_ok a) any_exception.
Proof.
  unfold parseArgument. apply wp_any_bind. intros t s1.
  destruct (CLIToken.type t) eqn:Et; try exact I.
  - apply wp_any_bind. intros token s2. exact I.
  - apply wp_any_bind. intros token s2. exact I.
  - apply wp_any_bind. intros token s2. apply wp_any_bind. intros f s3.
    destruct (CLIToken.Type_eqb _ _).
    + apply wp_any_bind. intros _ s4.
      exact (bare_vector_arg_ok lf fuel s4 token true).
    + apply wp_any_bind. intros i s4. exact I.
  - apply wp_any_bind. intros token s2. apply wp_any_bind. intros f s3.
    destruct (CLIToken.Type_eqb _ _).
    + apply wp_any_bind. intros _ s4.
      exact (bare_vector_arg_ok lf fuel s4 token false).
    + apply wp_any_bind. intros d s4. exact I.
  - eapply wp_mono; [apply parseVector_vector_ok| |auto]. intros a s' [H _]. exact H.
  - apply wp_any_bind. intros token s2. exact I.
  - eapply wp_mono; [apply parseVector_vector_ok| |auto]. intros a s' [H _]. exact H.
  - apply wp_any_bind. intros token s2. exact I.
Qed.

Lemma parseArgumentList_loop_arg_ok lf (fuel : nat) :
  forall multiline arguments s,
    Forall arg_ok arguments ->
    wp (parseArgumentList_loop lf fuel multiline arguments s)
       (fun args _ => Forall arg_ok args) any_exception.
Proof.
  induction fuel as [|fuel IH]; intros multiline arguments s Hargs; [exact I|].
  simpl. apply wp_any_bind. intros t s1.
  destruct (CLIToken.type t);
    repeat any_step ltac:(first
      [ exact Hargs
      | apply IH; exact Hargs
      | apply wp_bind;
        eapply wp_mono; [apply parseArgument_arg_ok| |auto];
        intros arg s2 Harg; apply IH; apply Forall_snoc; assumption ]).
Qed.

Lemma parseCommand_loop_arg_ok lf (fuel : nat) : forall command s,
  Forall arg_ok (arguments command) ->
  wp (parseCommand_loop lf fuel command s)
     (fun cmd _ => Forall arg_ok (arguments cmd)) any_exception.
Proof.
  induction fuel as [|fuel IH]; intros command s Hargs; [exact I|].
  assert (Hfin : forall s1,
    wp (finishCommand lf fuel command s1)
       (fun cmd _ => Forall arg_ok (arguments cmd)) any_exception).
  { intros s1. unfold finishCommand, parseArgumentList. apply wp_bind.
    eapply wp_mono;
      [apply parseArgumentList_loop_arg_ok; constructor| |auto].
    intros args s2 Hok. apply wp_any_bind. intros _ s3. exact Hok. }
  simpl. apply wp_any_bind. intros t s1.
  destruct (CLIToken.type t);
    repeat any_step ltac:(first
      [ exact Hargs
      | apply Hfin
      | apply IH; exact Hargs ]).
Qed.

(** X18.  Every argument of a command the parser returns is well formed:
    its type tag names the alternative its payload holds, and a vector
    holds at least one element.  This needs no assumption on the state the
    parser is called in. *)
Theorem arguments_are_well_formed lf fuel s cmd s' :
  parseCommand lf fuel s = Ok cmd s' ->
  Forall arg_ok (arguments cmd).
Proof.
  intros H.
  pose proof (parseCommand_loop_arg_ok lf fuel (mkCommand "" []) s (Forall_nil _)) as W.
  unfold parseCommand in H. rewrite H in W. exact W.
Qed.

Lemma arguments_are_well_formed_witness :
  exists cmd s',
    parseCommand 8 8 (parser_on ("go (1,2)" ++ Report.NL)) = Ok cmd s'
    /\ Forall arg_ok (arguments cmd).
Proof.
  eexists _, _. split; [vm_compute; reflexivity|].
  eapply (arguments_are_well_formed 8 8 (parser_on ("go (1,2)" ++ Report.NL))).
  vm_compute; reflexivity.
Defined.

(** ** The texts of the reporter *)

Lemma one_line_cons c s : one_line (String c s) <-> c <> LF /\ one_line s.
Proof.
  unfold one_line; simpl. split.
  - intros H. split; [intros E; apply H; left; exact E|].
    intros Hin. apply H. right. exact Hin.
  - intros [Hc Hs] [E|Hin]; [exact (Hc E)|exact (Hs Hin)].
Qed.

Lemma one_line_app a b : one_line a -> one_line b -> one_line (a ++ b).
Proof.
  induction a as [|c a IH]; simpl; [auto|].
  intros Ha Hb. apply one_line_cons in Ha. destruct Ha as [Hc Ha].
  apply one_line_cons. split; [exact Hc|exact (IH Ha Hb)].
Qed.

Lemma eqb_LF_false c : c <> LF -> Ascii.eqb c LF = false.
Proof. intros H. destruct (Ascii.eqb_spec c LF); [contradiction|reflexivity]. Qed.

Lemma addPrefix_one_line prefix s : one_line s -> Report.addPrefix prefix s = s.
Proof.
  induction s as [|c s IH]; simpl; [reflexivity|].
  intros H. apply one_line_cons in H. destruct H as [Hc Hs].
  rewrite (eqb_LF_false c Hc), (IH Hs). reflexivity.
Qed.

Lemma addPrefix_app prefix a b :
  Report.addPrefix prefix (a ++ b)
  = Report.addPrefix prefix a ++ Report.addPrefix prefix b.
Proof.
  induction a as [|c a IH]; simpl; [reflexivity|].
  rewrite IH. destruct (Ascii.eqb c LF); simpl; [|reflexivity].
  rewrite append_assoc. reflexivity.
Qed.

Lemma colorString_from_one_line color s : forall line,
  one_line s ->
  Report.colorString_from line s color = coloured_last color (line ++ s).
Proof.
  induction s as [|c s IH]; intros line H; simpl.
  - rewrite append_nil_r. destruct line; reflexivity.
  - apply one_line_cons in H. destruct H as [Hc Hs].
    rewrite (eqb_LF_false c Hc), (IH _ Hs). unfold push_char.
    rewrite append_assoc. reflexivity.
Qed.

Lemma colorString_from_line color a rest : forall line,
  one_line a ->
  Report.colorString_from line (a ++ Report.NL ++ rest) color
  = coloured color (line ++ a) ++ Report.NL ++ Report.colorString rest color.
Proof.
  induction a as [|c a IH]; intros line H; simpl.
  - rewrite append_nil_r. unfold coloured. rewrite !append_assoc. reflexivity.
  - apply one_line_cons in H. destruct H as [Hc Ha].
    rewrite (eqb_LF_false c Hc), (IH _ Ha). unfold push_char.
    rewrite append_assoc. reflexivity.
Qed.

(** X19.  Colour and gutter are applied line by line.  [addPrefix] puts
    the prefix after every line feed and nowhere else; [colorString] wraps
    every line separately between the colour code and the reset code, the
    line feeds staying outside, and writes nothing for an empty last
    line. *)
Theorem colour_and_gutter_by_line (lines : list string) (last : string)
  (prefix color : string) :
  Forall one_line lines ->
  one_line last ->
  Report.addPrefix prefix (join Report.NL (lines ++ [last]))
  = join (Report.NL ++ prefix) (lines ++ [last])
  /\ Report.colorString (join Report.NL (lines ++ [last])) color
     = join Report.NL (List.map (coloured color) lines ++ [coloured_last color last]).
Proof.
  intros Hlines Hlast. split.
  - induction Hlines as [|l lines Hl _ IH]; simpl.
    + apply addPrefix_one_line. exact Hlast.
    + destruct (lines ++ [last])%list as [|l2 rest] eqn:E;
        [destruct lines; discriminate|].
      rewrite addPrefix_app, (addPrefix_one_line prefix l Hl).
      change (Report.NL ++ join Report.NL (l2 :: rest))
        with (String LF (join Report.NL (l2 :: rest))).
      cbn [Report.addPrefix]. rewrite Ascii.eqb_refl, IH.
      reflexivity.
  - unfold Report.colorString.
    induction Hlines as [|l lines Hl _ IH].
    + simpl. rewrite (colorString_from_one_line color last "" Hlast). reflexivity.
    + cbn [List.map List.app].
      change (join Report.NL (l :: lines ++ [last]))
        with (match (lines ++ [last])%list with
              | [] => l
              | _ :: _ => l ++ Report.NL ++ join Report.NL (lines ++ [last])
              end).
      change (join Report.NL
                (coloured color l
                 :: List.map (coloured color) lines ++ [coloured_last color last]))
        with (match (List.map (coloured color) lines ++ [coloured_last color last])%list with
              | [] => coloured color l
              | _ :: _ =>
                  coloured color l ++ Report.NL
                  ++ join Report.NL
                       (List.map (coloured color) lines ++ [coloured_last color last])
              end).
      destruct (lines ++ [last])%list as [|l2 rest] eqn:E;
        [destruct lines; discriminate|].
      destruct (List.map (coloured color) lines ++ [coloured_last color last])%list
        as [|m2 mrest] eqn:E2; [destruct lines; discriminate|].
      rewrite (colorString_from_line color l _ "" Hl).
      unfold Report.colorString. rewrite IH. reflexivity.
Qed.

Lemma colour_and_gutter_by_line_witness :
  Report.addPrefix "  | " (join Report.NL (["ab"] ++ ["c"]))
  = join (Report.NL ++ "  | ") (["ab"] ++ ["c"]).
Proof.
  apply (colour_and_gutter_by_line ["ab"] "c" "  | " Report.RED).
  - constructor; [|constructor]. intros [E|[E|[]]]; discriminate E.
  - intros [E|[]]; discriminate E.
Defined.

Lemma substring_0_app a b : substring 0 (String.length a) (a ++ b) = a.
Proof.
  induction a as [|c a IH]; simpl.
  - destruct b; reflexivity.
  - rewrite IH. reflexivity.
Qed.

Lemma substring_skip a b n :
  substring (String.length a) n (a ++ b) = substring 0 n b.
Proof. induction a as [|c a IH]; simpl; [reflexivity|exact IH]. Qed.

Lemma substring_all b n : (String.length b <= n)%nat -> substring 0 n b = b.
Proof.
  revert n; induction b as [|c b IH]; intros n H; simpl.
  - destruct n; reflexivity.
  - destruct n; simpl in H; [lia|]. rewrite IH by lia. reflexivity.
Qed.

Lemma substring_end s n : substring (String.length s) n s = "".
Proof.
  induction s as [|c s IH]; simpl; [destruct n; reflexivity|exact IH].
Qed.

Lemma length_append a b :
  String.length (a ++ b) = (String.length a + String.length b)%nat.
Proof. induction a as [|c a IH]; simpl; [reflexivity|rewrite IH; reflexivity]. Qed.

(** X20.  What the snippet of a one-line statement looks like.  When the
    buffer holds one line that ends with the offending token, the snippet
    is the line number between two spaces, a bar, the text before the
    token as it is, and the token between the codes for red and for
    reset. *)
Theorem snippet_of_a_one_line_statement h before token begin end_ :
  Hook.getConsumedTokens h = before ++ token ->
  one_line before ->
  one_line token ->
  token <> "" ->
  begin = Hook.getPosition h + Report.size before ->
  end_ = begin + Report.size token ->
  Report.getSourceSnippetReport h begin end_
  = Some ("  " ++ StdNum.to_string_int64 (Hook.getLineNumber h) ++ " | "
          ++ before ++ Report.RED ++ token ++ Report.RESET).
Proof.
  intros Hsrc Hbefore Htoken Hne -> ->.
  unfold Report.getSourceSnippetReport, Report.highlight_begin, Report.highlight_end.
  rewrite Hsrc. unfold Report.size. rewrite length_append.
  replace (Z.max _ 0) with (Z.of_nat (String.length before)) by lia.
  replace (Z.min _ _)
    with (Z.of_nat (String.length before + String.length token)) by lia.
  destruct (Z.ltb_spec (Z.of_nat (String.length before + String.length token))
                       (Z.of_nat (String.length before))); [lia|].
  unfold Report.render, Report.substr_from. rewrite Hsrc.
  rewrite !substr_in_range
    by (unfold Report.size; rewrite length_append; lia).
  unfold Report.size. rewrite length_append.
  replace (Z.to_nat 0) with O by reflexivity.
  replace (Z.to_nat (Z.of_nat (String.length before + String.length token)
                     - Z.of_nat (String.length before)))
    with (String.length token) by lia.
  rewrite !Nat2Z.id.
  rewrite substring_0_app, substring_skip, (substring_all token) by lia.
  rewrite <- (length_append before token), substring_end, append_nil_r.
  assert (Hcol : Report.colorString token Report.RED
                 = Report.RED ++ token ++ Report.RESET).
  { unfold Report.colorString.
    rewrite (colorString_from_one_line Report.RED token "" Htoken). simpl.
    destruct token; [contradiction|reflexivity]. }
  rewrite Hcol.
  rewrite addPrefix_one_line.
  - rewrite !append_assoc. reflexivity.
  - apply one_line_app; [exact Hbefore|].
    apply one_line_app; [|apply one_line_app; [exact Htoken|]];
      unfold one_line; simpl; intros Hin;
      repeat (destruct Hin as [Hin|Hin]; [discriminate|]); exact Hin.
Qed.

Lemma snippet_of_a_one_line_statement_witness :
  Report.getSourceSnippetReport
    (mkHook (mkStd [] [] false) 4 (list_ascii_of_string "go @") 0 1 1) 3 4
  = Some ("  1 | go " ++ Report.RED ++ "@" ++ Report.RESET).
Proof.
  apply (snippet_of_a_one_line_statement
           (mkHook (mkStd [] [] false) 4 (list_ascii_of_string "go @") 0 1 1)
           "go " "@" 3 4 eq_refl).
  - intros [E|[E|[E|[]]]]; discriminate E.
  - intros [E|[]]; discriminate E.
  - discriminate.
  - reflexivity.
  - reflexivity.
Defined.

(** X21.  Building a diagnostic never fails.  Whatever the state of the
    hook and whatever span the token claims, even one that lies outside the
    recorded buffer, every factory of the reporter returns its error, whose
    message starts with the headline; no [substr] throws.  With
    [show_source] off the message is the headline alone. *)
Theorem diagnostics_are_always_built r h d :
  exists rest,
    Report.error r h d = ParseError d (Report.headline d ++ rest)
    /\ (show_source_ r = false -> rest = "").
Proof.
  unfold Report.error. destruct (show_source_ r).
  - destruct (getSourceSnippetReport_total h (CLIToken.begin (offending d))
                (CLIToken.end_ (offending d))) as [text ->].
    eexists. split; [reflexivity|discriminate].
  - exists "". rewrite append_nil_r. split; reflexivity.
Qed.

(** X22.  [std::stoll] reads back what [std::to_string] printed, so the
    value of an Integer token always converts: when the lexer classifies a
    text as an integer, the token is an Integer token and the parser's
    conversion of its value yields the very integer the lexer extracted. *)
Theorem integer_token_round_trip value begin end_ i :
  StdNum.extract_int64 value = Some i ->
  has_suffix value = false ->
  CLIToken.type (classifyNumber value begin end_) = CLIToken.Integer
  /\ integer_of (classifyNumber value begin end_) = Some i.
Proof.
  intros Hi Hsuffix. unfold classifyNumber, candidate. rewrite Hsuffix, Hi.
  split; [reflexivity|]. unfold integer_of. simpl.
  apply stoll_to_string_int64. exact (extract_int64_range _ _ Hi).
Qed.

Lemma integer_token_round_trip_witness :
  integer_of (classifyNumber "-42" 0 3) = Some (-42).
Proof.
  apply (integer_token_round_trip "-42" 0 3 (-42)); reflexivity.
Defined.

(** X23.  [hasMoreCommands] only looks at the next character.  When
    nothing but blanks is left (spaces, tabs, carriage returns, line feeds,
    at least one of them) it still answers true, and the call of
    [parseCommand] it invites returns the command with the empty name. *)
Theorem blanks_still_count_as_more lf fuel s c cs :
  peeked_token_ s = None ->
  visible s = c :: cs ->
  Forall (fun c => isBlank c = true) (c :: cs) ->
  (List.length cs + 1 < lf)%nat ->
  (List.length cs + 1 < fuel)%nat ->
  hasMoreCommands s = Ok true s
  /\ exists s', parseCommand lf fuel s = Ok (mkCommand "" []) s'.
Proof.
  intros Hpk Hv Hblank Hlf Hfuel. split.
  - unfold hasMoreCommands, hasMoreTokens.
    rewrite (bind_Ok _ _ _ _ _ (peek_visible s)), Hv. simpl.
    inversion Hblank as [|? ? Hc _]; subst.
    destruct (isBlank_cases c Hc) as [ -> | [ -> | [ -> | -> ] ] ]; reflexivity.
  - apply parseCommand_loop_exhausted.
    + unfold exhausted. rewrite Hpk, Hv. exact Hblank.
    + reflexivity.
    + rewrite Hv. simpl. lia.
    + rewrite Hv. simpl. lia.
Qed.

Lemma blanks_still_count_as_more_witness :
  hasMoreCommands (parser_on (" " ++ Report.NL))
  = Ok true (parser_on (" " ++ Report.NL))
  /\ exists s',
       parseCommand 4 4 (parser_on (" " ++ Report.NL)) = Ok (mkCommand "" []) s'.
Proof.
  apply (blanks_still_count_as_more 4 4 (parser_on (" " ++ Report.NL))
           " "%char [LF] eq_refl eq_refl).
  - repeat constructor.
  - simpl. lia.
  - simpl. lia.
Defined.

(** ** Colour codes *)

Lemma nibble_cases d :
  0 <= d < 16 ->
  d = 0 \/ d = 1 \/ d = 2 \/ d = 3 \/ d = 4 \/ d = 5 \/ d = 6 \/ d = 7
  \/ d = 8 \/ d = 9 \/ d = 10 \/ d = 11 \/ d = 12 \/ d = 13 \/ d = 14 \/ d = 15.
Proof. lia. Qed.

Lemma hex_digit_read d :
  0 <= d < 16 ->
  RGB.isHex (RGB.hex_digit d) = true /\ RGB.hex_value (RGB.hex_digit d) = d.
Proof.
  intros H. destruct (nibble_cases d H) as
    [->|[->|[->|[->|[->|[->|[->|[->|[->|[->|[->|[->|[->|[->|[->| ->]]]]]]]]]]]]]]];
    split; reflexivity.
Qed.

Lemma channel_text v :
  channel v ->
  RGB.setw2 (RGB.hex v)
  = String (RGB.hex_digit (v / 16)) (String (RGB.hex_digit (v mod 16)) "").
Proof.
  intros Hv. unfold channel in Hv. unfold RGB.hex. cbn [RGB.hex_digits].
  destruct (Z.eqb_spec (v / 16) 0) as [E|E].
  - rewrite E. reflexivity.
  - assert (E2 : v / 16 / 16 = 0) by (Z.div_mod_to_equations; lia).
    rewrite E2. cbn [Z.eqb].
    assert (E3 : (v / 16) mod 16 = v / 16) by (Z.div_mod_to_equations; lia).
    rewrite E3. reflexivity.
Qed.

Lemma stoi16_channel v rest acc :
  channel v ->
  RGB.stoi16 (String (RGB.hex_digit (v / 16))
                (String (RGB.hex_digit (v mod 16)) rest)) acc
  = RGB.stoi16 rest (256 * acc + v).
Proof.
  intros Hv. unfold channel in Hv.
  assert (H1 : 0 <= v / 16 < 16) by (Z.div_mod_to_equations; lia).
  assert (H2 : 0 <= v mod 16 < 16) by (Z.div_mod_to_equations; lia).
  destruct (hex_digit_read _ H1) as [Hh1 Hv1].
  destruct (hex_digit_read _ H2) as [Hh2 Hv2].
  cbn [RGB.stoi16]. rewrite Hh1, Hh2, Hv1, Hv2. f_equal.
  Z.div_mod_to_equations; lia.
Qed.

Lemma channels_of_color r g b :
  channel r -> channel g -> channel b ->
  let color := 256 * (256 * (256 * 0 + r) + g) + b in
  Z.shiftr (Z.land color 0xFF0000) 16 = r
  /\ Z.shiftr (Z.land color 0x00FF00) 8 = g
  /\ Z.land color 0x0000FF = b.
Proof.
  unfold channel. intros Hr Hg Hb.
  set (color := 256 * (256 * (256 * 0 + r) + g) + b).
  assert (Hc : 0 <= color) by (subst color; lia).
  repeat split.
  - rewrite Z.shiftr_land. change (Z.shiftr 16711680 16) with (Z.ones 8).
    rewrite Z.land_ones, Z.shiftr_div_pow2 by lia.
    change (2 ^ 16) with 65536. change (2 ^ 8) with 256.
    subst color. Z.div_mod_to_equations; lia.
  - rewrite Z.shiftr_land. change (Z.shiftr 65280 8) with (Z.ones 8).
    rewrite Z.land_ones, Z.shiftr_div_pow2 by lia.
    change (2 ^ 8) with 256.
    subst color. Z.div_mod_to_equations; lia.
  - change 255 with (Z.ones 8). rewrite Z.land_ones by lia.
    change (2 ^ 8) with 256.
    subst color. Z.div_mod_to_equations; lia.
Qed.

Lemma channel_isHex v :
  channel v ->
  RGB.isHex (RGB.hex_digit (v / 16)) = true
  /\ RGB.isHex (RGB.hex_digit (v mod 16)) = true.
Proof.
  intros Hv. unfold channel in Hv.
  assert (H1 : 0 <= v / 16 < 16) by (Z.div_mod_to_equations; lia).
  assert (H2 : 0 <= v mod 16 < 16) by (Z.div_mod_to_equations; lia).
  split; [exact (proj1 (hex_digit_read _ H1))|exact (proj1 (hex_digit_read _ H2))].
Qed.

(** X24.  A colour survives being printed and read back: for channels in
    the range of [uint8_t], the constructor from a colour code accepts the
    text [toString] prints and builds the same colour. *)
Theorem colour_code_round_trip r g b :
  channel r -> channel g -> channel b ->
  RGB.of_ccode (RGB.toString (RGB.mk r g b)) = Some (RGB.mk r g b).
Proof.
  intros Hr Hg Hb. unfold RGB.toString. cbn [RGB.R RGB.G RGB.B].
  rewrite !channel_text by assumption.
  destruct (channel_isHex r Hr) as [Hr1 Hr2].
  destruct (channel_isHex g Hg) as [Hg1 Hg2].
  destruct (channel_isHex b Hb) as [Hb1 Hb2].
  unfold RGB.of_ccode.
  cbn [append String.length Nat.eqb list_ascii_of_string forallb andb].
  rewrite Hr1, Hr2, Hg1, Hg2, Hb1, Hb2. cbn [andb].
  rewrite (stoi16_channel r _ 0 Hr), (stoi16_channel g _ _ Hg),
          (stoi16_channel b _ _ Hb).
  cbn [RGB.stoi16].
  destruct (channels_of_color r g b Hr Hg Hb) as (-> & -> & ->).
  unfold RGB.uint8. unfold channel in *.
  rewrite !Z.mod_small by lia. reflexivity.
Qed.

Lemma colour_code_round_trip_witness :
  RGB.of_ccode (RGB.toString (RGB.mk 255 128 0)) = Some (RGB.mk 255 128 0).
Proof.
  apply colour_code_round_trip; unfold channel; lia.
Defined.

Lemma isHex_read c :
  RGB.isHex c = true ->
  0 <= RGB.hex_value c < 16 /\ RGB.hex_digit (RGB.hex_value c) = lower c.
Proof.
  unfold RGB.isHex, RGB.hex_characters. cbn [list_ascii_of_string existsb].
  repeat match goal with
         | |- context [Ascii.eqb c ?k] =>
             destruct (Ascii.eqb_spec c k) as [->|_];
             [intros _; split;
                [split; [cbv; discriminate|cbv; reflexivity]|reflexivity]|]
         end.
  cbn [orb]. discriminate.
Qed.

Lemma channel_of_nibbles d1 d2 :
  0 <= d1 < 16 -> 0 <= d2 < 16 ->
  channel (16 * d1 + d2)
  /\ (16 * d1 + d2) / 16 = d1 /\ (16 * d1 + d2) mod 16 = d2.
Proof. unfold channel. intros H1 H2. repeat split; Z.div_mod_to_equations; lia. Qed.

(** X25.  A colour code is read without loss.  When the constructor
    accepts a text, the text has six hexadecimal digits, every channel of
    the colour lies in the range of [uint8_t], and [toString] prints the
    text back, in lower case. *)
Theorem colour_code_read_back ccode c :
  RGB.of_ccode ccode = Some c ->
  String.length ccode = 6%nat
  /\ channel (RGB.R c) /\ channel (RGB.G c) /\ channel (RGB.B c)
  /\ RGB.toString c = lowercase ccode.
Proof.
  unfold RGB.of_ccode.
  destruct (Nat.eqb_spec (String.length ccode) 6) as [Hlen|]; [|discriminate].
  destruct ccode as [|c1 [|c2 [|c3 [|c4 [|c5 [|c6 [|c7 r]]]]]]]; try discriminate.
  cbn [andb list_ascii_of_string forallb].
  destruct (RGB.isHex c1) eqn:H1; [|discriminate].
  destruct (RGB.isHex c2) eqn:H2; [|discriminate].
  destruct (RGB.isHex c3) eqn:H3; [|discriminate].
  destruct (RGB.isHex c4) eqn:H4; [|discriminate].
  destruct (RGB.isHex c5) eqn:H5; [|discriminate].
  destruct (RGB.isHex c6) eqn:H6; [|discriminate].
  cbn [andb RGB.stoi16]. rewrite H1, H2, H3, H4, H5, H6.
  destruct (isHex_read c1 H1) as [B1 L1]. destruct (isHex_read c2 H2) as [B2 L2].
  destruct (isHex_read c3 H3) as [B3 L3]. destruct (isHex_read c4 H4) as [B4 L4].
  destruct (isHex_read c5 H5) as [B5 L5]. destruct (isHex_read c6 H6) as [B6 L6].
  set (d1 := RGB.hex_value c1) in *. set (d2 := RGB.hex_value c2) in *.
  set (d3 := RGB.hex_value c3) in *. set (d4 := RGB.hex_value c4) in *.
  set (d5 := RGB.hex_value c5) in *. set (d6 := RGB.hex_value c6) in *.
  destruct (channel_of_nibbles d1 d2 B1 B2) as (Cr & Qr & Mr).
  destruct (channel_of_nibbles d3 d4 B3 B4) as (Cg & Qg & Mg).
  destruct (channel_of_nibbles d5 d6 B5 B6) as (Cb & Qb & Mb).
  replace (16 * (16 * (16 * (16 * (16 * (16 * 0 + d1) + d2) + d3) + d4) + d5) + d6)
    with (256 * (256 * (256 * 0 + (16 * d1 + d2)) + (16 * d3 + d4)) + (16 * d5 + d6))
    by lia.
  remember (16 * d1 + d2) as r eqn:Er in *.
  remember (16 * d3 + d4) as g eqn:Eg in *.
  remember (16 * d5 + d6) as b eqn:Eb in *.
  destruct (channels_of_color _ _ _ Cr Cg Cb) as (-> & -> & ->).
  unfold RGB.uint8.
  rewrite !Z.mod_small by (unfold channel in *; lia).
  intros H; injection H as <-. cbn [RGB.R RGB.G RGB.B].
  split; [reflexivity|]. split; [exact Cr|]. split; [exact Cg|]. split; [exact Cb|].
  unfold RGB.toString. cbn [RGB.R RGB.G RGB.B].
  rewrite !channel_text by assumption.
  rewrite Qr, Mr, Qg, Mg, Qb, Mb, L1, L2, L3, L4, L5, L6. reflexivity.
Qed.

Lemma colour_code_read_back_witness :
  exists c, RGB.of_ccode "FF8000" = Some c /\ RGB.toString c = "ff8000".
Proof.
  eexists. split; [vm_compute; reflexivity|].
  refine (proj2 (proj2 (proj2 (proj2 (colour_code_read_back "FF8000" _ _))))).
  vm_compute; reflexivity.
Defined.

Lemma leading_skipped lf n s s' :
  leading lf n s s' ->
  forall fuel command,
    empty (name command) = true ->
    parseCommand_loop lf (n + fuel) command s = parseCommand_loop lf fuel command s'.
Proof.
  induction 1 as [s|n s t s1 s' Hn Ht _ IH|n s t s1 s' Hn Ht _ IH];
    intros fuel command Hname; [reflexivity| |];
    destruct (peek_then_next _ _ _ _ Hn) as [Hpeek Hnext];
    cbn [Nat.add parseCommand_loop];
    rewrite (bind_Ok _ _ _ _ _ Hpeek), Ht, ?Hname;
    rewrite (bind_Ok _ _ _ _ _ Hnext).
  - apply IH. exact Hname.
  - unfold bind at 1. cbn [clearConsumedTokens]. apply IH. exact Hname.
Qed.

(** X26.  Comments and blank lines in front of a statement are passed
    over: [parseCommand] started before them does what it does when started
    after them, one unit of fuel being spent on each. *)
Theorem leading_comments_and_blank_lines_are_skipped lf n fuel s s' :
  leading lf n s s' ->
  parseCommand lf (n + fuel) s = parseCommand lf fuel s'.
Proof.
  intros H. apply (leading_skipped lf n s s' H). reflexivity.
Qed.

Lemma leading_comments_and_blank_lines_are_skipped_witness :
  exists s',
    parseCommand 8 (2 + 6) (parser_on (Report.NL ++ "#c" ++ Report.NL ++ "go"))
    = parseCommand 8 6 s'.
Proof.
  eexists.
  apply (leading_comments_and_blank_lines_are_skipped 8 2 6).
  eapply leading_newline; [vm_compute; reflexivity|reflexivity|].
  eapply leading_comment; [vm_compute; reflexivity|reflexivity|].
  apply leading_none.
Defined.

(** X27.  A statement has to start with its name.  When the first token
    that is neither a comment nor a line end is a string, a number, a
    delimiter or a comma, it is consumed and reported, an identifier being
    named as what was expected; when it is an unknown token, it is consumed
    and reported as unknown. *)
Theorem statement_starts_with_its_name lf n fuel s s0 t s1 :
  leading lf n s s0 ->
  nextToken lf s0 = Ok t s1 ->
  not_a_name (CLIToken.type t) = true
  \/ CLIToken.type t = CLIToken.Unknown ->
  parseCommand lf (n + S fuel) s
  = Throw (Report.error error_reporter_ (stream_hook_ s1)
             (if not_a_name (CLIToken.type t)
              then UnexpectedToken CLIToken.Identifier t
              else UnknownToken t)) s1.
Proof.
  intros Hlead Hn Ht. unfold parseCommand.
  rewrite (leading_skipped lf n s s0 Hlead (S fuel) (mkCommand "" []) eq_refl).
  destruct (peek_then_next _ _ _ _ Hn) as [Hpeek Hnext].
  cbn [parseCommand_loop]. rewrite (bind_Ok _ _ _ _ _ Hpeek).
  destruct (CLIToken.type t); destruct Ht as [Ht|Ht]; try discriminate;
    cbn [empty name not_a_name];
    rewrite (bind_Ok _ _ _ _ _ Hnext); reflexivity.
Qed.

Lemma statement_starts_with_its_name_witness :
  exists t s1,
    parseCommand 8 (1 + 2) (parser_on (Report.NL ++ "7"))
    = Throw (Report.error error_reporter_ (stream_hook_ s1)
               (if not_a_name (CLIToken.type t)
                then UnexpectedToken CLIToken.Identifier t
                else UnknownToken t)) s1
    /\ CLIToken.type t = CLIToken.Integer.
Proof.
  eexists _, _. split.
  - eapply (statement_starts_with_its_name 8 1 1 (parser_on (Report.NL ++ "7"))).
    + eapply leading_newline; [vm_compute; reflexivity|reflexivity|].
      apply leading_none.
    + vm_compute; reflexivity.
    + left. reflexivity.
  - reflexivity.
Defined.

Lemma in_step_sp input s :
  in_step input s -> 0 <= sp s <= Z.of_nat (List.length input).
Proof.
  intros (before & Hread & Hin & Hpo & Hp & _). unfold sp.
  rewrite <- Hp, <- Hin, length_app. lia.
Qed.

Lemma fresh_token_in_range input lf s t s' :
  in_step input s ->
  readNextToken lf s = Ok t s' ->
  0 <= CLIToken.begin t <= CLIToken.end_ t /\ CLIToken.end_ t = sp s'.
Proof.
  intros Hs H.
  pose proof (in_step_sp input s Hs) as Hsp.
  pose proof (readNextToken_spec lf s) as W. rewrite H in W.
  destruct W as (n & Hn & Hmoved & Hbegin & Hend & Heof & Hne).
  destruct (CLIToken.Type_eqb (CLIToken.type t) CLIToken.EndOfFile) eqn:E.
  - apply Type_eqb_eq in E. specialize (Heof E). lia.
  - assert (Ht : CLIToken.type t <> CLIToken.EndOfFile).
    { intros E'. rewrite E' in E. discriminate. }
    specialize (Hne Ht). lia.
Qed.

Lemma parseCommand_in_range input lf fuel s :
  in_step input s /\ lookahead_in_range s ->
  wp (parseCommand lf fuel s)
     (fun _ s' => in_step input s' /\ lookahead_in_range s')
     (fun _ s' => in_step input s' /\ lookahead_in_range s').
Proof.
  apply (parseCommand_keeps lf
           (fun s0 => in_step input s0 /\ lookahead_in_range s0)
           (fun _ _ => True)
           (fun _ s0 => in_step input s0 /\ lookahead_in_range s0)).
  - intros s0 [Hs0 Hr0].
    destruct (nextToken lf s0) as [t s1|e s1|] eqn:E; simpl; auto.
    + split; [|exact I].
      assert (Hpk : peeked_token_ s1 = None) by exact (nextToken_unpeeked _ _ _ _ E).
      split; [|intros t1 E1; rewrite Hpk in E1; discriminate].
      unfold nextToken in E. destruct (peeked_token_ s0).
      * injection E as _ <-. exact (in_step_hook input s0 _ eq_refl Hs0).
      * exact (in_step_advanced input s0 s1 (readNextToken_advanced _ _ _ _ E) Hs0).
    + exfalso. unfold nextToken in E.
      destruct (peeked_token_ s0); [discriminate|].
      exact (readNextToken_no_throw _ _ _ _ E).
  - intros s0 [Hs0 Hr0].
    destruct (peekToken lf s0) as [t s1|e s1|] eqn:E; simpl; auto.
    + unfold peekToken in E. destruct (peeked_token_ s0) as [t0|] eqn:Hpk.
      * injection E as _ <-. split; [exact Hs0|exact Hr0].
      * destruct (readNextToken lf s0) as [t' s'| |] eqn:E'; try discriminate.
        injection E as _ <-. split.
        -- apply (in_step_hook input s' _ eq_refl).
           exact (in_step_advanced input s0 s' (readNextToken_advanced _ _ _ _ E') Hs0).
        -- intros t1 E1. injection E1 as <-.
           destruct (fresh_token_in_range input lf s0 t' s' Hs0 E') as [H1 H2].
           split; [exact H1|]. rewrite H2. apply Z.le_refl.
    + exfalso. unfold peekToken in E.
      destruct (peeked_token_ s0); [discriminate|].
      destruct (readNextToken lf s0) eqn:E'; try discriminate.
      exact (readNextToken_no_throw _ _ _ _ E').
  - intros s0 [Hs0 Hr0]. split; [exact (in_step_checkpointed input s0 Hs0)|exact Hr0].
  - intros d s0 Hs0 _. exact Hs0.
  - intros e s0 Hs0 _. exact Hs0.
Qed.

Lemma session_on_in_range input s :
  session_on input s ->
  in_step (list_ascii_of_string input) s /\ lookahead_in_range s.
Proof.
  induction 1 as [|lf fuel s cmd s' _ IH H|lf fuel s e s' _ IH H].
  - split; [apply in_step_parser_on|intros t E; discriminate].
  - pose proof (parseCommand_in_range _ lf fuel s IH) as W. rewrite H in W. exact W.
  - pose proof (parseCommand_in_range _ lf fuel s IH) as W. rewrite H in W. exact W.
Qed.

(** X28.  Token spans are offsets into the text being parsed.  Every
    token the lexer delivers in the course of a parsing session, freshly
    read or taken from the lookahead, has [0 <= begin <= end], and its end
    lies within the input and no further than the stream has read. *)
Theorem token_spans_lie_within_the_input input lf s t s' :
  session_on input s ->
  nextToken lf s = Ok t s' ->
  0 <= CLIToken.begin t <= CLIToken.end_ t
  /\ CLIToken.end_ t <= sp s'
  /\ sp s' <= Z.of_nat (String.length input).
Proof.
  intros Hs H. destruct (session_on_in_range input s Hs) as [Hstep Hrange].
  assert (Hlen : List.length (list_ascii_of_string input) = String.length input).
  { rewrite <- (string_of_list_ascii_of_string input) at 2.
    rewrite length_string_of_list_ascii. reflexivity. }
  unfold nextToken in H. destruct (peeked_token_ s) as [t0|] eqn:Hpk.
  - injection H as <- <-. destruct (Hrange t0 Hpk) as [H1 H2].
    change (sp (mkParser (stream_hook_ s) None)) with (sp s).
    pose proof (in_step_sp _ s Hstep) as Hsp. rewrite Hlen in Hsp.
    split; [exact H1|]. split; [exact H2|]. apply Hsp.
  - destruct (fresh_token_in_range _ lf s t s' Hstep H) as [H1 H2].
    pose proof (in_step_sp _ s'
                  (in_step_advanced _ s s' (readNextToken_advanced _ _ _ _ H) Hstep))
      as Hsp.
    rewrite Hlen in Hsp.
    split; [exact H1|]. split; [rewrite H2; apply Z.le_refl|]. apply Hsp.
Qed.

Lemma token_spans_lie_within_the_input_witness :
  exists t s',
    nextToken 8 (parser_on "ab (") = Ok t s'
    /\ CLIToken.end_ t <= sp s'.
Proof.
  eexists _, _. split; [vm_compute; reflexivity|].
  refine (proj1 (proj2 (token_spans_lie_within_the_input "ab (" 8
                          (parser_on "ab (") _ _ (on_start _) _))).
  vm_compute; reflexivity.
Defined.
